(** * OpenBao: the Raft FSM, standby redirection and core initialization

    A shallow embedding of

    - [physical/raft/fsm.go]: paginated listing of the data bucket
      ([listPageInner], [ListPage], [List]), batched log application
      ([applyBatchNonTxOps], [applyBatchTxOps], [ApplyBatch]) and snapshot
      installation ([Restore], [localNodeConfig], [persistDesiredSuffrage]);
    - [http/handler.go]: [forwardRequest] and [respondStandby];
    - [vault/init.go]: [Initialize], [initializeInternal] and
      [UnsealWithStoredKeys];

    followed by the properties of these functions.

    Go strings are byte strings: they are modelled by [string], whose
    characters are the 256 byte values, and Go's [<], [<=] on strings are
    [String.ltb], [String.leb] (bytewise lexicographic order).  A [[]byte]
    is modelled by a [string] as well. *)

From Stdlib Require Import String Ascii List ZArith NArith Lia Bool Arith.
From Stdlib Require Import DecimalString.
Import ListNotations.

Local Open Scope string_scope.
Local Open Scope list_scope.

Definition bytes := string.

(** ** The Go standard library functions used by the code *)

Module strings.

(** [strings.HasPrefix(s, prefix)] (and [bytes.HasPrefix]). *)
Definition HasPrefix (s prefix : string) : bool := String.prefix prefix s.

(** [s[n:]] *)
Fixpoint slice_from (n : nat) (s : string) : string :=
  match n, s with
  | O, _ => s
  | S _, EmptyString => EmptyString
  | S n', String _ s' => slice_from n' s'
  end.

(** [s[:n]] *)
Definition slice_to (n : nat) (s : string) : string := String.substring 0 n s.

(** [strings.TrimPrefix(s, prefix)] *)
Definition TrimPrefix (s prefix : string) : string :=
  if HasPrefix s prefix then slice_from (String.length prefix) s else s.

(** [strings.Index(s, sep)] for a separator [sep] of one byte [c]; Go's
    [-1] is [None]. *)
Fixpoint IndexByte (s : string) (c : ascii) : option nat :=
  match s with
  | EmptyString => None
  | String a s' =>
      if Ascii.eqb a c then Some O
      else option_map S (IndexByte s' c)
  end.

(** [strings.Split(s, "/")] *)
Fixpoint Split_slash (s : string) : list string :=
  match s with
  | EmptyString => [EmptyString]
  | String a s' =>
      if Ascii.eqb a "/" then EmptyString :: Split_slash s'
      else match Split_slash s' with
           | [] => [String a EmptyString]
           | x :: xs => String a x :: xs
           end
  end.

(** [strings.Index(s, substr)]; Go's [-1] is [None]. *)
Fixpoint Index (s substr : string) : option nat :=
  if HasPrefix s substr then Some O
  else match s with
       | EmptyString => None
       | String _ s' => option_map S (Index s' substr)
       end.

(** [strings.Contains(s, substr)] *)
Definition Contains (s substr : string) : bool :=
  match Index s substr with
  | Some _ => true
  | None => false
  end.

(** [strings.SplitN(s, sep, 2)] for a separator that is not empty: [s] is
    cut at the first [sep], and is the only element when [sep] does not
    occur in it. *)
Definition SplitN2 (s sep : string) : list string :=
  match Index s sep with
  | None => [s]
  | Some m => [slice_to m s; slice_from (m + String.length sep) s]
  end.

End strings.

Module filepath.

(** One path element of [Clean], on the stack of the elements kept so far
    (innermost first).  An empty element (a doubled separator) and ["."]
    are dropped; [".."] removes the element before it when there is one
    that is not itself [".."], is kept at the start of a path that is not
    rooted, and is dropped at the root; any other element is kept. *)
Definition clean_elem (rooted : bool) (stack : list string) (e : string)
  : list string :=
  if (e =? "")%string then stack
  else if (e =? ".")%string then stack
  else if (e =? "..")%string then
    match stack with
    | top :: below => if (top =? "..")%string then e :: stack else below
    | [] => if rooted then [] else [e]
    end
  else e :: stack.

Definition rooted (path : string) : bool :=
  match path with
  | String "/" _ => true
  | _ => false
  end.

(** [filepath.Clean(path)] with [/] as the separator: the shortest path
    equivalent to [path] by purely lexical processing; the empty result
    is ["."]. *)
Definition Clean (path : string) : string :=
  let r := rooted path in
  let kept := rev (fold_left (clean_elem r) (strings.Split_slash path) []) in
  let out := ((if r then "/" else "") ++ String.concat "/" kept)%string in
  if (out =? "")%string then "." else out.

(** [filepath.Join(a, b)]: the non-empty elements from the first non-empty
    one on are joined with the separator and the result is cleaned; with
    no non-empty element the result is empty. *)
Definition Join (a b : string) : string :=
  if negb (a =? "")%string then Clean (a ++ "/" ++ b)
  else if negb (b =? "")%string then Clean b
  else "".

End filepath.

(** ** Errors *)

(** Go [error] values, by the way they are built: the sentinels the code
    compares against, new errors, and [fmt.Errorf] with one [%w] verb
    wrapping another error between two pieces of text. *)
Inductive error : Type :=
| ErrTransactionCommitFailure      (* physical.ErrTransactionCommitFailure *)
| ErrKeyRequired                   (* bolt.ErrKeyRequired *)
| ErrKeyTooLarge                   (* bolt.ErrKeyTooLarge *)
| ErrValueTooLarge                 (* bolt.ErrValueTooLarge *)
| ErrDatabaseNotOpen               (* bolt.ErrDatabaseNotOpen *)
| ErrHANotEnabled                  (* vault.ErrHANotEnabled *)
| ErrCannotForward                 (* vault.ErrCannotForward *)
| ErrAlreadyInit                   (* vault.ErrAlreadyInit *)
| ErrParallelInit                  (* vault.ErrParallelInit *)
| errors_New (msg : string)
| fmt_Errorf_w (before : string) (wrapped : error) (after : string).

(** [errors.Is(err, physical.ErrTransactionCommitFailure)]: the sentinel is
    looked for along the chain of wrapped errors. *)
Fixpoint Is_ErrTransactionCommitFailure (err : error) : bool :=
  match err with
  | ErrTransactionCommitFailure => true
  | fmt_Errorf_w _ wrapped _ => Is_ErrTransactionCommitFailure wrapped
  | _ => false
  end.

(** Modelled from the spec: [err.Error()].  The sentinel errors are
    declared outside the sources; each is given a text of its own, the store's
    and the core's as their packages word them, and no statement below depends
    on the wording. *)
Fixpoint Error (err : error) : string :=
  match err with
  | ErrTransactionCommitFailure => "transaction commit failure"
  | ErrKeyRequired => "key required"
  | ErrKeyTooLarge => "key too large"
  | ErrValueTooLarge => "value too large"
  | ErrDatabaseNotOpen => "database not open"
  | ErrHANotEnabled => "Vault is not configured for highly-available mode"
  | ErrCannotForward => "cannot forward request; no connection or address not known"
  | ErrAlreadyInit => "Vault is already initialized"
  | ErrParallelInit => "Vault is being initialized"
  | errors_New msg => msg
  | fmt_Errorf_w before wrapped after => before ++ Error wrapped ++ after
  end.

(** A call either returns or panics. *)
Inductive outcome (A : Type) :=
| Returned (a : A)
| Panic (msg : string).
Arguments Returned {A} a.
Arguments Panic {A} msg.

(** ** The embedded ordered key-value store *)

Module bolt.

(** A bucket: its entries in the order of the cursor, that is by
    increasing key. *)
Definition Bucket := list (string * bytes).

Definition keys (b : Bucket) : list string := map fst b.

(** The bucket invariant: keys strictly increase. *)
Fixpoint increasing (ks : list string) : bool :=
  match ks with
  | [] => true
  | k :: rest =>
      match rest with
      | [] => true
      | k' :: _ => (k <? k')%string && increasing rest
      end
  end.

Definition MaxKeySize : Z := 32768.
Definition MaxValueSize : Z := 2147483646.

(** [b.Get(key)] *)
Fixpoint Get (b : Bucket) (key : string) : option bytes :=
  match b with
  | [] => None
  | (k, v) :: rest => if (k =? key)%string then Some v else Get rest key
  end.

Fixpoint insert (key : string) (value : bytes) (b : Bucket) : Bucket :=
  match b with
  | [] => [(key, value)]
  | (k, v) :: rest =>
      if (key <? k)%string then (key, value) :: b
      else if (key =? k)%string then (key, value) :: rest
      else (k, v) :: insert key value rest
  end.

(** [b.Put(key, value)] in a writable transaction: the key must not be
    empty, and key and value must not exceed the size limits. *)
Definition Put (b : Bucket) (key : string) (value : bytes) : Bucket + error :=
  if (key =? "")%string then inr ErrKeyRequired
  else if (Z.of_nat (String.length key) >? MaxKeySize)%Z then inr ErrKeyTooLarge
  else if (Z.of_nat (String.length value) >? MaxValueSize)%Z then inr ErrValueTooLarge
  else inl (insert key value b).

(** [b.Delete(key)] in a writable transaction: a key that does not exist
    is not an error. *)
Definition Delete (b : Bucket) (key : string) : Bucket + error :=
  inl (filter (fun kv => negb (fst kv =? key)%string) b).

(** [c.Seek(seek)]: the cursor moves to the first key that is not below
    [seek]; the result lists the keys from the cursor on, which are the
    ones the following [c.Next()] calls return. *)
Fixpoint Seek (ks : list string) (seek : string) : list string :=
  match ks with
  | [] => []
  | k :: rest => if (k <? seek)%string then Seek rest seek else ks
  end.

End bolt.

(** ** physical/raft/fsm.go *)

Module raft.

Import strings.

(** *** Operations, log entries and responses *)

(** [deleteOp uint32 = 1 << iota] and the constants after it. *)
Definition deleteOp : N := 1.
Definition putOp : N := 2.
Definition restoreCallbackOp : N := 4.
Definition getOp : N := 8.
Definition verifyReadOp : N := 16.
Definition verifyListOp : N := 32.
Definition beginTxOp : N := 64.
Definition commitTxOp : N := 128.

Definition latestIndexKey : string := "latest_indexes".
Definition latestConfigKey : string := "latest_config".
Definition localNodeConfigKey : string := "local_node_config".

Definition fsmEntryTxErrorKey : string :=
  String "[" (String "009" "transaction-commit-failure"
    ++ String "009" "]").

Record LogOperation := {
  OpType : N;
  Key : string;
  Value : bytes
}.

Record LogData := { Operations : list LogOperation }.

Record Server := {
  Suffrage : Z;
  Id : string;
  Address : string
}.

Record ConfigurationValue := {
  ConfigurationIndex : N;
  Servers : list Server
}.

Record IndexValue := {
  Term : N;
  Index : N
}.

Record LocalNodeConfigValue := { DesiredSuffrage : string }.

Module FSMEntry.
Record t := mk { Key : string; Value : bytes }.

Definition IsTxError (f : t) : bool := (Key f =? fsmEntryTxErrorKey)%string.

(** [AsTxError]: the error of a sentinel entry, rebuilt around
    [physical.ErrTransactionCommitFailure] when the text names it. *)
Definition AsTxError (f : t) : error :=
  let str := Value f in
  let commitErr := Error ErrTransactionCommitFailure in
  match strings.SplitN2 str commitErr with
  | [before; after] => fmt_Errorf_w before ErrTransactionCommitFailure after
  | _ => errors_New str
  end.
End FSMEntry.

Record FSMApplyResponse := {
  Success : bool;
  EntrySlice : list FSMEntry.t
}.

(** [raft.LogType]; the FSM tells [LogCommand] and [LogConfiguration]
    from every other type. *)
Inductive LogType :=
| LogCommand
| LogConfiguration
| LogOther (t : N).

(** [raft.Log] *)
Module Log.
Record t := mk {
  Index : N;
  Term : N;
  Type_ : LogType;
  Data : bytes
}.
End Log.

(** The two buckets of the database file. *)
Record DB := {
  closed : bool;
  data : bolt.Bucket;
  config : bolt.Bucket
}.

(** The encodings the FSM calls: protobuf for its own messages and the
    Raft library's decoding of a configuration entry, which panics on
    malformed data ([None]). *)
Class Codec := {
  Unmarshal_LogData : bytes -> LogData + error;
  DecodeConfiguration : bytes -> option (list Server);
  Marshal_IndexValue : IndexValue -> bytes + error;
  Unmarshal_IndexValue : bytes -> IndexValue + error;
  Marshal_ConfigurationValue : ConfigurationValue -> bytes + error;
  Unmarshal_ConfigurationValue : bytes -> ConfigurationValue + error;
  Marshal_LocalNodeConfigValue : LocalNodeConfigValue -> bytes + error;
  Unmarshal_LocalNodeConfigValue : bytes -> LocalNodeConfigValue + error
}.

(** *** The fast-application tracker *)

(** Modelled from the spec: the tracker of transaction commit indexes
    ([fsmTxnCommitIndexTracker], with its per-entry application state) is
    not among the sources.  It is kept as the trace of the calls that
    fsm.go makes on it; [getInTx] tells whether [setInTx] was called on
    the current application state. *)
Inductive txnEvent :=
| ApplyState (latestIndex : N) (commandIndex : nat) (logIndex : N)
| SetInTx
| SetStartIndex (index : N)
| LogWrite (key : string)
| FinishTxn.

Definition fsmTxnCommitIndexTracker := list txnEvent.

Record fsmTxnCommitIndexApplicationState := {
  trace : fsmTxnCommitIndexTracker;
  inTx : bool
}.

Definition applyState (tracker : fsmTxnCommitIndexTracker)
           (latestIndex : N) (commandIndex : nat) (logIndex : N)
  : fsmTxnCommitIndexApplicationState :=
  {| trace := tracker ++ [ApplyState latestIndex commandIndex logIndex];
     inTx := false |}.

Definition record (e : txnEvent) (s : fsmTxnCommitIndexApplicationState)
  : fsmTxnCommitIndexApplicationState :=
  {| trace := trace s ++ [e]; inTx := inTx s |}.

Definition setInTx (s : fsmTxnCommitIndexApplicationState) :=
  {| trace := trace s ++ [SetInTx]; inTx := true |}.
Definition getInTx (s : fsmTxnCommitIndexApplicationState) : bool := inTx s.
Definition setStartIndex s (index : N) := record (SetStartIndex index) s.
Definition logWrite s (key : string) := record (LogWrite key) s.
Definition finishTxn s := record FinishTxn s.

(** The verification of a transaction, which is not among the sources
    either: the parser of the value of a [beginTxOp] and the two checks,
    which see the tracker, the data bucket and the operation and report an
    error or none. *)
Class TxnVerifier := {
  parseBeginTxOpValue : bytes -> N + error;
  doVerifyRead : fsmTxnCommitIndexApplicationState -> bolt.Bucket ->
                 LogOperation -> option error;
  doVerifyList : fsmTxnCommitIndexApplicationState -> bolt.Bucket ->
                 LogOperation -> option error
}.

(** Modelled from the spec: [doVerifyRead] and [doVerifyList] are not among
    the sources.  By the spec, if any verify fails the transaction is
    rejected as transaction_commit_failure: the error of a verification that
    fails wraps [physical.ErrTransactionCommitFailure].  What the two check,
    the text around the wrapped error and the parser of the begin value are
    left open. *)
Record TxnChecks := {
  parseBegin : bytes -> N + error;
  checkRead : fsmTxnCommitIndexApplicationState -> bolt.Bucket ->
              LogOperation -> option (string * string);
  checkList : fsmTxnCommitIndexApplicationState -> bolt.Bucket ->
              LogOperation -> option (string * string)
}.

Definition verifyFailed (text : string * string) : error :=
  fmt_Errorf_w (fst text) ErrTransactionCommitFailure (snd text).

Definition specVerifier (checks : TxnChecks) : TxnVerifier :=
  {| parseBeginTxOpValue := parseBegin checks;
     doVerifyRead := fun ts b op =>
       option_map verifyFailed (checkRead checks ts b op);
     doVerifyList := fun ts b op =>
       option_map verifyFailed (checkList checks ts b op) |}.

(** *** The FSM *)

Record FSM := {
  latestIndex : N;
  latestTerm : N;
  latestConfig : option ConfigurationValue;
  noopRestore : bool;
  db : DB;
  (** whether a restore callback is set, and how many times it was
      started in its own goroutine *)
  restoreCb : bool;
  restoreCbStarted : nat;
  localID : string;
  desiredSuffrage : string;
  unknownOpTypes : list N;
  fastTxnTracker : fsmTxnCommitIndexTracker
}.

Definition set_db (f : FSM) (d : DB) : FSM :=
  {| latestIndex := latestIndex f; latestTerm := latestTerm f;
     latestConfig := latestConfig f; noopRestore := noopRestore f;
     db := d; restoreCb := restoreCb f;
     restoreCbStarted := restoreCbStarted f; localID := localID f;
     desiredSuffrage := desiredSuffrage f;
     unknownOpTypes := unknownOpTypes f;
     fastTxnTracker := fastTxnTracker f |}.

Definition set_latest (f : FSM) (index term : N)
           (cfg : option ConfigurationValue) : FSM :=
  {| latestIndex := index; latestTerm := term;
     latestConfig := cfg; noopRestore := noopRestore f;
     db := db f; restoreCb := restoreCb f;
     restoreCbStarted := restoreCbStarted f; localID := localID f;
     desiredSuffrage := desiredSuffrage f;
     unknownOpTypes := unknownOpTypes f;
     fastTxnTracker := fastTxnTracker f |}.

Definition set_desiredSuffrage (f : FSM) (s : string) : FSM :=
  {| latestIndex := latestIndex f; latestTerm := latestTerm f;
     latestConfig := latestConfig f; noopRestore := noopRestore f;
     db := db f; restoreCb := restoreCb f;
     restoreCbStarted := restoreCbStarted f; localID := localID f;
     desiredSuffrage := s;
     unknownOpTypes := unknownOpTypes f;
     fastTxnTracker := fastTxnTracker f |}.

Definition set_apply (f : FSM) (started : nat) (unknown : list N)
           (tracker : fsmTxnCommitIndexTracker) : FSM :=
  {| latestIndex := latestIndex f; latestTerm := latestTerm f;
     latestConfig := latestConfig f; noopRestore := noopRestore f;
     db := db f; restoreCb := restoreCb f;
     restoreCbStarted := started; localID := localID f;
     desiredSuffrage := desiredSuffrage f;
     unknownOpTypes := unknown;
     fastTxnTracker := tracker |}.

(** [go f.restoreCb(context.Background())] when a callback is set. *)
Definition startRestoreCb (f : FSM) : FSM :=
  if restoreCb f
  then set_apply f (S (restoreCbStarted f)) (unknownOpTypes f) (fastTxnTracker f)
  else f.

(** The [default] case of the switches on the operation type: the type is
    logged once and remembered in [unknownOpTypes]. *)
Definition noteUnknownOp (f : FSM) (op : N) : FSM :=
  if existsb (N.eqb op) (unknownOpTypes f) then f
  else set_apply f (restoreCbStarted f) (op :: unknownOpTypes f)
                 (fastTxnTracker f).

(** *** Listing *)

(** The body of the cursor loop of [listPageInner]: [ks] are the keys from
    the cursor on, [keys] the result built so far.  The loop ends when the
    keys are exhausted or the current key lacks the prefix, and returns
    early once a positive [limit] is reached; [continue] and the end of
    the body go on with the next key. *)
Fixpoint listPageLoop (prefix after : string) (limit : Z)
         (ks : list string) (keys : list string) : list string :=
  match ks with
  | [] => keys
  | k :: next =>
      if negb (HasPrefix k prefix) then keys
      else if (limit >? 0)%Z && (Z.of_nat (length keys) >=? limit)%Z then keys
      else
        let key := TrimPrefix k prefix in
        match IndexByte key "/" with
        | None =>
            if negb (after =? "")%string && (key <=? after)%string
            then listPageLoop prefix after limit next keys
            else listPageLoop prefix after limit next (keys ++ [key])
        | Some i =>
            if (length keys =? 0)%nat
               || negb (last keys "" =? slice_to (i + 1) key)%string
            then
              let folder := slice_to (i + 1) key in
              if negb (after =? "")%string && (folder <=? after)%string
              then listPageLoop prefix after limit next keys
              else listPageLoop prefix after limit next (keys ++ [folder])
            else listPageLoop prefix after limit next keys
        end
  end.

(** The position the cursor seeks to: the joined path of [prefix] and
    [after], unless [after] is empty or the joined path lost the prefix. *)
Definition seekPrefix (prefix after : string) : string :=
  let seekPrefix := filepath.Join prefix after in
  if (after =? "")%string then prefix
  else if negb (HasPrefix seekPrefix prefix) then prefix
  else seekPrefix.

Definition listPageInner (data : bolt.Bucket) (prefix after : string)
           (limit : Z) : list string :=
  listPageLoop prefix after limit
               (bolt.Seek (bolt.keys data) (seekPrefix prefix after)) [].

(** [f.db.View]: a read transaction on an open database. *)
Definition ListPage (f : FSM) (prefix after : string) (limit : Z)
  : list string * option error :=
  if closed (db f) then ([], Some ErrDatabaseNotOpen)
  else (listPageInner (data (db f)) prefix after limit, None).

Definition List_ (f : FSM) (prefix : string) : list string * option error :=
  ListPage f prefix "" (-1).

(** *** Applying a batch *)

(** The unmarshalled logs: [*LogData] or [*ConfigurationValue]. *)
Inductive command :=
| LogDataCommand (command : LogData)
| ConfigurationCommand (config : ConfigurationValue).

(** The transaction of a batch: what the closure given to the first
    [f.db.Update] has built when it returns. *)
Record batch := {
  batch_f : FSM;
  batch_b : bolt.Bucket;
  batch_configB : bolt.Bucket;
  entrySlices : list (list FSMEntry.t);
  batch_err : option error
}.

Section Apply.

Context {codec : Codec} {verifier : TxnVerifier}.

(** What a loop over the operations leaves behind: the FSM (restore
    callbacks started, unknown operation types seen), the data bucket of
    the write transaction, the application state and the error. *)
Definition applied : Type :=
  FSM * bolt.Bucket * fsmTxnCommitIndexApplicationState * option error.

(** Within ApplyBatch, applies non-transactional operations. *)
Fixpoint applyBatchNonTxOpsLoop (f : FSM) (b : bolt.Bucket)
         (txnState : fsmTxnCommitIndexApplicationState)
         (ops : list LogOperation) : applied :=
  match ops with
  | [] => (f, b, txnState, None)
  | op :: rest =>
      if (OpType op =? putOp)%N then
        match bolt.Put b (Key op) (Value op) with
        | inl b' =>
            applyBatchNonTxOpsLoop f b' (logWrite txnState (Key op)) rest
        | inr err => (f, b, txnState, Some err)
        end
      else if (OpType op =? deleteOp)%N then
        match bolt.Delete b (Key op) with
        | inl b' =>
            applyBatchNonTxOpsLoop f b' (logWrite txnState (Key op)) rest
        | inr err => (f, b, txnState, Some err)
        end
      else if (OpType op =? restoreCallbackOp)%N then
        applyBatchNonTxOpsLoop (startRestoreCb f) b txnState rest
      else
        applyBatchNonTxOpsLoop (noteUnknownOp f (OpType op)) b txnState rest
  end.

Definition applyBatchNonTxOps (f : FSM) (b : bolt.Bucket)
           (txnState : fsmTxnCommitIndexApplicationState)
           (command : LogData) : applied :=
  applyBatchNonTxOpsLoop f b txnState (Operations command).

(** [command.Operations[i].OpType] *)
Definition opTypeAt (operations : list LogOperation) (i : nat) : N :=
  match nth_error operations i with
  | Some op => OpType op
  | None => 0%N
  end.

Definition errUnsupportedTransaction : error :=
  fmt_Errorf_w
    "unsupported transaction: saw beginTxOp/commitTxOp mixed inside other operations: "
    ErrTransactionCommitFailure "".

(** The first loop of [applyBatchTxOps]: the shape of the transaction
    and its verify operations are checked, and nothing is written.
    [operations] is the whole of [command.Operations], [index] the
    position of the head of [ops] in it. *)
Fixpoint applyBatchTxOpsVerify (f : FSM) (b : bolt.Bucket)
         (txnState : fsmTxnCommitIndexApplicationState)
         (operations : list LogOperation) (index : nat)
         (ops : list LogOperation)
  : FSM * fsmTxnCommitIndexApplicationState * option error :=
  match ops with
  | [] => (f, txnState, None)
  | op :: rest =>
      if (OpType op =? beginTxOp)%N || (OpType op =? commitTxOp)%N then
        (* Ensure a well-formed transaction. *)
        if negb (opTypeAt operations 0 =? beginTxOp)%N
           || negb (opTypeAt operations (length operations - 1) =? commitTxOp)%N
           || (negb (index =? 0)%nat
               && negb (index =? length operations - 1)%nat)
        then (f, txnState, Some errUnsupportedTransaction)
        else if (OpType op =? beginTxOp)%N then
          match parseBeginTxOpValue (Value op) with
          | inr err => (f, txnState, Some err)
          | inl s =>
              applyBatchTxOpsVerify f b (setStartIndex txnState s)
                                    operations (S index) rest
          end
        else applyBatchTxOpsVerify f b txnState operations (S index) rest
      else if (OpType op =? putOp)%N then
        applyBatchTxOpsVerify f b txnState operations (S index) rest
      else if (OpType op =? deleteOp)%N then
        applyBatchTxOpsVerify f b txnState operations (S index) rest
      else if (OpType op =? verifyReadOp)%N then
        match doVerifyRead txnState b op with
        | Some err => (f, txnState, Some err)
        | None => applyBatchTxOpsVerify f b txnState operations (S index) rest
        end
      else if (OpType op =? verifyListOp)%N then
        match doVerifyList txnState b op with
        | Some err => (f, txnState, Some err)
        | None => applyBatchTxOpsVerify f b txnState operations (S index) rest
        end
      else
        applyBatchTxOpsVerify (noteUnknownOp f (OpType op)) b txnState
                              operations (S index) rest
  end.

(** The second loop of [applyBatchTxOps]: the writes.  A write is logged
    to the tracker whether it succeeded or not. *)
Fixpoint applyBatchTxOpsWrite (f : FSM) (b : bolt.Bucket)
         (txnState : fsmTxnCommitIndexApplicationState)
         (ops : list LogOperation) : applied :=
  match ops with
  | [] => (f, b, txnState, None)
  | op :: rest =>
      if (OpType op =? beginTxOp)%N || (OpType op =? commitTxOp)%N then
        applyBatchTxOpsWrite f b txnState rest
      else if (OpType op =? putOp)%N then
        match bolt.Put b (Key op) (Value op) with
        | inl b' =>
            applyBatchTxOpsWrite f b' (logWrite txnState (Key op)) rest
        | inr err => (f, b, logWrite txnState (Key op), Some err)
        end
      else if (OpType op =? deleteOp)%N then
        match bolt.Delete b (Key op) with
        | inl b' =>
            applyBatchTxOpsWrite f b' (logWrite txnState (Key op)) rest
        | inr err => (f, b, logWrite txnState (Key op), Some err)
        end
      else if (OpType op =? verifyReadOp)%N then
        applyBatchTxOpsWrite f b txnState rest
      else if (OpType op =? verifyListOp)%N then
        applyBatchTxOpsWrite f b txnState rest
      else
        applyBatchTxOpsWrite (noteUnknownOp f (OpType op)) b txnState rest
  end.

(** Within ApplyBatch, applies a transaction within the broader context
    of the batch's transaction. *)
Definition applyBatchTxOps (f : FSM) (b : bolt.Bucket)
           (txnState : fsmTxnCommitIndexApplicationState)
           (command : LogData) : applied :=
  let txnState := setInTx txnState in
  match applyBatchTxOpsVerify f b txnState (Operations command) 0
                              (Operations command) with
  | (f, txnState, Some err) => (f, b, txnState, Some err)
  | (f, txnState, None) =>
      match applyBatchTxOpsWrite f b txnState (Operations command) with
      | (f, b, txnState, Some err) => (f, b, txnState, Some err)
      | (f, b, txnState, None) => (f, b, finishTxn txnState, None)
      end
  end.

(** The servers of a Raft configuration are given in their protobuf
    form already. *)
Definition raftConfigurationToProtoConfiguration (index : N)
           (configuration : list Server) : ConfigurationValue :=
  {| ConfigurationIndex := index; Servers := configuration |}.

(** The first loop of [ApplyBatch]: the unmarshalling. *)
Fixpoint unmarshalLogs (logs : list Log.t) (commands : list command)
         (latestConfiguration : option ConfigurationValue)
  : outcome (list command * option ConfigurationValue) :=
  match logs with
  | [] => Returned (commands, latestConfiguration)
  | l :: rest =>
      match Log.Type_ l with
      | LogCommand =>
          match Unmarshal_LogData (Log.Data l) with
          | inr _ => Panic "error proto unmarshaling log data"
          | inl command =>
              unmarshalLogs rest (commands ++ [LogDataCommand command])
                            latestConfiguration
          end
      | LogConfiguration =>
          match DecodeConfiguration (Log.Data l) with
          | None => Panic "failed to decode configuration"
          | Some configuration =>
              let config :=
                raftConfigurationToProtoConfiguration (Log.Index l)
                                                      configuration in
              unmarshalLogs rest (commands ++ [ConfigurationCommand config])
                            (Some config)
          end
      | LogOther t =>
          Panic ("got unexpected log type: "
                   ++ NilZero.string_of_uint (N.to_uint t))
      end
  end.

Definition logIndexAt (logs : list Log.t) (i : nat) : N :=
  match nth_error logs i with
  | Some l => Log.Index l
  | None => 0%N
  end.

(** The loop over the commands inside the first [f.db.Update]. *)
Fixpoint applyCommands (f : FSM) (b configB : bolt.Bucket) (latestIndex : N)
         (logs : list Log.t) (commandIndex : nat) (commands : list command)
         (entrySlices : list (list FSMEntry.t)) : batch :=
  match commands with
  | [] => {| batch_f := f; batch_b := b; batch_configB := configB;
             entrySlices := entrySlices; batch_err := None |}
  | LogDataCommand command :: rest =>
      let txnState :=
        applyState (fastTxnTracker f) latestIndex commandIndex
                   (logIndexAt logs commandIndex) in
      let '(f, b, txnState, err) :=
        if (length (Operations command) =? 0)%nat
           || negb (opTypeAt (Operations command) 0 =? beginTxOp)%N
        then applyBatchNonTxOps f b txnState command
        else applyBatchTxOps f b txnState command in
      let f := set_apply f (restoreCbStarted f) (unknownOpTypes f)
                         (trace txnState) in
      match err with
      | None =>
          applyCommands f b configB latestIndex logs (S commandIndex) rest
                        (entrySlices ++ [[]])
      | Some err =>
          if getInTx txnState && Is_ErrTransactionCommitFailure err then
            (* Process other events; this transaction failure was
               handled appropriately already in applyBatchTxOps. *)
            applyCommands f b configB latestIndex logs (S commandIndex) rest
              (entrySlices
                 ++ [[FSMEntry.mk fsmEntryTxErrorKey (Error err)]])
          else
            {| batch_f := f; batch_b := b; batch_configB := configB;
               entrySlices := entrySlices ++ [[]];
               batch_err := Some err |}
      end
  | ConfigurationCommand command :: rest =>
      match Marshal_ConfigurationValue command with
      | inr err =>
          {| batch_f := f; batch_b := b; batch_configB := configB;
             entrySlices := entrySlices; batch_err := Some err |}
      | inl configBytes =>
          match bolt.Put configB latestConfigKey configBytes with
          | inr err =>
              {| batch_f := f; batch_b := b; batch_configB := configB;
                 entrySlices := entrySlices; batch_err := Some err |}
          | inl configB =>
              applyCommands f b configB latestIndex logs (S commandIndex)
                            rest (entrySlices ++ [[]])
          end
      end
  end.

(** The responses: [resp[i]] takes [entrySlices[i]] for each log, and
    indexing past the end of [entrySlices] panics. *)
Fixpoint buildResponses (logs : list Log.t)
         (entrySlices : list (list FSMEntry.t))
  : outcome (list FSMApplyResponse) :=
  match logs with
  | [] => Returned []
  | _ :: logs =>
      match entrySlices with
      | [] => Panic "index out of range"
      | entrySlice :: entrySlices =>
          match buildResponses logs entrySlices with
          | Panic msg => Panic msg
          | Returned resp =>
              Returned ({| Success := true; EntrySlice := entrySlice |}
                          :: resp)
          end
      end
  end.

(** ApplyBatch will apply a set of logs to the FSM.  This is called
    from the raft library.  The test hook [applyCallback] is left out. *)
Definition ApplyBatch (f : FSM) (logs : list Log.t)
  : outcome (list FSMApplyResponse * FSM) :=
  let numLogs := length logs in
  if (numLogs =? 0)%nat then Returned ([], f)
  else
    match unmarshalLogs logs [] None with
    | Panic msg => Panic msg
    | Returned (commands, latestConfiguration) =>
        let lastLog := nth (numLogs - 1) logs (Log.mk 0 0 LogCommand "") in
        let marshalled :=
          if (latestIndex f <? Log.Index lastLog)%N
          then Marshal_IndexValue {| Term := Log.Term lastLog;
                                     Index := Log.Index lastLog |}
          else inl "" in
        match marshalled with
        | inr _ => Panic "unable to marshal latest index"
        | inl logIndex =>
            (* the first f.db.Update: commits unless the closure fails *)
            let update1 : FSM * list (list FSMEntry.t) * option error :=
              if closed (db f) then (f, [], Some ErrDatabaseNotOpen)
              else
                let r := applyCommands f (data (db f)) (config (db f))
                                       (latestIndex f) logs 0 commands [] in
                match batch_err r with
                | Some err => (batch_f r, entrySlices r, Some err)
                | None =>
                    (set_db (batch_f r)
                            {| closed := false; data := batch_b r;
                               config := batch_configB r |},
                     entrySlices r, None)
                end in
            let '(f, entrySlices, err) := update1 in
            (* If we had no error, update our last applied log. *)
            let update2 : FSM * option error :=
              match err with
              | Some err => (f, Some err)
              | None =>
                  if (0 <? String.length logIndex)%nat then
                    match bolt.Put (config (db f)) latestIndexKey logIndex with
                    | inr err => (f, Some err)
                    | inl configB =>
                        (set_db f {| closed := false; data := data (db f);
                                     config := configB |}, None)
                    end
                  else (f, None)
              end in
            let '(f, err) := update2 in
            match err with
            | Some _ => Panic "failed to store data"
            | None =>
                let f :=
                  if (0 <? String.length logIndex)%nat
                  then set_latest f (Log.Index lastLog) (Log.Term lastLog)
                                  (latestConfig f)
                  else f in
                let f :=
                  match latestConfiguration with
                  | Some c =>
                      set_latest f (latestIndex f) (latestTerm f) (Some c)
                  | None => f
                  end in
                match buildResponses logs entrySlices with
                | Panic msg => Panic msg
                | Returned resp => Returned (resp, f)
                end
            end
        end
    end.

(** Apply will apply a log value to the FSM. *)
Definition Apply (f : FSM) (log : Log.t)
  : outcome (option FSMApplyResponse * FSM) :=
  match ApplyBatch f [log] with
  | Panic msg => Panic msg
  | Returned (resp, f) => Returned (nth_error resp 0, f)
  end.

End Apply.

(** *** Node-local configuration and snapshot installation

    [db f] stands for the database file at the FSM's path together with
    the state of the handle [f.db] on it: writes through the handle change
    the file, and a closed handle refuses every transaction. *)

(** Modelled from the spec: the snapshot installer of snapshot.go is not
    among the sources.  [Install] renames the installer's file to the
    database path, which replaces the content of the database file, or
    fails and leaves the file as it was. *)
Record boltSnapshotInstaller := {
  snapshot_data : bolt.Bucket;
  snapshot_config : bolt.Bucket;
  installErr : option error
}.

(** The dynamic type of the reader given to [Restore]. *)
Inductive ReadCloser :=
| SnapshotInstaller (i : boltSnapshotInstaller)
| ReadCloserWrapper (wrapped : ReadCloser)
| OtherReadCloser (typeName : string).

(** The failures of the operating system during a restore: closing the
    database file and opening it again. *)
Record RestoreIO := {
  closeErr : option error;
  openErr : option error
}.

Section Restore.

Context {codec : Codec}.

Definition localNodeConfig (f : FSM)
  : FSM * option LocalNodeConfigValue * option error :=
  if closed (db f) then (f, None, Some ErrDatabaseNotOpen)
  else
    match bolt.Get (config (db f)) localNodeConfigKey with
    | None => (f, None, None)
    | Some configBytes =>
        match Unmarshal_LocalNodeConfigValue configBytes with
        | inr err => (f, None, Some err)
        | inl lnConfig =>
            (set_desiredSuffrage f (DesiredSuffrage lnConfig),
             Some lnConfig, None)
        end
    end.

Definition DesiredSuffrage_ (f : FSM) : string := desiredSuffrage f.

Definition persistDesiredSuffrage (f : FSM) (lnconfig : LocalNodeConfigValue)
  : FSM * option error :=
  match Marshal_LocalNodeConfigValue lnconfig with
  | inr err => (f, Some err)
  | inl dsBytes =>
      if closed (db f) then (f, Some ErrDatabaseNotOpen)
      else
        match bolt.Put (config (db f)) localNodeConfigKey dsBytes with
        | inr err => (f, Some err)
        | inl configB =>
            (set_db f {| closed := false; data := data (db f);
                         config := configB |}, None)
        end
  end.

Definition recordSuffrage (f : FSM) (desiredSuffrage : string)
  : FSM * option error :=
  match persistDesiredSuffrage f {| DesiredSuffrage := desiredSuffrage |} with
  | (f, Some err) => (f, Some err)
  | (f, None) => (set_desiredSuffrage f desiredSuffrage, None)
  end.

(** [openDBFile]: the file is opened, the two buckets are made sure to
    exist, and the latest index, term and configuration are read from
    the config bucket into memory.  [f.db] is set at the very end. *)
Definition openDBFile (io : RestoreIO) (f : FSM) : FSM * option error :=
  match openErr io with
  | Some err => (f, Some err)
  | None =>
      let b := config (db f) in
      let readIndex : FSM * option error :=
        match bolt.Get b latestIndexKey with
        | None => (f, None)
        | Some val =>
            match Unmarshal_IndexValue val with
            | inr err => (f, Some err)
            | inl latest =>
                (set_latest f (Index latest) (Term latest) (latestConfig f),
                 None)
            end
        end in
      match readIndex with
      | (f, Some err) => (f, Some err)
      | (f, None) =>
          match bolt.Get b latestConfigKey with
          | None =>
              (set_db f {| closed := false; data := data (db f);
                           config := config (db f) |}, None)
          | Some val =>
              match Unmarshal_ConfigurationValue val with
              | inr err => (f, Some err)
              | inl latest =>
                  let f := set_latest f (latestIndex f) (latestTerm f)
                                      (Some latest) in
                  (set_db f {| closed := false; data := data (db f);
                               config := config (db f) |}, None)
              end
          end
      end
  end.

(** [snapshotInstaller.Install(dbPath)] *)
Definition Install (i : boltSnapshotInstaller) (f : FSM) : FSM * option error :=
  match installErr i with
  | Some err => (f, Some err)
  | None =>
      (set_db f {| closed := closed (db f); data := snapshot_data i;
                   config := snapshot_config i |}, None)
  end.

Definition append_err (retErr : list error) (r : FSM * option error)
           (before : string) : FSM * list error :=
  match r with
  | (f, Some err) => (f, retErr ++ [fmt_Errorf_w before err ""])
  | (f, None) => (f, retErr)
  end.

(** Restore installs a new snapshot from the provided reader.  The
    result is the returned error: [[]] is [nil], an error returned at
    once is a list of one, and the multierror returned at the end is
    the list of the errors appended to it. *)
Definition Restore (io : RestoreIO) (f : FSM) (r : ReadCloser)
  : FSM * list error :=
  if noopRestore f then (f, [])
  else
    let asserted : boltSnapshotInstaller + error :=
      match r with
      | SnapshotInstaller i => inl i
      | ReadCloserWrapper (SnapshotInstaller i) => inl i
      | ReadCloserWrapper (ReadCloserWrapper _) =>
          inr (errors_New "expected snapshot installer object, got: raft.ReadCloserWrapper")
      | ReadCloserWrapper (OtherReadCloser t) =>
          inr (errors_New ("expected snapshot installer object, got: " ++ t))
      | OtherReadCloser t =>
          inr (errors_New ("expected ReadCloserWrapper object, got: " ++ t))
      end in
    match asserted with
    | inr err => (f, [err])
    | inl snapshotInstaller =>
        (* Cache the local node config before closing the db file *)
        match localNodeConfig f with
        | (f, _, Some err) => (f, [err])
        | (f, lnConfig, None) =>
            (* Close the db file *)
            match closeErr io with
            | Some err => (f, [err])
            | None =>
                let f := set_db f {| closed := true; data := data (db f);
                                     config := config (db f) |} in
                (* Install the new boltdb file *)
                let '(f, retErr) :=
                  append_err [] (Install snapshotInstaller f)
                             "failed to install snapshot database: " in
                (* Open the db file, whether the install worked or not *)
                let '(f, retErr) :=
                  append_err retErr (openDBFile io f)
                             "failed to open new bolt file: " in
                (* Handle local node config restore. *)
                match lnConfig with
                | Some lnConfig =>
                    append_err retErr (persistDesiredSuffrage f lnConfig)
                      "failed to persist local node config from before the restore: "
                | None => (f, retErr)
                end
            end
        end
    end.

End Restore.

(** *** The FSM as a physical backend *)

(** [physical.Entry], with the fields the FSM reads and writes. *)
Module Entry.
Record t := mk { Key : string; Value : bytes }.
End Entry.

(** LatestState returns the latest index and configuration values we have
    seen on this FSM. *)
Definition LatestState (f : FSM) : IndexValue * option ConfigurationValue :=
  ({| Term := latestTerm f; Index := latestIndex f |}, latestConfig f).

(** Delete deletes the given key from the bolt file. *)
Definition Delete (f : FSM) (path : string) : FSM * option error :=
  if closed (db f) then (f, Some ErrDatabaseNotOpen)
  else
    match bolt.Delete (data (db f)) path with
    | inr err => (f, Some err)
    | inl b =>
        (set_db f {| closed := false; data := b; config := config (db f) |},
         None)
    end.

(** Get retrieves the value at the given path from the bolt file. *)
Definition Get (f : FSM) (path : string) : option Entry.t * option error :=
  if closed (db f) then (None, Some ErrDatabaseNotOpen)
  else
    match bolt.Get (data (db f)) path with
    | None => (None, None)
    | Some value => (Some (Entry.mk path value), None)
    end.

(** Put writes the given entry to the bolt file. *)
Definition Put (f : FSM) (entry : Entry.t) : FSM * option error :=
  if closed (db f) then (f, Some ErrDatabaseNotOpen)
  else
    match bolt.Put (data (db f)) (Entry.Key entry) (Entry.Value entry) with
    | inr err => (f, Some err)
    | inl b =>
        (set_db f {| closed := false; data := b; config := config (db f) |},
         None)
    end.

(** *** Snapshot metadata and the upgrade of the node-local configuration *)

(** [raft.SnapshotMeta], with the fields the FSM reads. *)
Record SnapshotMeta := {
  Meta_Index : N;
  Meta_Term : N;
  Meta_Configuration : list Server;
  Meta_ConfigurationIndex : N
}.

(** [raft.Nonvoter], the second of the suffrages of the Raft library. *)
Definition Nonvoter : Z := 1.

Section Snapshot.

Context {codec : Codec}.

(** [writeSnapshotMetaToDB]: one write transaction puts the configuration
    and the index of the snapshot into the config bucket; an error rolls
    the transaction back. *)
Definition writeSnapshotMetaToDB (metadata : SnapshotMeta) (d : DB)
  : DB * option error :=
  let latestIndex := {| Term := Meta_Term metadata;
                        Index := Meta_Index metadata |} in
  match Marshal_IndexValue latestIndex with
  | inr err => (d, Some err)
  | inl indexBytes =>
      let protoConfig :=
        raftConfigurationToProtoConfiguration
          (Meta_ConfigurationIndex metadata) (Meta_Configuration metadata) in
      match Marshal_ConfigurationValue protoConfig with
      | inr err => (d, Some err)
      | inl configBytes =>
          if closed d then (d, Some ErrDatabaseNotOpen)
          else
            match bolt.Put (config d) latestConfigKey configBytes with
            | inr err => (d, Some err)
            | inl b =>
                match bolt.Put b latestIndexKey indexBytes with
                | inr err => (d, Some err)
                | inl b =>
                    ({| closed := false; data := data d; config := b |},
                     None)
                end
            end
      end
  end.

Definition witnessSnapshot (f : FSM) (metadata : SnapshotMeta)
  : FSM * option error :=
  match writeSnapshotMetaToDB metadata (db f) with
  | (_, Some err) => (f, Some err)
  | (d, None) =>
      (set_latest (set_db f d) (Meta_Index metadata) (Meta_Term metadata)
         (Some (raftConfigurationToProtoConfiguration
                  (Meta_ConfigurationIndex metadata)
                  (Meta_Configuration metadata))),
       None)
  end.

(** [upgradeLocalNodeConfig]: the desired suffrage is the one of the
    stored entry; without an entry it is taken from the latest
    configuration (the first server with the local ID decides), or is
    a voter's when there is no configuration, and is persisted. *)
Definition upgradeLocalNodeConfig (f : FSM) : FSM * option error :=
  (* Read the local node config *)
  match localNodeConfig f with
  | (f, _, Some err) => (f, Some err)
  | (f, Some lnConfig, None) =>
      (* Entry is already present. Get the suffrage value. *)
      (set_desiredSuffrage f (DesiredSuffrage lnConfig), None)
  | (f, None, None) =>
      (* This is the upgrade case where there is no entry *)
      match latestConfig f with
      | None =>
          let f := set_desiredSuffrage f "voter" in
          persistDesiredSuffrage f {| DesiredSuffrage := desiredSuffrage f |}
      | Some config =>
          match find (fun srv => (Id srv =? localID f)%string)
                     (Servers config) with
          | Some srv =>
              let suffrage :=
                if (Suffrage srv =? Nonvoter)%Z then "non-voter" else "voter" in
              (* Bring the intent to the fsm instance. *)
              persistDesiredSuffrage (set_desiredSuffrage f suffrage)
                                     {| DesiredSuffrage := suffrage |}
          | None => persistDesiredSuffrage f {| DesiredSuffrage := "" |}
          end
      end
  end.

(** NewFSM constructs a FSM using the given directory, whose database
    file holds [file]. *)
Definition NewFSM (io : RestoreIO) (file : DB) (localID : string)
  : option FSM * option error :=
  let f := {| latestIndex := 0; latestTerm := 0; latestConfig := None;
              noopRestore := false;
              db := {| closed := true; data := data file;
                       config := config file |};
              restoreCb := false; restoreCbStarted := 0;
              localID := localID;
              (* Assume that the default intent is to join as as voter. *)
              desiredSuffrage := "voter"; unknownOpTypes := [];
              fastTxnTracker := [] |} in
  match openDBFile io f with
  | (_, Some err) =>
      (None, Some (fmt_Errorf_w "failed to open bolt file: " err ""))
  | (f, None) => (Some f, None)
  end.

End Snapshot.

End raft.

(** ** http/handler.go: requests on a standby *)

Module http.

Import strings.

Definition NoRequestForwardingHeaderName := "X-Vault-No-Request-Forwarding".
Definition IntNoForwardingHeaderName := "X-Vault-Internal-No-Request-Forwarding".

Definition StatusTemporaryRedirect : Z := 307.
Definition StatusInternalServerError : Z := 500.
Definition StatusServiceUnavailable : Z := 503.

(** [url.URL], with the fields the handler uses. *)
Record URL := {
  Scheme : string;
  Host : string;
  Path : string;
  RawQuery : string
}.

(** [http.Header]: canonical names with their values. *)
Definition Header := list (string * list string).

(** [h.Get(name)]: the first value of the header, or the empty string. *)
Fixpoint Header_Get (h : Header) (name : string) : string :=
  match h with
  | [] => ""
  | (k, v) :: rest =>
      if (k =? name)%string then hd "" v else Header_Get rest name
  end.

(** [h[name] = values], which is also [h.Set(name, value)] for one value. *)
Fixpoint Header_Put (h : Header) (name : string) (values : list string) : Header :=
  match h with
  | [] => [(name, values)]
  | (k, v) :: rest =>
      if (k =? name)%string then (name, values) :: rest
      else (k, v) :: Header_Put rest name values
  end.

Record Request := {
  Request_Header : Header;
  Request_URL : URL
}.

(** What was written to an [http.ResponseWriter]. *)
Record ResponseWriter := {
  Response_Header : Header;
  StatusCode : option Z;
  Body : bytes
}.

Definition WriteHeader (w : ResponseWriter) (statusCode : Z) : ResponseWriter :=
  {| Response_Header := Response_Header w; StatusCode := Some statusCode;
     Body := Body w |}.

Definition Write (w : ResponseWriter) (b : bytes) : ResponseWriter :=
  {| Response_Header := Response_Header w; StatusCode := StatusCode w;
     Body := (Body w ++ b)%string |}.

Definition SetHeader (w : ResponseWriter) (name : string) (values : list string)
  : ResponseWriter :=
  {| Response_Header := Header_Put (Response_Header w) name values;
     StatusCode := StatusCode w; Body := Body w |}.

(** Modelled from the spec: [logical.RespondError] of the sdk is not among
    the sources; the response has the given status code and carries the
    text of the error in a JSON body. *)
Definition respondError (w : ResponseWriter) (status : Z) (err : error)
  : ResponseWriter :=
  Write (WriteHeader (SetHeader w "Content-Type" ["application/json"]) status)
        (Error err).

(** What the handler asks of its surroundings: the parser and printer of
    URLs of the Go library and the table of the paths that are always
    redirected. *)
Class Env := {
  url_Parse : string -> URL + error;
  URL_String : URL -> string;
  alwaysRedirectPaths_HasPath : string -> bool
}.

(** The core as the handler sees it: what [core.Leader()] returns, and
    what [core.ForwardRequest] answers. *)
Record Core := {
  Leader : bool * string * string * option error;
  ForwardRequest : Request -> Z * Header * bytes * option error
}.

Section Standby.

Context {env : Env}.

(** respondStandby is used to trigger a redirect in the case that this
    Vault is currently a hot standby *)
Definition respondStandby (core : Core) (w : ResponseWriter) (reqURL : URL)
  : ResponseWriter :=
  (* Request the leader address *)
  let '(_, redirectAddr, _, err) := Leader core in
  match err with
  | Some ErrHANotEnabled =>
      (* Standalone node, serve 503 *)
      respondError w StatusServiceUnavailable (errors_New "node is not active")
  | Some err => respondError w StatusInternalServerError err
  | None =>
      (* If there is no leader, generate a 503 error *)
      if (redirectAddr =? "")%string then
        respondError w StatusServiceUnavailable
                     (errors_New "no active Vault instance found")
      else
        (* Parse the redirect location *)
        match url_Parse redirectAddr with
        | inr err => respondError w StatusInternalServerError err
        | inl redirectURL =>
            (* Generate a redirect URL *)
            let finalURL := {| Scheme := Scheme redirectURL;
                               Host := Host redirectURL;
                               Path := Path reqURL;
                               RawQuery := RawQuery reqURL |} in
            (* Ensure there is a scheme, default to https *)
            let finalURL :=
              if (Scheme finalURL =? "")%string
              then {| Scheme := "https"; Host := Host finalURL;
                      Path := Path finalURL; RawQuery := RawQuery finalURL |}
              else finalURL in
            WriteHeader (SetHeader w "Location" [URL_String finalURL]) 307
        end
  end.

(** The response of [forwardRequest], and whether the request was handed
    to [core.ForwardRequest]. *)
Definition forwardRequest (core : Core) (w : ResponseWriter) (r : Request)
  : outcome (ResponseWriter * bool) :=
  if negb (Header_Get (Request_Header r) IntNoForwardingHeaderName =? "")%string
  then Returned (respondStandby core w (Request_URL r), false)
  else if negb (Header_Get (Request_Header r) NoRequestForwardingHeaderName =? "")%string
  then
    (* Forwarding explicitly disabled, fall back to previous behavior *)
    Returned (respondStandby core w (Request_URL r), false)
  else if (String.length (Path (Request_URL r)) <? String.length "/v1/")%nat
  then Panic "slice bounds out of range"
  else if alwaysRedirectPaths_HasPath
            (slice_from (String.length "/v1/") (Path (Request_URL r)))
  then Returned (respondStandby core w (Request_URL r), false)
  else
    (* Attempt forwarding the request. *)
    let '(statusCode, header, retBytes, err) := ForwardRequest core r in
    match err with
    | Some _ =>
        (* Fall back to redirection *)
        Returned (respondStandby core w (Request_URL r), true)
    | None =>
        let w := fold_left (fun w kv => SetHeader w (fst kv) (snd kv)) header w in
        Returned (Write (WriteHeader w statusCode) retBytes, true)
    end.

(** handleRequestForwarding determines whether to forward a request or
    not, falling back on the older behavior of redirecting the client.
    The second component tells whether the request was handed to
    [core.ForwardRequest]. *)
Definition handleRequestForwarding (core : Core)
           (handler : ResponseWriter -> Request -> ResponseWriter)
           (w : ResponseWriter) (r : Request) : outcome (ResponseWriter * bool) :=
  let '(isLeader, leaderAddr, _, err) := Leader core in
  match err with
  | Some ErrHANotEnabled =>
      (* Standalone node, serve request normally *)
      Returned (handler w r, false)
  | Some err =>
      (* Some internal error occurred *)
      Returned (respondError w StatusInternalServerError err, false)
  | None =>
      if isLeader then
        (* No forwarding needed, we're leader *)
        Returned (handler w r, false)
      else if (leaderAddr =? "")%string then
        Returned (respondError w StatusInternalServerError
                    (errors_New "local node not active but active cluster node not found"),
                  false)
      else forwardRequest core w r
  end.

End Standby.

(** *** Helpers of the handlers *)

(** stripPrefix is a helper to strip a prefix from the path.  It will
    return false from the second return value if it the prefix doesn't
    exist. *)
Definition stripPrefix (prefix path : string) : string * bool :=
  if negb (HasPrefix path prefix) then ("", false)
  else
    let path := slice_from (String.length prefix) path in
    if (path =? "")%string then ("", false) else (path, true).

(** The loop of [isForm] over the start of the body: insignificant
    whitespace is skipped, [[] or [{] is the start of JSON, anything else is
    not, and so is a start that ends before it. *)
Fixpoint isFormHead (head : bytes) : bool :=
  match head with
  | EmptyString => true
  | String c rest =>
      if Ascii.eqb c " " || Ascii.eqb c "009" || Ascii.eqb c "010"
         || Ascii.eqb c "013"
      then isFormHead rest
      else if Ascii.eqb c "[" || Ascii.eqb c "{" then false (* JSON *)
      else true (* not JSON *)
  end.

Section Form.

(** [mime.ParseMediaType] of the Go library: the media type of a content
    type, without its parameters, or an error. *)
Variable mime_ParseMediaType : string -> string + error.

(** isForm tries to determine whether the request should be processed as
    a form or as JSON. *)
Definition isForm (head : bytes) (contentType : string) : bool :=
  match mime_ParseMediaType contentType with
  | inr _ => false
  | inl contentType =>
      if negb (contentType =? "application/x-www-form-urlencoded")%string
      then false
      else isFormHead head
  end.

End Form.

(** [h[name]]: the values of a header, when the header is there. *)
Fixpoint Header_Values (h : Header) (name : string) : option (list string) :=
  match h with
  | [] => None
  | (k, v) :: rest =>
      if (k =? name)%string then Some v else Header_Values rest name
  end.

(** [h.Del(name)] *)
Definition Header_Del (h : Header) (name : string) : Header :=
  filter (fun kv => negb (fst kv =? name)%string) h.

Definition MFAHeaderName := "X-Vault-MFA".
Definition canonicalMFAHeaderName := "X-Vault-Mfa".

(** [%q] of a string without characters to escape. *)
Definition quoted (s : string) : string :=
  String "034" (s ++ String "034" EmptyString).

(** The fields of [logical.Request] that the handlers set. *)
Inductive ClientTokenSource :=
| NoClientToken
| ClientTokenFromVaultHeader
| ClientTokenFromAuthzHeader.

Record LogicalRequest := {
  ClientToken : string;
  ClientTokenSource_ : ClientTokenSource;
  Headers : option Header;
  MFACreds : Header
}.

(** The loop of [parseMFAHeader] over the values of the MFA header;
    [creds] is [req.MFACreds], a map from method names to their values.
    A value that holds a colon is split in two at the first one.  An error
    ends the loop with the credentials gathered so far. *)
Fixpoint parseMFAHeaderValues (values : list string) (creds : Header)
  : Header * option error :=
  match values with
  | [] => (creds, None)
  | mfaHeaderValue :: rest =>
      (* Skip the header with no value in it *)
      if (mfaHeaderValue =? "")%string then parseMFAHeaderValues rest creds
      else if negb (Contains mfaHeaderValue ":") then
        (* Mark the presence of method name, but set an empty set to it *)
        match Header_Values creds mfaHeaderValue with
        | None => parseMFAHeaderValues rest (Header_Put creds mfaHeaderValue [])
        | Some _ => parseMFAHeaderValues rest creds
        end
      else
        let shardSplits := SplitN2 mfaHeaderValue ":" in
        let name := nth 0 shardSplits "" in
        let value := nth 1 shardSplits "" in
        if (name =? "")%string then
          (creds,
           Some (errors_New ("invalid data in header " ++ quoted MFAHeaderName
                             ++ "; missing method name or ID")))
        else if (value =? "")%string then
          (creds,
           Some (errors_New ("invalid data in header " ++ quoted MFAHeaderName
                             ++ "; missing method value")))
        else
          let before := match Header_Values creds name with
                        | Some values => values
                        | None => []
                        end in
          parseMFAHeaderValues rest (Header_Put creds name (before ++ [value]))
  end.

(** parseMFAHeader parses the MFAHeaderName in the request headers and
    organizes them with MFA method name as the index.  [None] is a
    request that is [nil]. *)
Definition parseMFAHeader (req : option LogicalRequest)
  : option LogicalRequest * option error :=
  match req with
  | None => (None, Some (errors_New "request is nil"))
  | Some req =>
      match Headers req with
      | None => (Some req, None)
      | Some headers =>
          (* Reset and initialize the credentials in the request *)
          let values := match Header_Values headers canonicalMFAHeaderName with
                        | Some values => values
                        | None => []
                        end in
          let '(creds, err) := parseMFAHeaderValues values [] in
          (Some {| ClientToken := ClientToken req;
                   ClientTokenSource_ := ClientTokenSource_ req;
                   Headers := Headers req; MFACreds := creds |}, err)
      end
  end.

(** [consts.AuthHeaderName] *)
Definition AuthHeaderName := "X-Vault-Token".

Section Token.

(** [strings.TrimSpace] of the Go library. *)
Variable TrimSpace : string -> string.

(** The loop of [getTokenFromReq] over the values of the Authorization
    header: the first value that starts with [Bearer ] is used. *)
Fixpoint bearerToken (headers : list string) : string * bool :=
  match headers with
  | [] => ("", false)
  | v :: rest =>
      (* If string does not start by 'Bearer ', it is not one we would
         use, but might be used by plugins *)
      if negb (HasPrefix v "Bearer ") then bearerToken rest
      else (TrimSpace (slice_from 7 v), true)
  end.

(** getTokenFromReq parse headers of the incoming request to extract
    token if present it accepts Authorization Bearer (RFC6750) and
    X-Vault-Token header.  Returns true if the token was sourced from a
    Bearer header. *)
Definition getTokenFromReq (r : Request) : string * bool :=
  let token := Header_Get (Request_Header r) AuthHeaderName in
  if negb (token =? "")%string then (token, false)
  else
    match Header_Values (Request_Header r) "Authorization" with
    | Some headers => bearerToken headers
    | None => ("", false)
    end.

(** requestAuth adds the token to the logical.Request if it exists. *)
Definition requestAuth (r : Request) (req : LogicalRequest) : LogicalRequest :=
  (* Attach the header value if we have it *)
  let '(token, fromAuthzHeader) := getTokenFromReq r in
  if negb (token =? "")%string then
    {| ClientToken := token;
       ClientTokenSource_ := if fromAuthzHeader
                             then ClientTokenFromAuthzHeader
                             else ClientTokenFromVaultHeader;
       Headers := Headers req; MFACreds := MFACreds req |}
  else req.

End Token.

(** *** The X-Forwarded-For header *)

(** [strings.Split(s, ",")] *)
Fixpoint Split_comma (s : string) : list string :=
  match s with
  | EmptyString => [EmptyString]
  | String a s' =>
      if Ascii.eqb a "," then EmptyString :: Split_comma s'
      else match Split_comma s' with
           | [] => [String a EmptyString]
           | x :: xs => String a x :: xs
           end
  end.

(** Arithmetic on [int64] wraps around. *)
Definition int64 (z : Z) : Z := ((z + 2 ^ 63) mod 2 ^ 64 - 2 ^ 63)%Z.

(** The settings of a listener for the header; the hops to skip are an
    [int64]. *)
Record Listener := {
  XForwardedForRejectNotPresent : bool;
  XForwardedForHopSkips : Z;
  XForwardedForAuthorizedAddrs : list string;
  XForwardedForRejectNotAuthorized : bool
}.

(** What the wrapped handler does with a request: it hands it on, with a
    remote address and headers, or answers at once. *)
Inductive forwarded :=
| ServeHTTP (remoteAddr : string) (header : Header)
| BadRequest (err : error).

Section ForwardedFor.

(** The network helpers: [net.SplitHostPort], [net.JoinHostPort],
    [sockaddr.NewIPAddr] and whether an authorized address contains an
    address, and [strings.TrimSpace]. *)
Variable SplitHostPort : string -> (string * string) + error.
Variable JoinHostPort : string -> string -> string.
Variable NewIPAddr : string -> string + error.
Variable AddrContains : string -> string -> bool.
Variable TrimSpace : string -> string.

Definition XForwardedFor := "X-Forwarded-For".

(** The values of the header, the comma separated ones split. *)
Definition forwardedChain (headers : list string) : list string :=
  flat_map (fun header => map TrimSpace (Split_comma header)) headers.

Definition WrapForwardedForHandler (l : Listener) (remoteAddr : string)
           (header : Header) : outcome forwarded :=
  let rejectNotPresent := XForwardedForRejectNotPresent l in
  let hopSkips := XForwardedForHopSkips l in
  let authorizedAddrs := XForwardedForAuthorizedAddrs l in
  let rejectNotAuthz := XForwardedForRejectNotAuthorized l in
  let headers := match Header_Values header XForwardedFor with
                 | Some headers => headers
                 | None => []
                 end in
  if (length headers =? 0)%nat then
    if negb rejectNotPresent then Returned (ServeHTTP remoteAddr header)
    else Returned (BadRequest (errors_New
           "missing x-forwarded-for header and configured to reject when not present"))
  else
    match SplitHostPort remoteAddr with
    | inr err =>
        (* If not rejecting treat it like we just don't have a valid
           header because we can't do a comparison against an address
           we can't understand *)
        if negb rejectNotPresent then Returned (ServeHTTP remoteAddr header)
        else Returned (BadRequest
               (fmt_Errorf_w "error parsing client hostport: " err ""))
    | inl (host, port) =>
        match NewIPAddr host with
        | inr err =>
            (* We treat this the same as the case above *)
            if negb rejectNotPresent then Returned (ServeHTTP remoteAddr header)
            else Returned (BadRequest
                   (fmt_Errorf_w "error parsing client address: " err ""))
        | inl addr =>
            let found := existsb (fun authz => AddrContains authz addr)
                                 authorizedAddrs in
            if negb found then
              (* If we didn't find it and aren't configured to reject,
                 simply don't trust it *)
              if negb rejectNotAuthz then
                (* Now serve the request, having rejected the header. *)
                Returned (ServeHTTP remoteAddr (Header_Del header XForwardedFor))
              else Returned (BadRequest (errors_New
                     "client address not authorized for x-forwarded-for and configured to reject connection"))
            else
              (* At this point we have at least one value and it's
                 authorized *)
              let acc := forwardedChain headers in
              let indexToUse := int64 (Z.of_nat (length acc) - 1 - hopSkips) in
              if (indexToUse <? 0)%Z then
                Returned (BadRequest (errors_New
                  ("malformed x-forwarded-for configuration or request, hops to skip ("
                   ++ (if (hopSkips <? 0)%Z then "-" else "")
                   ++ NilZero.string_of_uint (N.to_uint (Z.abs_N hopSkips))
                   ++ ") would skip before earliest chain link (chain length "
                   ++ NilZero.string_of_uint (N.to_uint (N.of_nat (length headers)))
                   ++ ")")))
              else
                match nth_error acc (Z.to_nat indexToUse) with
                | None => Panic "index out of range"
                | Some client =>
                    Returned (ServeHTTP (JoinHostPort client port) header)
                end
        end
    end.

End ForwardedFor.

End http.

(** ** vault/init.go: initialization of the core *)

Module vault.

Inductive StoredKeysSupport :=
| StoredKeysNotSupported
| StoredKeysSupportedGeneric
| StoredKeysSupportedShamirRoot.

Inductive WrapperType :=
| WrapperTypeShamir
| WrapperTypeOther (name : string).

Module SealConfig.
Record t := mk {
  SecretShares : Z;
  SecretThreshold : Z;
  StoredShares : Z;
  PGPKeys : list string
}.
End SealConfig.

(** InitParams keeps the init function from being littered with too many
    params, that's it! *)
Record InitParams := {
  BarrierConfig : SealConfig.t;
  RecoveryConfig : option SealConfig.t;
  RootTokenPGPKey : string
}.

(** InitResult is used to provide the key parts back after they are
    generated as part of the initialization. *)
Record InitResult := {
  SecretShares : list bytes;
  RecoveryShares : list bytes;
  RootToken : string
}.

(** The parts of the core and of its collaborators that initialization
    changes: the locks, the Raft cluster, the state of the barrier, the
    state of the core and what the seal stores. *)
Record Core := {
  initInProgress : bool;
  stateLock : bool;
  initLock : bool;
  raftCluster : bool;
  barrierInitialized : bool;
  barrierSealed : bool;
  sealed : bool;
  active : bool;
  sealBarrierConfig : option SealConfig.t;
  sealRecoveryConfig : option SealConfig.t;
  sealRecoveryKey : option bytes;
  storedKeys : list bytes;
  notifiedInitialized : bool
}.

(** The answers of the collaborators of the core: the seal, the barrier,
    the Raft and HA backends, the token store and the helper libraries.
    A call made at several places has one answer per place. *)
Record Env := {
  StoredKeysSupported : StoredKeysSupport;
  RecoveryKeySupported : bool;
  BarrierType : WrapperType;
  Validate : SealConfig.t -> option error;
  ValidateRecovery : SealConfig.t -> option error;
  (* c.barrier.Initialized and c.seal.BarrierConfig, at the first and at
     the second check *)
  barrier_Initialized : nat -> bool * option error;
  seal_BarrierConfig : nat -> option SealConfig.t * option error;
  isRaftUnseal : bool;
  raftBackend : bool;
  raftBackend_Initialized : bool;
  RaftBootstrap : option error;
  TeardownCluster : option error;
  ha : bool;
  GenerateUUID : option error;
  LockWith : option error;
  lock_Lock : option error;
  lock_Unlock : option error;
  seal_Init : option error;
  (* c.barrier.GenerateKey, for the barrier, seal and recovery keys *)
  barrier_GenerateKey : nat -> bytes + error;
  shamir_Split : bytes -> Z -> Z -> list bytes + error;
  hex_EncodeToString : bytes -> bytes;
  pgpkeys_EncryptShares : list bytes -> list string -> list bytes + error;
  base64_EncodeToString : bytes -> string;
  barrier_Initialize_err : option error;
  barrier_Unseal_err : option error;
  seal_SetBarrierConfig : option error;
  seal_GetShamirWrapper : option error;
  SetAesGcmKeyBytes : option error;
  seal_SetStoredKeys : option error;
  setupCluster : option error;
  postUnseal : option error;
  seal_SetRecoveryConfig : option error;
  seal_SetRecoveryKey : option error;
  rootToken : string + error;
  raftCreateTLSKeyring : option error;
  preSeal : option error;
  serviceRegistration : bool;
  (* Initialize and UnsealWithStoredKeys *)
  seal_RecoveryConfig : SealConfig.t + error;
  inSealMigration : bool;
  seal_GetStoredKeys : list bytes + error;
  (* c.unsealInternal: its error, and whether the key unsealed the core *)
  unsealInternal_result : bytes -> option error * bool
}.

Definition set_initInProgress (c : Core) (v : bool) : Core :=
  {| initInProgress := v; stateLock := stateLock c; initLock := initLock c;
     raftCluster := raftCluster c; barrierInitialized := barrierInitialized c;
     barrierSealed := barrierSealed c; sealed := sealed c; active := active c;
     sealBarrierConfig := sealBarrierConfig c; sealRecoveryConfig := sealRecoveryConfig c;
     sealRecoveryKey := sealRecoveryKey c; storedKeys := storedKeys c;
     notifiedInitialized := notifiedInitialized c |}.

Definition set_locks (c : Core) (state init : bool) : Core :=
  {| initInProgress := initInProgress c; stateLock := state; initLock := init;
     raftCluster := raftCluster c; barrierInitialized := barrierInitialized c;
     barrierSealed := barrierSealed c; sealed := sealed c; active := active c;
     sealBarrierConfig := sealBarrierConfig c; sealRecoveryConfig := sealRecoveryConfig c;
     sealRecoveryKey := sealRecoveryKey c; storedKeys := storedKeys c;
     notifiedInitialized := notifiedInitialized c |}.

Definition set_raftCluster (c : Core) (v : bool) : Core :=
  {| initInProgress := initInProgress c; stateLock := stateLock c;
     initLock := initLock c;
     raftCluster := v; barrierInitialized := barrierInitialized c;
     barrierSealed := barrierSealed c; sealed := sealed c; active := active c;
     sealBarrierConfig := sealBarrierConfig c; sealRecoveryConfig := sealRecoveryConfig c;
     sealRecoveryKey := sealRecoveryKey c; storedKeys := storedKeys c;
     notifiedInitialized := notifiedInitialized c |}.

Definition set_barrier (c : Core) (initialized sealed_ : bool) : Core :=
  {| initInProgress := initInProgress c; stateLock := stateLock c;
     initLock := initLock c;
     raftCluster := raftCluster c; barrierInitialized := initialized;
     barrierSealed := sealed_; sealed := sealed c; active := active c;
     sealBarrierConfig := sealBarrierConfig c; sealRecoveryConfig := sealRecoveryConfig c;
     sealRecoveryKey := sealRecoveryKey c; storedKeys := storedKeys c;
     notifiedInitialized := notifiedInitialized c |}.

Definition set_core (c : Core) (sealed_ active_ : bool) : Core :=
  {| initInProgress := initInProgress c; stateLock := stateLock c;
     initLock := initLock c;
     raftCluster := raftCluster c; barrierInitialized := barrierInitialized c;
     barrierSealed := barrierSealed c; sealed := sealed_; active := active_;
     sealBarrierConfig := sealBarrierConfig c; sealRecoveryConfig := sealRecoveryConfig c;
     sealRecoveryKey := sealRecoveryKey c; storedKeys := storedKeys c;
     notifiedInitialized := notifiedInitialized c |}.

Definition set_stored (c : Core) (bc rc : option SealConfig.t)
           (rk : option bytes) (keys : list bytes) (notified : bool) : Core :=
  {| initInProgress := initInProgress c; stateLock := stateLock c;
     initLock := initLock c;
     raftCluster := raftCluster c; barrierInitialized := barrierInitialized c;
     barrierSealed := barrierSealed c; sealed := sealed c; active := active c;
     sealBarrierConfig := bc; sealRecoveryConfig := rc;
     sealRecoveryKey := rk; storedKeys := keys;
     notifiedInitialized := notified |}.

Section Init.

Variable env : Env.

(** Modelled from the spec: the security barrier is not among the
    sources.  [c.barrier.Initialize] leaves the barrier initialized unless
    it fails. *)
Definition barrier_Initialize (c : Core) : Core * option error :=
  match barrier_Initialize_err env with
  | Some err => (c, Some err)
  | None => (set_barrier c true (barrierSealed c), None)
  end.

(** Modelled from the spec: [c.barrier.Unseal] leaves the barrier unsealed
    unless it fails. *)
Definition barrier_Unseal (c : Core) : Core * option error :=
  match barrier_Unseal_err env with
  | Some err => (c, Some err)
  | None => (set_barrier c (barrierInitialized c) false, None)
  end.

(** Modelled from the spec: [c.barrier.Seal] leaves the barrier sealed; it
    reports no error. *)
Definition barrier_Seal (c : Core) : Core * option error :=
  (set_barrier c (barrierInitialized c) true, None).

(** Modelled from the spec: [c.unsealInternal] is not among the sources.
    It fails, or the key unseals the barrier and the core, or the key is
    not enough and the core stays sealed. *)
Definition unsealInternal (c : Core) (key : bytes) : Core * option error :=
  match unsealInternal_result env key with
  | (Some err, _) => (c, Some err)
  | (None, true) =>
      (set_core (set_barrier c (barrierInitialized c) false) false (active c),
       None)
  | (None, false) => (c, None)
  end.

(** InitializedLocally checks if the Vault is already initialized from
    the local node's perspective; [n] tells the first check from the
    second. *)
Definition InitializedLocally (n : nat) : bool * option error :=
  match barrier_Initialized env n with
  | (_, Some err) => (false, Some err)
  | (false, None) => (false, None)
  | (true, None) =>
      (* Verify the seal configuration *)
      match seal_BarrierConfig env n with
      | (_, Some err) => (false, Some err)
      | (None, None) =>
          (false, Some (errors_New
             "core: barrier reports initialized but no seal configuration found"))
      | (Some _, None) => (true, None)
      end
  end.

(** Initialized checks if the Vault is already initialized. *)
Definition Initialized (n : nat) : bool * option error :=
  match InitializedLocally n with
  | (init, Some err) => (init, Some err)
  | (true, None) => (true, None)
  | (false, None) =>
      if isRaftUnseal env then (true, None)
      else if raftBackend env && raftBackend_Initialized env then (true, None)
      else (false, None)
  end.

(** [n] numbers the calls: the barrier key, the seal key and the
    recovery key. *)
Definition generateShares (sc : SealConfig.t) (n : nat)
  : (bytes * list bytes) + error :=
  (* Generate a root key *)
  match barrier_GenerateKey env n with
  | inr err => inr (fmt_Errorf_w "key generation failed: " err "")
  | inl rootKey =>
      (* Return the root key if only a single key part is used *)
      let split : list bytes + error :=
        if (SealConfig.SecretShares sc =? 1)%Z then inl [rootKey]
        else
          match shamir_Split env rootKey (SealConfig.SecretShares sc)
                             (SealConfig.SecretThreshold sc) with
          | inr err =>
              inr (fmt_Errorf_w "failed to generate barrier shares: " err "")
          | inl shares => inl shares
          end in
      match split with
      | inr err => inr err
      | inl unsealKeys =>
          (* If we have PGP keys, perform the encryption *)
          if (0 <? length (SealConfig.PGPKeys sc))%nat then
            let hexEncodedShares := map (hex_EncodeToString env) unsealKeys in
            match pgpkeys_EncryptShares env hexEncodedShares
                                        (SealConfig.PGPKeys sc) with
            | inr err => inr err
            | inl encryptedShares => inl (rootKey, encryptedShares)
            end
          else inl (rootKey, unsealKeys)
      end
  end.

Definition result : Type := Core * (InitResult + error).

(** From the unsealed barrier to the [return results, nil] of
    [initializeInternal].  [recoverySupported] is the recovery
    configuration when [c.seal.RecoveryKeySupported()], which was
    checked not to be [nil] at the start, and [None] otherwise. *)
Definition initializeUnsealed (c : Core) (initParams : InitParams)
           (barrierConfig : SealConfig.t)
           (recoverySupported : option SealConfig.t)
           (barrierKey sealKey : bytes)
           (barrierKeyShares sealKeyShares : list bytes) : result :=
  match seal_SetBarrierConfig env with
  | Some err =>
      (c, inr (fmt_Errorf_w "barrier configuration saving failed: " err ""))
  | None =>
      let c := set_stored c (Some barrierConfig) (sealRecoveryConfig c)
                          (sealRecoveryKey c) (storedKeys c)
                          (notifiedInitialized c) in
      (* If we are storing shares, pop them out of the returned results
         and push them through the seal *)
      let stored : Core * (list bytes + error) :=
        match StoredKeysSupported env with
        | StoredKeysSupportedShamirRoot =>
            match seal_GetShamirWrapper env with
            | Some err => (c, inr err)
            | None =>
                match SetAesGcmKeyBytes env with
                | Some err =>
                    (c, inr (fmt_Errorf_w "failed to set seal key: " err ""))
                | None =>
                    match seal_SetStoredKeys env with
                    | Some err =>
                        (c, inr (fmt_Errorf_w "failed to store keys: " err ""))
                    | None =>
                        (set_stored c (sealBarrierConfig c) (sealRecoveryConfig c)
                                    (sealRecoveryKey c) [barrierKey]
                                    (notifiedInitialized c),
                         inl sealKeyShares)
                    end
                end
            end
        | StoredKeysSupportedGeneric =>
            match seal_SetStoredKeys env with
            | Some err =>
                (c, inr (fmt_Errorf_w "failed to store keys: " err ""))
            | None =>
                (set_stored c (sealBarrierConfig c) (sealRecoveryConfig c)
                            (sealRecoveryKey c) [barrierKey]
                            (notifiedInitialized c),
                 inl [])
            end
        | StoredKeysNotSupported => (c, inl barrierKeyShares)
        end in
      match stored with
      | (c, inr err) => (c, inr err)
      | (c, inl secretShares) =>
          (* Perform initial setup *)
          match setupCluster env with
          | Some err => (c, inr err)
          | None =>
              match postUnseal env with
              | Some err => (c, inr err)
              | None =>
                  let c := set_core c (sealed c) true in
                  (* Save the configuration regardless, but only
                     generate a key if it's not disabled. *)
                  let recovery : Core * (list bytes + error) :=
                    match recoverySupported with
                    | Some rc =>
                        match seal_SetRecoveryConfig env with
                        | Some err =>
                            (c, inr (fmt_Errorf_w
                               "recovery configuration saving failed: " err ""))
                        | None =>
                            let c := set_stored c (sealBarrierConfig c) (Some rc)
                                       (sealRecoveryKey c) (storedKeys c)
                                       (notifiedInitialized c) in
                            if (SealConfig.SecretShares rc >? 0)%Z then
                              match generateShares rc 2 with
                              | inr err => (c, inr err)
                              | inl (recoveryKey_, recoveryUnsealKeys) =>
                                  match seal_SetRecoveryKey env with
                                  | Some err => (c, inr err)
                                  | None =>
                                      (set_stored c (sealBarrierConfig c)
                                         (sealRecoveryConfig c)
                                         (Some recoveryKey_) (storedKeys c)
                                         (notifiedInitialized c),
                                       inl recoveryUnsealKeys)
                                  end
                              end
                            else (c, inl [])
                        end
                    | None => (c, inl [])
                    end in
                  match recovery with
                  | (c, inr err) => (c, inr err)
                  | (c, inl recoveryShares) =>
                      (* Generate a new root token *)
                      match rootToken env with
                      | inr err => (c, inr err)
                      | inl token =>
                          let encrypted : string + error :=
                            if negb (RootTokenPGPKey initParams =? "")%string then
                              match pgpkeys_EncryptShares env [token]
                                      [RootTokenPGPKey initParams] with
                              | inr err => inr err
                              | inl encryptedVals =>
                                  inl (base64_EncodeToString env
                                         (hd "" encryptedVals))
                              end
                            else inl token in
                          match encrypted with
                          | inr err => (c, inr err)
                          | inl token =>
                              match (if raftBackend env
                                     then raftCreateTLSKeyring env
                                     else None) with
                              | Some err => (c, inr err)
                              | None =>
                                  (* Prepare to re-seal *)
                                  match preSeal env with
                                  | Some err => (c, inr err)
                                  | None =>
                                      let c := set_core c (sealed c) false in
                                      let c :=
                                        if serviceRegistration env
                                        then set_stored c (sealBarrierConfig c)
                                               (sealRecoveryConfig c)
                                               (sealRecoveryKey c)
                                               (storedKeys c) true
                                        else c in
                                      (c, inl {| SecretShares := secretShares;
                                                 RecoveryShares := recoveryShares;
                                                 RootToken := token |})
                                  end
                              end
                          end
                      end
                  end
              end
          end
      end
  end.

(** From the initialization of the seal to the unsealed barrier, and
    then on with the barrier re-sealed by the deferred call when
    [initializeUnsealed] returns. *)
Definition initializeBarrier (c : Core) (initParams : InitParams)
           (barrierConfig : SealConfig.t)
           (recoverySupported : option SealConfig.t) : result :=
  match seal_Init env with
  | Some err => (c, inr (fmt_Errorf_w "error initializing seal: " err ""))
  | None =>
      match generateShares barrierConfig 0 with
      | inr err => (c, inr err)
      | inl (barrierKey, barrierKeyShares) =>
          let seal : (bytes * list bytes) + error :=
            if (SealConfig.StoredShares barrierConfig =? 1)%Z
               && match BarrierType env with
                  | WrapperTypeShamir => true
                  | _ => false
                  end
            then generateShares barrierConfig 1
            else inl ("", []) in
          match seal with
          | inr err => (c, inr err)
          | inl (sealKey, sealKeyShares) =>
              (* Initialize the barrier *)
              match barrier_Initialize c with
              | (c, Some err) =>
                  (c, inr (fmt_Errorf_w "failed to initialize barrier: " err ""))
              | (c, None) =>
                  (* Unseal the barrier *)
                  match barrier_Unseal c with
                  | (c, Some err) =>
                      (c, inr (fmt_Errorf_w "failed to unseal barrier: " err ""))
                  | (c, None) =>
                      let '(c, res) :=
                        initializeUnsealed c initParams barrierConfig
                          recoverySupported barrierKey sealKey
                          barrierKeyShares sealKeyShares in
                      (* Ensure the barrier is re-sealed *)
                      let '(c, _) := barrier_Seal c in
                      (c, res)
                  end
              end
          end
      end
  end.

(** The initialization lock of an HA backend, held from [lock.Lock] on
    and released by the deferred [lock.Unlock], which is registered
    after the second check only. *)
Definition initializeLocked (c : Core) (initParams : InitParams)
           (barrierConfig : SealConfig.t)
           (recoverySupported : option SealConfig.t) : result :=
  if ha env then
    match GenerateUUID env with
    | Some err => (c, inr (fmt_Errorf_w "failed to generate uuid: " err ""))
    | None =>
        match LockWith env with
        | Some err =>
            (c, inr (fmt_Errorf_w "failed to create initialization lock: "
                                  err ""))
        | None =>
            match lock_Lock env with
            | Some _ => (c, inr ErrParallelInit)
            | None =>
                let c := set_locks c (stateLock c) true in
                (* Check if we are initialized again after acquiring
                   this lock. *)
                match InitializedLocally 1 with
                | (_, Some err) => (c, inr err)
                | (true, None) => (c, inr ErrAlreadyInit)
                | (false, None) =>
                    let '(c, res) :=
                      initializeBarrier c initParams barrierConfig
                                        recoverySupported in
                    let c :=
                      match lock_Unlock env with
                      | Some _ => c
                      | None => set_locks c (stateLock c) false
                      end in
                    (c, res)
                end
            end
        end
    end
  else initializeBarrier c initParams barrierConfig recoverySupported.

(** Under the state lock: the check that the core is not initialized
    and the bootstrap of a Raft backend, torn down again by the deferred
    call. *)
Definition initializeChecked (c : Core) (initParams : InitParams)
           (barrierConfig : SealConfig.t)
           (recoverySupported : option SealConfig.t) : result :=
  match Initialized 0 with
  | (_, Some err) => (c, inr err)
  | (true, None) => (c, inr ErrAlreadyInit)
  | (false, None) =>
      if raftBackend env then
        match RaftBootstrap env with
        | Some err => (c, inr err)
        | None =>
            let c := set_raftCluster c true in
            let '(c, res) :=
              initializeLocked c initParams barrierConfig recoverySupported in
            (* Teardown cluster after bootstrap setup *)
            let c :=
              match TeardownCluster env with
              | Some _ => c
              | None => set_raftCluster c false
              end in
            (c, res)
        end
      else initializeLocked c initParams barrierConfig recoverySupported
  end.

Definition initializeInternal (c : Core) (initParams : InitParams) : result :=
  let c := set_initInProgress c true in
  let validated : (SealConfig.t * option SealConfig.t) + error :=
    let barrierConfig := BarrierConfig initParams in
    let recoveryConfig := RecoveryConfig initParams in
    let forced : SealConfig.t + error :=
      match StoredKeysSupported env with
      | StoredKeysSupportedGeneric =>
          if (0 <? length (SealConfig.PGPKeys barrierConfig))%nat
          then inr (errors_New "PGP keys not supported when storing shares")
          else inl (SealConfig.mk 1 1 (SealConfig.StoredShares barrierConfig)
                                  (SealConfig.PGPKeys barrierConfig))
      | _ => inl barrierConfig
      end in
    match forced with
    | inr err => inr err
    | inl barrierConfig =>
        let barrierConfig :=
          SealConfig.mk (SealConfig.SecretShares barrierConfig)
                        (SealConfig.SecretThreshold barrierConfig) 1
                        (SealConfig.PGPKeys barrierConfig) in
        (* Check if the seal configuration is valid *)
        match Validate env barrierConfig with
        | Some err => inr (fmt_Errorf_w "invalid seal configuration: " err "")
        | None =>
            if RecoveryKeySupported env then
              match recoveryConfig with
              | None => inr (errors_New "recovery configuration must be supplied")
              | Some rc =>
                  match ValidateRecovery env rc with
                  | Some err =>
                      inr (fmt_Errorf_w "invalid recovery configuration: " err "")
                  | None => inl (barrierConfig, Some rc)
                  end
              end
            else inl (barrierConfig, None)
        end
    end in
  let '(c, res) :=
    match validated with
    | inr err => (c, inr err)
    | inl (barrierConfig, recoverySupported) =>
        (* Avoid an initialization race on the local node. *)
        let c := set_locks c true (initLock c) in
        let '(c, res) :=
          initializeChecked c initParams barrierConfig recoverySupported in
        (set_locks c false (initLock c), res)
    end in
  (set_initInProgress c false, res).

(** UnsealWithStoredKeys performs auto-unseal using stored keys. *)
Definition UnsealWithStoredKeys (c : Core) : Core * option error :=
  match BarrierType env with
  | WrapperTypeShamir => (c, None)
  | _ =>
      (* Disallow auto-unsealing when migrating *)
      if inSealMigration env
      then (c, Some (errors_New "cannot auto-unseal during seal migration"))
      else if negb (sealed c) then (c, None)
      else
        match seal_GetStoredKeys env with
        | inr err =>
            (c, Some (fmt_Errorf_w "fetching stored unseal keys failed: " err ""))
        | inl keys =>
            match keys with
            | [] =>
                (c, Some (errors_New
                   "stored unseal keys are supported, but none were found: is the server initialized?"))
            | [key] =>
                match unsealInternal c key with
                | (c, Some err) =>
                    (c, Some (fmt_Errorf_w "unseal with stored key failed: "
                                           err ""))
                | (c, None) => (c, None)
                end
            | _ => (c, Some (errors_New "expected exactly one stored key"))
            end
        end
  end.

(** Initialize is used to initialize the Vault with the given
    configurations. *)
Definition Initialize (c : Core) (initParams : InitParams) : result :=
  match initializeInternal c initParams with
  | (c, inr err) => (c, inr err)
  | (c, inl results) =>
      if RecoveryKeySupported env then
        match seal_RecoveryConfig env with
        | inr _ =>
            (* Discard the error; we know we initialized successfully. *)
            (c, inl results)
        | inl recoveryConfig =>
            if (SealConfig.SecretShares recoveryConfig =? 0)%Z then
              (* When we have no recovery keys generated on an
                 auto-unseal mechanism, the caller has no option but to
                 restart the service.  This ensures we can start using
                 the node immediately. *)
              let '(c, _) := UnsealWithStoredKeys c in
              (c, inl results)
            else (c, inl results)
        end
      else (c, inl results)
  end.

End Init.

End vault.

(** ** Collaborators and inputs of the examples *)

Module Examples.

Import raft.

Definition op (t : N) (key : string) (value : bytes) : LogOperation :=
  {| OpType := t; Key := key; Value := value |}.

(** A put with an empty key (refused by the store), a put, an operation of
    an unknown type, a transaction whose verification fails and a
    transaction that is not closed by a commit. *)
Definition putEmptyKey : LogData :=
  {| Operations := [op putOp "" "v"] |}.
Definition putFoo : LogData :=
  {| Operations := [op putOp "foo" "bar"] |}.
Definition unknownOp : LogData :=
  {| Operations := [op 1024 "foo" ""] |}.
Definition txStale : LogData :=
  {| Operations := [op beginTxOp "" ""; op verifyReadOp "foo" "old";
                    op putOp "foo" "new"; op commitTxOp "" ""] |}.
Definition txOpen : LogData :=
  {| Operations := [op beginTxOp "" ""; op putOp "foo" "new"] |}.

(** The codec of the examples knows the encodings of these messages. *)
#[local] Instance codec : Codec := {|
  Unmarshal_LogData data :=
    if (data =? "put-empty-key")%string then inl putEmptyKey
    else if (data =? "put-foo")%string then inl putFoo
    else if (data =? "unknown-op")%string then inl unknownOp
    else if (data =? "tx-stale")%string then inl txStale
    else if (data =? "tx-open")%string then inl txOpen
    else inr (errors_New "proto: cannot parse invalid wire-format data");
  DecodeConfiguration data :=
    if (data =? "")%string then Some [] else None;
  Marshal_IndexValue v := inl "index";
  Unmarshal_IndexValue data := inl {| Term := 0; Index := 0 |};
  Marshal_ConfigurationValue c := inl "configuration";
  Unmarshal_ConfigurationValue data :=
    inl {| ConfigurationIndex := 0; Servers := [] |};
  Marshal_LocalNodeConfigValue c := inl (DesiredSuffrage c);
  Unmarshal_LocalNodeConfigValue data := inl {| DesiredSuffrage := data |}
|}.

(** The verifier of the examples reads the begin value as index 0, compares
    the stored value with the expected one and accepts every list. *)
#[local] Instance verifier : TxnVerifier := {|
  parseBeginTxOpValue value := inl 0%N;
  doVerifyRead ts b o :=
    match bolt.Get b (Key o) with
    | Some v =>
        if (v =? Value o)%string then None
        else Some (fmt_Errorf_w "verify read failed: " ErrTransactionCommitFailure "")
    | None =>
        if (Value o =? "")%string then None
        else Some (fmt_Errorf_w "verify read failed: " ErrTransactionCommitFailure "")
    end;
  doVerifyList ts b o := None
|}.

Definition emptyFSM : FSM :=
  {| latestIndex := 0; latestTerm := 0; latestConfig := None;
     noopRestore := false;
     db := {| closed := false; data := []; config := [] |};
     restoreCb := false; restoreCbStarted := 0; localID := "node1";
     desiredSuffrage := "voter"; unknownOpTypes := [];
     fastTxnTracker := [] |}.

Definition commandLog (index : N) (data : bytes) : Log.t :=
  Log.mk index 1 LogCommand data.

(** A transaction that passes its verification and puts an empty key, and
    a transaction that is applied to a bucket in which [foo] is [bar]. *)
Definition txEmptyKey : LogData :=
  {| Operations := [op beginTxOp "" ""; op putOp "" "v"; op commitTxOp "" ""] |}.
Definition txFresh : LogData :=
  {| Operations := [op beginTxOp "" ""; op verifyReadOp "foo" "bar";
                    op putOp "foo" "new"; op deleteOp "old" "";
                    op putOp "new" "entry"; op commitTxOp "" ""] |}.

Definition decimal (n : N) : string := NilZero.string_of_uint (N.to_uint n).

Definition parseDecimal (s : string) : option N :=
  option_map N.of_uint (NilZero.uint_of_string s).

(** A codec that writes the term and the index of an [IndexValue] and the
    index of a [ConfigurationValue] without servers in decimal. *)
#[local] Instance decimalCodec : Codec := {|
  Unmarshal_LogData data :=
    if (data =? "put-foo")%string then inl putFoo
    else if (data =? "tx-empty-key")%string then inl txEmptyKey
    else if (data =? "tx-fresh")%string then inl txFresh
    else inr (errors_New "proto: cannot parse invalid wire-format data");
  DecodeConfiguration data :=
    if (data =? "")%string then Some [] else None;
  Marshal_IndexValue v :=
    inl (decimal (Term v) ++ "/" ++ decimal (Index v))%string;
  Unmarshal_IndexValue data :=
    match strings.Split_slash data with
    | [term; index] =>
        match parseDecimal term, parseDecimal index with
        | Some term, Some index => inl {| Term := term; Index := index |}
        | _, _ => inr (errors_New "proto: cannot parse invalid wire-format data")
        end
    | _ => inr (errors_New "proto: cannot parse invalid wire-format data")
    end;
  Marshal_ConfigurationValue c :=
    match Servers c with
    | [] => inl (decimal (ConfigurationIndex c))
    | _ => inr (errors_New "proto: servers are not encoded")
    end;
  Unmarshal_ConfigurationValue data :=
    match parseDecimal data with
    | Some index => inl {| ConfigurationIndex := index; Servers := [] |}
    | None => inr (errors_New "proto: cannot parse invalid wire-format data")
    end;
  Marshal_LocalNodeConfigValue c := inl (DesiredSuffrage c);
  Unmarshal_LocalNodeConfigValue data := inl {| DesiredSuffrage := data |}
|}.

End Examples.

(** * Properties *)

(** ** Batched application *)

Module ApplyFacts.

Import raft.

Section WithCollaborators.

Context {codec : Codec} {verifier : TxnVerifier}.

Lemma inTx_logWrite s key : inTx (logWrite s key) = inTx s.
Proof. reflexivity. Qed.

Lemma applyBatchNonTxOpsLoop_inTx ops :
  forall f b ts f' b' ts' err,
    applyBatchNonTxOpsLoop f b ts ops = (f', b', ts', err) ->
    inTx ts' = inTx ts.
Proof.
  induction ops as [|op ops IH]; simpl; intros f b ts f' b' ts' err H.
  - now inversion H.
  - unfold bolt.Delete in H.
    repeat match type of H with
           | (if ?c then _ else _) = _ => destruct c
           | match ?x with _ => _ end = _ => destruct x
           end;
      try (now inversion H);
      try (apply IH in H; now rewrite H).
Qed.

(** The verification loop writes nothing and keeps the transaction
    flag. *)
Lemma applyBatchTxOpsVerify_inTx operations ops :
  forall f b ts index f' ts' err,
    applyBatchTxOpsVerify f b ts operations index ops = (f', ts', err) ->
    inTx ts' = inTx ts.
Proof.
  induction ops as [|op ops IH]; simpl; intros f b ts index f' ts' err H.
  - now inversion H.
  - repeat match type of H with
           | (if ?c then _ else _) = _ => destruct c
           | match ?x with _ => _ end = _ => destruct x
           end;
      try (now inversion H);
      try (apply IH in H; now rewrite H).
Qed.






(** The application state of the entry at [commandIndex]. *)
Definition entryState (f : FSM) (latestIndex : N) (logs : list Log.t)
           (commandIndex : nat) : fsmTxnCommitIndexApplicationState :=
  applyState (fastTxnTracker f) latestIndex commandIndex
             (logIndexAt logs commandIndex).

Definition txError (err : error) : FSMEntry.t :=
  FSMEntry.mk fsmEntryTxErrorKey (Error err).

(** *** Panics and responses *)

(** A log that the unmarshalling loop panics on. *)
Definition unknownType (l : Log.t) : Prop :=
  exists t, Log.Type_ l = LogOther t.

Definition unmarshalFails (l : Log.t) : Prop :=
  Log.Type_ l = LogCommand /\ exists err, Unmarshal_LogData (Log.Data l) = inr err.

Lemma unmarshalLogs_panics logs :
  forall commands latestConfiguration,
    (exists l, In l logs /\ (unknownType l \/ unmarshalFails l)) ->
    exists msg, unmarshalLogs logs commands latestConfiguration = Panic msg.
Proof.
  induction logs as [|l logs IH]; intros commands lc [l0 [Hin Hbad]].
  - destruct Hin.
  - simpl. destruct Hin as [<-|Hin].
    + destruct Hbad as [[t Ht]|[Ht [err He]]]; rewrite Ht.
      * eexists; reflexivity.
      * rewrite He. eexists; reflexivity.
    + destruct (Log.Type_ l).
      * destruct (Unmarshal_LogData (Log.Data l)); [|eexists; reflexivity].
        apply IH. now exists l0.
      * destruct (DecodeConfiguration (Log.Data l)); [|eexists; reflexivity].
        apply IH. now exists l0.
      * eexists; reflexivity.
Qed.

Lemma unmarshalLogs_length logs :
  forall commands latestConfiguration commands' latestConfiguration',
    unmarshalLogs logs commands latestConfiguration
      = Returned (commands', latestConfiguration') ->
    length commands' = length commands + length logs.
Proof.
  induction logs as [|l logs IH]; simpl; intros commands lc commands' lc' H.
  - inversion H; subst. lia.
  - destruct (Log.Type_ l); [| |discriminate].
    + destruct (Unmarshal_LogData (Log.Data l)); [|discriminate].
      apply IH in H. rewrite length_app in H. simpl in H. lia.
    + destruct (DecodeConfiguration (Log.Data l)); [|discriminate].
      apply IH in H. rewrite length_app in H. simpl in H. lia.
Qed.

(** What an entry slice of a response holds: nothing, or the sentinel of a
    transaction commit failure. *)
Definition emptyOrTxError (entrySlice : list FSMEntry.t) : Prop :=
  entrySlice = []
  \/ exists err,
       Is_ErrTransactionCommitFailure err = true /\ entrySlice = [txError err].

(** A loop over the commands that ends without an error has added one entry
    slice per command. *)
Lemma applyCommands_slices commands :
  forall f b configB latestIndex logs commandIndex slices,
    batch_err (applyCommands f b configB latestIndex logs commandIndex
                             commands slices) = None ->
    Forall emptyOrTxError slices ->
    length (entrySlices (applyCommands f b configB latestIndex logs commandIndex
                                       commands slices))
      = length slices + length commands
    /\ Forall emptyOrTxError
         (entrySlices (applyCommands f b configB latestIndex logs commandIndex
                                     commands slices)).
Proof.
  induction commands as [|c commands IH];
    intros f b configB latestIndex logs commandIndex slices Herr Hsl.
  - simpl. split; [lia|exact Hsl].
  - assert (Hstep : forall f' b' cb' slice,
               emptyOrTxError slice ->
               batch_err (applyCommands f' b' cb' latestIndex logs (S commandIndex)
                                        commands (slices ++ [slice])) = None ->
               length (entrySlices
                         (applyCommands f' b' cb' latestIndex logs (S commandIndex)
                                        commands (slices ++ [slice])))
                 = length slices + length (c :: commands)
               /\ Forall emptyOrTxError
                    (entrySlices
                       (applyCommands f' b' cb' latestIndex logs (S commandIndex)
                                      commands (slices ++ [slice])))).
    { intros f' b' cb' slice Hslice H.
      destruct (IH f' b' cb' latestIndex logs (S commandIndex)
                   (slices ++ [slice]) H) as [Hlen Hall].
      - apply Forall_app. split; [exact Hsl|now constructor].
      - split; [|exact Hall].
        rewrite Hlen, length_app. simpl. lia. }
    destruct c as [command|config]; simpl in Herr |- *.
    + destruct (if (length (Operations command) =? 0)%nat
                   || negb (opTypeAt (Operations command) 0 =? beginTxOp)%N
                then applyBatchNonTxOps f b (applyState (fastTxnTracker f)
                       latestIndex commandIndex (logIndexAt logs commandIndex))
                       command
                else applyBatchTxOps f b (applyState (fastTxnTracker f)
                       latestIndex commandIndex (logIndexAt logs commandIndex))
                       command) as [[[f1 b1] ts1] [err|]].
      * destruct (getInTx ts1 && Is_ErrTransactionCommitFailure err) eqn:Htx.
        -- apply Hstep; [|exact Herr].
           right. exists err. apply andb_true_iff in Htx. now split.
        -- simpl in Herr. discriminate.
      * apply Hstep; [now left|exact Herr].
    + destruct (Marshal_ConfigurationValue config); [|simpl in Herr; discriminate].
      destruct (bolt.Put configB latestConfigKey b0); [|simpl in Herr; discriminate].
      apply Hstep; [now left|exact Herr].
Qed.

Lemma buildResponses_returned logs :
  forall entrySlices resp,
    buildResponses logs entrySlices = Returned resp ->
    length resp = length logs
    /\ Forall (fun r => Success r = true /\ In (EntrySlice r) entrySlices) resp.
Proof.
  induction logs as [|l logs IH]; simpl; intros entrySlices resp H.
  - inversion H; subst. split; [reflexivity|constructor].
  - destruct entrySlices as [|e es]; [discriminate|].
    destruct (buildResponses logs es) as [resp'|] eqn:Hb; [|discriminate].
    inversion H; subst. destruct (IH es resp' Hb) as [Hlen Hall].
    split; [simpl; now rewrite Hlen|].
    constructor; [split; [reflexivity|now left]|].
    eapply Forall_impl; [|exact Hall].
    intros r [Hs Hin]. split; [exact Hs|now right].
Qed.

(** The loop over the commands, entry by entry: a prefix that ends without
    an error hands its FSM, buckets and entry slices to the rest. *)
Lemma applyCommands_app pre :
  forall post f b configB latestIndex logs commandIndex slices,
    batch_err (applyCommands f b configB latestIndex logs commandIndex pre slices)
      = None ->
    applyCommands f b configB latestIndex logs commandIndex (pre ++ post) slices
    = let r := applyCommands f b configB latestIndex logs commandIndex pre slices in
      applyCommands (batch_f r) (batch_b r) (batch_configB r) latestIndex logs
                    (commandIndex + length pre) post (entrySlices r).
Proof.
  induction pre as [|c pre IH];
    intros post f b configB latestIndex logs commandIndex slices Herr.
  - simpl. now rewrite Nat.add_0_r.
  - destruct c as [command|config]; simpl in Herr |- *.
    + destruct (if (length (Operations command) =? 0)%nat
                   || negb (opTypeAt (Operations command) 0 =? beginTxOp)%N
                then applyBatchNonTxOps f b (applyState (fastTxnTracker f)
                       latestIndex commandIndex (logIndexAt logs commandIndex))
                       command
                else applyBatchTxOps f b (applyState (fastTxnTracker f)
                       latestIndex commandIndex (logIndexAt logs commandIndex))
                       command) as [[[f1 b1] ts1] [err|]].
      * destruct (getInTx ts1 && Is_ErrTransactionCommitFailure err).
        -- rewrite IH by exact Herr. simpl. now rewrite Nat.add_succ_r.
        -- simpl in Herr. discriminate.
      * rewrite IH by exact Herr. simpl. now rewrite Nat.add_succ_r.
    + destruct (Marshal_ConfigurationValue config); [|simpl in Herr; discriminate].
      destruct (bolt.Put configB latestConfigKey b0); [|simpl in Herr; discriminate].
      rewrite IH by exact Herr. simpl. now rewrite Nat.add_succ_r.
Qed.

(** An entry that is not a transaction: its operations list is empty or
    does not start with [beginTxOp]. *)
Definition nonTransactional (command : LogData) : Prop :=
  (length (Operations command) =? 0)%nat
  || negb (opTypeAt (Operations command) 0 =? beginTxOp)%N = true.

(** The error of a put or delete of an entry that is not a transaction ends
    the loop over the commands. *)
Lemma applyCommands_storage_error f b configB latestIndex logs commandIndex
      command rest slices f1 b1 ts1 err :
  nonTransactional command ->
  applyBatchNonTxOps f b (entryState f latestIndex logs commandIndex) command
    = (f1, b1, ts1, Some err) ->
  batch_err (applyCommands f b configB latestIndex logs commandIndex
                           (LogDataCommand command :: rest) slices) = Some err.
Proof.
  intros Hnon Happ. simpl. unfold nonTransactional in Hnon. rewrite Hnon.
  unfold entryState in Happ. rewrite Happ.
  assert (Hin : getInTx ts1 = false).
  { unfold applyBatchNonTxOps in Happ.
    apply applyBatchNonTxOpsLoop_inTx in Happ. exact Happ. }
  rewrite Hin. reflexivity.
Qed.

(** A batch in which an entry that is not a transaction meets a storage
    error: the entries before it are applied without an error, and its own
    puts and deletes end in one. *)
Definition storageFailure (f : FSM) (logs : list Log.t)
           (commands : list command) : Prop :=
  exists pre command post f1 b1 ts1 err,
    commands = pre ++ LogDataCommand command :: post /\
    nonTransactional command /\
    batch_err (applyCommands f (data (db f)) (config (db f)) (latestIndex f)
                             logs 0 pre []) = None /\
    let r := applyCommands f (data (db f)) (config (db f)) (latestIndex f)
                           logs 0 pre [] in
    applyBatchNonTxOps (batch_f r) (batch_b r)
                       (entryState (batch_f r) (latestIndex f) logs (length pre))
                       command
      = (f1, b1, ts1, Some err).

(** C7: a batch with a log of an unknown type, with a command log whose
    data cannot be unmarshalled, or with a storage error from the puts and
    deletes of an entry that is not a transaction makes [ApplyBatch] panic:
    no error is returned. *)
Theorem ApplyBatch_panics :
  forall f logs,
    (exists l, In l logs /\ unknownType l)
    \/ (exists l, In l logs /\ unmarshalFails l)
    \/ (exists commands latestConfiguration,
          unmarshalLogs logs [] None = Returned (commands, latestConfiguration)
          /\ storageFailure f logs commands) ->
    exists msg, ApplyBatch f logs = Panic msg.
Proof.
  intros f logs H.
  assert (Hbad : (exists l, In l logs /\ (unknownType l \/ unmarshalFails l))
                 \/ (exists commands latestConfiguration,
                        unmarshalLogs logs [] None
                          = Returned (commands, latestConfiguration)
                        /\ storageFailure f logs commands)).
  { destruct H as [[l [Hin Hl]]|[[l [Hin Hl]]|H]].
    - left. exists l. auto.
    - left. exists l. auto.
    - now right. }
  clear H. unfold ApplyBatch.
  destruct Hbad as [Hbad|[commands [lc [Hun Hfail]]]].
  - destruct (length logs =? 0)%nat eqn:Hlen.
    + apply Nat.eqb_eq in Hlen. destruct logs; [|discriminate].
      destruct Hbad as [l [[] _]].
    + destruct (unmarshalLogs_panics logs [] None Hbad) as [msg Hmsg].
      rewrite Hmsg. now exists msg.
  - destruct Hfail as [pre [command [post [f1 [b1 [ts1 [err
                         [Hcmds [Hnon [Hpre Happ]]]]]]]]]].
    assert (Hlen : length commands = length logs)
      by (now rewrite (unmarshalLogs_length _ _ _ _ _ Hun)).
    destruct (length logs =? 0)%nat eqn:Hzero.
    { apply Nat.eqb_eq in Hzero. rewrite Hzero in Hlen.
      rewrite Hcmds, length_app in Hlen. simpl in Hlen. lia. }
    rewrite Hun.
    match goal with
    | |- exists msg, match ?m with _ => _ end = _ => destruct m as [logIndex|e]
    end; [|eexists; reflexivity].
    destruct (closed (db f)); [eexists; reflexivity|].
    rewrite Hcmds, applyCommands_app by exact Hpre.
    cbv zeta in Happ |- *. simpl (0 + length pre).
    rewrite (applyCommands_storage_error _ _ _ _ _ _ _ _ _ _ _ _ _ Hnon Happ).
    eexists; reflexivity.
Qed.

(** C10: when [ApplyBatch] returns, it returns one response per log, each
    with [Success = true], whatever the logs hold; the entry slice of a
    response is empty or holds the sentinel of a transaction commit
    failure. *)
Theorem ApplyBatch_responses :
  forall f logs resp f',
    ApplyBatch f logs = Returned (resp, f') ->
    length resp = length logs
    /\ Forall (fun r => Success r = true /\ emptyOrTxError (EntrySlice r)) resp.
Proof.
  intros f logs resp f' H. unfold ApplyBatch in H.
  destruct (length logs =? 0)%nat eqn:Hzero.
  { apply Nat.eqb_eq in Hzero. inversion H; subst.
    split; [now rewrite Hzero|constructor]. }
  destruct (unmarshalLogs logs [] None) as [[commands lc]|] eqn:Hun; [|discriminate].
  match type of H with
  | match ?m with _ => _ end = _ => destruct m as [logIndex|e]
  end; [|discriminate].
  destruct (closed (db f)); [discriminate|].
  destruct (batch_err (applyCommands f (data (db f)) (config (db f))
                                     (latestIndex f) logs 0 commands []))
    eqn:Herr; [discriminate|].
  destruct (applyCommands_slices commands f (data (db f)) (config (db f))
              (latestIndex f) logs 0 [] Herr (Forall_nil _)) as [_ Hall].
  set (es := entrySlices (applyCommands f (data (db f)) (config (db f))
                                        (latestIndex f) logs 0 commands [])) in *.
  cbv zeta in H.
  assert (Hbuild : exists resp0, buildResponses logs es = Returned resp0
                                 /\ resp0 = resp).
  { repeat match type of H with
           | (let '(_, _) := ?x in _) = _ => destruct x
           | match ?x with _ => _ end = _ => destruct x eqn:?
           end; try discriminate;
      inversion H; subst; eexists; split; eauto. }
  destruct Hbuild as [resp0 [Hbuild <-]].
  destruct (buildResponses_returned logs es resp0 Hbuild) as [Hlen Hresp].
  split; [exact Hlen|].
  eapply Forall_impl; [|exact Hresp].
  intros r [Hs Hin]. split; [exact Hs|].
  rewrite Forall_forall in Hall. now apply Hall.
Qed.

End WithCollaborators.

(** *** The theorems at the examples *)

Import Examples.
#[local] Existing Instance codec.
#[local] Existing Instance verifier.

Definition exampleLogs : list Log.t :=
  [commandLog 1 "put-foo"; commandLog 2 "tx-stale"; commandLog 3 "unknown-op";
   commandLog 4 "tx-open"].

(** A log of an unknown type, a command that cannot be unmarshalled, and a
    put with an empty key after a put that is applied. *)
Lemma ApplyBatch_panics_witness :
  (exists msg,
      ApplyBatch emptyFSM [commandLog 1 "put-foo"; Log.mk 2 1 (LogOther 1) ""]
      = Panic msg)
  /\ (exists msg,
        ApplyBatch emptyFSM [commandLog 1 "put-foo"; commandLog 2 "garbage"]
        = Panic msg)
  /\ (exists msg,
        ApplyBatch emptyFSM [commandLog 1 "put-foo"; commandLog 2 "put-empty-key"]
        = Panic msg).
Proof.
  split; [|split].
  - apply (@ApplyBatch_panics codec verifier). left.
    exists (Log.mk 2 1 (LogOther 1) ""). split; [right; now left|].
    now exists 1%N.
  - apply (@ApplyBatch_panics codec verifier). right. left.
    exists (commandLog 2 "garbage"). split; [right; now left|].
    split; [reflexivity|]. eexists. reflexivity.
  - apply (@ApplyBatch_panics codec verifier). right. right.
    exists [LogDataCommand putFoo; LogDataCommand putEmptyKey], None.
    split; [reflexivity|].
    exists [LogDataCommand putFoo], putEmptyKey, [].
    eexists. eexists. eexists. exists ErrKeyRequired.
    split; [reflexivity|]. split; [reflexivity|]. split; [reflexivity|].
    vm_compute. reflexivity.
Defined.

(** The batch of the examples returns four responses. *)
Lemma ApplyBatch_responses_witness :
  exists resp f',
    ApplyBatch emptyFSM exampleLogs = Returned (resp, f') /\
    length resp = 4 /\
    Forall (fun r => Success r = true /\ emptyOrTxError (EntrySlice r)) resp.
Proof.
  eexists. eexists. split; [vm_compute; reflexivity|].
  eapply (@ApplyBatch_responses codec verifier emptyFSM exampleLogs).
  vm_compute. reflexivity.
Defined.

End ApplyFacts.

(** ** The order of byte strings *)

Module StringOrder.

Lemma ascii_compare_refl (a : ascii) : Ascii.compare a a = Eq.
Proof. unfold Ascii.compare. apply N.compare_refl. Qed.

Lemma ascii_compare_lt_trans (a b c : ascii) :
  Ascii.compare a b = Lt -> Ascii.compare b c = Lt -> Ascii.compare a c = Lt.
Proof.
  unfold Ascii.compare. rewrite !N.compare_lt_iff. apply N.lt_trans.
Qed.

Lemma compare_refl (s : string) : String.compare s s = Eq.
Proof.
  induction s as [|a s IH]; simpl; [reflexivity|].
  now rewrite ascii_compare_refl.
Qed.

Lemma compare_eq (s t : string) : String.compare s t = Eq <-> s = t.
Proof.
  split; [apply String.compare_eq_iff|intros ->; apply compare_refl].
Qed.

Lemma compare_lt_trans (s t u : string) :
  String.compare s t = Lt -> String.compare t u = Lt -> String.compare s u = Lt.
Proof.
  revert t u. induction s as [|a s IH]; intros [|b t] [|c u]; simpl;
    try discriminate; try reflexivity.
  destruct (Ascii.compare a b) eqn:Hab; try discriminate;
    destruct (Ascii.compare b c) eqn:Hbc; try discriminate; intros H1 H2.
  - apply Ascii.compare_eq_iff in Hab, Hbc. subst.
    rewrite ascii_compare_refl. now apply (IH t u).
  - apply Ascii.compare_eq_iff in Hab. subst. now rewrite Hbc.
  - apply Ascii.compare_eq_iff in Hbc. subst. now rewrite Hab.
  - now rewrite (ascii_compare_lt_trans a b c).
Qed.

Lemma compare_gt_lt (s t : string) :
  String.compare s t = Gt <-> String.compare t s = Lt.
Proof.
  rewrite (String.compare_antisym t s).
  destruct (String.compare s t); simpl; split; congruence.
Qed.

Lemma ltb_lt (s t : string) : (s <? t)%string = true <-> String.compare s t = Lt.
Proof. unfold String.ltb. destruct (String.compare s t); split; congruence. Qed.

Lemma leb_le (s t : string) : (s <=? t)%string = true <-> String.compare s t <> Gt.
Proof. unfold String.leb. destruct (String.compare s t); split; congruence. Qed.

Lemma ltb_irrefl (s : string) : (s <? s)%string = false.
Proof. unfold String.ltb. now rewrite compare_refl. Qed.

Lemma leb_refl (s : string) : (s <=? s)%string = true.
Proof. unfold String.leb. now rewrite compare_refl. Qed.

Lemma ltb_trans (s t u : string) :
  (s <? t)%string = true -> (t <? u)%string = true -> (s <? u)%string = true.
Proof. rewrite !ltb_lt. apply compare_lt_trans. Qed.

Lemma leb_ltb (s t : string) : (s <=? t)%string = negb (t <? s)%string.
Proof.
  unfold String.leb, String.ltb. rewrite (String.compare_antisym s t).
  now destruct (String.compare t s).
Qed.

Lemma ltb_leb (s t : string) : (s <? t)%string = negb (t <=? s)%string.
Proof. rewrite leb_ltb. now rewrite negb_involutive. Qed.

Lemma leb_spec (s t : string) :
  (s <=? t)%string = true <-> (s <? t)%string = true \/ s = t.
Proof.
  unfold String.leb, String.ltb.
  destruct (String.compare s t) eqn:H; split; intros H0; try discriminate; auto.
  - right. now apply compare_eq.
  - destruct H0 as [H0|H0]; [discriminate|].
    subst. rewrite compare_refl in H. discriminate.
Qed.

Lemma ltb_leb_weak (s t : string) :
  (s <? t)%string = true -> (s <=? t)%string = true.
Proof. intros H. apply leb_spec. now left. Qed.

Lemma leb_ltb_trans (s t u : string) :
  (s <=? t)%string = true -> (t <? u)%string = true -> (s <? u)%string = true.
Proof.
  intros H1 H2. apply leb_spec in H1 as [H1 | ->]; [|exact H2].
  now apply (ltb_trans s t u).
Qed.

Lemma ltb_leb_trans (s t u : string) :
  (s <? t)%string = true -> (t <=? u)%string = true -> (s <? u)%string = true.
Proof.
  intros H1 H2. apply leb_spec in H2 as [H2 | <-]; [|exact H1].
  now apply (ltb_trans s t u).
Qed.

Lemma leb_trans (s t u : string) :
  (s <=? t)%string = true -> (t <=? u)%string = true -> (s <=? u)%string = true.
Proof.
  intros H1 H2. apply leb_spec in H1 as [H1 | ->]; [|exact H2].
  apply ltb_leb_weak. now apply (ltb_leb_trans s t u).
Qed.

Lemma ltb_neq (s t : string) : (s <? t)%string = true -> s <> t.
Proof. intros H ->. rewrite ltb_irrefl in H. discriminate. Qed.

(** Appending to a common prefix keeps the order. *)
Lemma compare_app (p s t : string) :
  String.compare (p ++ s) (p ++ t) = String.compare s t.
Proof.
  induction p as [|a p IH]; simpl; [reflexivity|].
  now rewrite ascii_compare_refl.
Qed.

Lemma ltb_app (p s t : string) : (p ++ s <? p ++ t)%string = (s <? t)%string.
Proof. unfold String.ltb. now rewrite compare_app. Qed.

Lemma leb_app (p s t : string) : (p ++ s <=? p ++ t)%string = (s <=? t)%string.
Proof. unfold String.leb. now rewrite compare_app. Qed.

Lemma leb_empty (s : string) : ("" <=? s)%string = true.
Proof. now destruct s. Qed.

Lemma append_nil_r (s : string) : (s ++ "")%string = s.
Proof. induction s as [|a s IH]; simpl; [reflexivity|now rewrite IH]. Qed.

Lemma leb_app_r (p t : string) : (p <=? p ++ t)%string = true.
Proof.
  rewrite <- (append_nil_r p) at 1. rewrite leb_app. apply leb_empty.
Qed.

Lemma append_assoc (s t u : string) : ((s ++ t) ++ u)%string = (s ++ t ++ u)%string.
Proof. induction s as [|a s IH]; simpl; [reflexivity|now rewrite IH]. Qed.

Lemma length_append (s t : string) :
  String.length (s ++ t) = String.length s + String.length t.
Proof. induction s as [|a s IH]; simpl; [reflexivity|now rewrite IH]. Qed.

(** [HasPrefix] and [TrimPrefix] *)
Lemma HasPrefix_app (p t : string) : strings.HasPrefix (p ++ t) p = true.
Proof.
  unfold strings.HasPrefix. induction p as [|a p IH]; simpl.
  - now destruct t.
  - destruct (ascii_dec a a); [exact IH|contradiction].
Qed.

Lemma HasPrefix_inv (s p : string) :
  strings.HasPrefix s p = true -> exists t, s = (p ++ t)%string.
Proof.
  unfold strings.HasPrefix. revert s. induction p as [|a p IH]; intros s H.
  - now exists s.
  - destruct s as [|b s]; simpl in H; [discriminate|].
    destruct (ascii_dec a b) as [->|]; [|discriminate].
    destruct (IH s H) as [t ->]. now exists t.
Qed.

Lemma slice_from_app (p t : string) : strings.slice_from (String.length p) (p ++ t) = t.
Proof. induction p as [|a p IH]; simpl; [now destruct t|exact IH]. Qed.

Lemma TrimPrefix_app (p t : string) : strings.TrimPrefix (p ++ t) p = t.
Proof.
  unfold strings.TrimPrefix. rewrite HasPrefix_app. apply slice_from_app.
Qed.

(** A string that is not below [p] and lacks the prefix [p] is above every
    string with the prefix [p]. *)
Lemma above_prefix (p k t : string) :
  (p <=? k)%string = true -> strings.HasPrefix k p = false ->
  (p ++ t <? k)%string = true.
Proof.
  unfold strings.HasPrefix, String.leb, String.ltb.
  revert k. induction p as [|a p IH]; intros k Hle Hnp.
  - destruct k; discriminate.
  - destruct k as [|b k]; simpl in *; [discriminate|].
    destruct (ascii_dec a b) as [->|Hab].
    + rewrite ascii_compare_refl in *. now apply IH.
    + destruct (Ascii.compare a b) eqn:Hc; try discriminate; [|reflexivity].
      apply Ascii.compare_eq_iff in Hc. contradiction.
Qed.

End StringOrder.

(** ** Requests on a standby *)

Module HttpFacts.

Import http.

Lemma Header_Get_Put (h : Header) (name value : string) :
  Header_Get (Header_Put h name [value]) name = value.
Proof.
  induction h as [|[k v] h IH]; simpl.
  - now rewrite String.eqb_refl.
  - destruct (k =? name)%string eqn:Hk; simpl.
    + now rewrite String.eqb_refl.
    + now rewrite Hk.
Qed.

Section WithEnv.

Context {env : Env}.

(** The URL of the redirect: scheme and host of the leader's address, the
    scheme being https when the address has none, path and query of the
    request. *)
Definition redirectLocation (leader reqURL : URL) : URL :=
  {| Scheme := if (Scheme leader =? "")%string then "https" else Scheme leader;
     Host := Host leader;
     Path := Path reqURL;
     RawQuery := RawQuery reqURL |}.

(** With a header against forwarding, [forwardRequest] answers as
    [respondStandby] does and hands nothing to [core.ForwardRequest]. *)
Lemma forwardRequest_not_forwarded core w r :
  Header_Get (Request_Header r) NoRequestForwardingHeaderName <> "" ->
  forwardRequest core w r
  = Returned (respondStandby core w (Request_URL r), false).
Proof.
  intros Hheader. unfold forwardRequest.
  destruct (negb (Header_Get (Request_Header r) IntNoForwardingHeaderName =? "")%string);
    [reflexivity|].
  apply String.eqb_neq in Hheader. now rewrite Hheader.
Qed.

Lemma respondStandby_redirects core w reqURL isLeader leaderAddr clusterAddr
      leader :
  Leader core = (isLeader, leaderAddr, clusterAddr, None) ->
  leaderAddr <> "" -> url_Parse leaderAddr = inl leader ->
  StatusCode (respondStandby core w reqURL) = Some StatusTemporaryRedirect
  /\ Header_Get (Response_Header (respondStandby core w reqURL)) "Location"
     = URL_String (redirectLocation leader reqURL).
Proof.
  intros Hleader Hne Hparse. unfold respondStandby.
  apply String.eqb_neq in Hne. rewrite Hleader, Hne, Hparse.
  unfold redirectLocation. simpl.
  destruct (Scheme leader =? "")%string; simpl;
    split; try reflexivity; apply Header_Get_Put.
Qed.

(** When the leader's address does not parse, or [core.Leader()] fails
    with an error other than [ErrHANotEnabled], the standby answers 500. *)
Lemma respondStandby_unparsable core w reqURL isLeader leaderAddr clusterAddr err :
  Leader core = (isLeader, leaderAddr, clusterAddr, None) ->
  leaderAddr <> "" -> url_Parse leaderAddr = inr err ->
  StatusCode (respondStandby core w reqURL) = Some StatusInternalServerError.
Proof.
  intros Hleader Hne Hparse. unfold respondStandby.
  apply String.eqb_neq in Hne. now rewrite Hleader, Hne, Hparse.
Qed.

(** C8, as the code has it: a node of an HA cluster that is not the leader
    ([core.Leader()] reports no error and no leadership) gets a request with
    a non-empty X-Vault-No-Request-Forwarding header through
    [handleRequestForwarding].  The request is not handed to
    [core.ForwardRequest] and the wrapped handler does not run, whatever the
    two are.  When the leader's advertised address is known and parses as a
    URL the response is 307 with the Location header made of that address's
    scheme (https by default) and host and of the path and query of the
    request.  When no leader address is known the response is 500:
    [handleRequestForwarding] answers before [forwardRequest] is called, so
    the 503 of [respondStandby] is not reached; and when the address does
    not parse the response is 500 as well. *)
Theorem standby_redirects_without_forwarding :
  forall core handler w r leaderAddr clusterAddr,
    Header_Get (Request_Header r) NoRequestForwardingHeaderName <> "" ->
    Leader core = (false, leaderAddr, clusterAddr, None) ->
    exists w',
      handleRequestForwarding core handler w r = Returned (w', false)
      /\ (forall handler' forward,
             handleRequestForwarding
               {| Leader := Leader core; ForwardRequest := forward |}
               handler' w r
             = Returned (w', false))
      /\ (forall leader,
             leaderAddr <> "" -> url_Parse leaderAddr = inl leader ->
             StatusCode w' = Some StatusTemporaryRedirect
             /\ Header_Get (Response_Header w') "Location"
                = URL_String (redirectLocation leader (Request_URL r)))
      /\ (leaderAddr = "" -> StatusCode w' = Some StatusInternalServerError)
      /\ (forall err,
             leaderAddr <> "" -> url_Parse leaderAddr = inr err ->
             StatusCode w' = Some StatusInternalServerError).
Proof.
  intros core handler w r leaderAddr clusterAddr Hheader Hleader.
  unfold handleRequestForwarding. cbn [Leader]. rewrite Hleader.
  destruct (leaderAddr =? "")%string eqn:Haddr.
  - apply String.eqb_eq in Haddr. subst leaderAddr.
    eexists. split; [reflexivity|]. split; [reflexivity|].
    split; [intros leader Hne; now contradiction Hne|].
    split; [reflexivity|]. intros err Hne. now contradiction Hne.
  - rewrite (forwardRequest_not_forwarded core w r Hheader).
    eexists. split; [reflexivity|]. split.
    + intros handler' forward.
      rewrite (forwardRequest_not_forwarded _ w r Hheader).
      unfold respondStandby. cbn [Leader]. now rewrite Hleader.
    + split; [|split].
      * intros leader Hne Hparse.
        now apply (respondStandby_redirects core w (Request_URL r) false
                     leaderAddr clusterAddr leader).
      * intros ->. discriminate.
      * intros err Hne Hparse.
        now apply (respondStandby_unparsable core w (Request_URL r) false
                     leaderAddr clusterAddr err).
Qed.

End WithEnv.

(** A standby whose leader advertises an address without a scheme. *)
#[local] Instance exampleEnv : Env := {|
  url_Parse rawURL :=
    if (rawURL =? "//leader.example:8200")%string
    then inl {| Scheme := ""; Host := "leader.example:8200"; Path := "";
                RawQuery := "" |}
    else inr (errors_New "parse: invalid URL");
  URL_String u :=
    (Scheme u ++ "://" ++ Host u ++ Path u
       ++ (if (RawQuery u =? "")%string then "" else "?" ++ RawQuery u))%string;
  alwaysRedirectPaths_HasPath path :=
    strings.HasPrefix path "sys/storage/raft/snapshot"
|}.

Definition exampleStandby : Core :=
  {| Leader := (false, "//leader.example:8200", "", None);
     ForwardRequest := fun _ => (200%Z, [], "", None) |}.

Definition exampleRequest : Request :=
  {| Request_Header := [("X-Vault-No-Request-Forwarding", ["true"])];
     Request_URL := {| Scheme := ""; Host := ""; Path := "/v1/secret/data/k";
                       RawQuery := "version=2" |} |}.

Definition emptyResponse : ResponseWriter :=
  {| Response_Header := []; StatusCode := None; Body := "" |}.

Lemma standby_redirects_without_forwarding_witness :
  exists w',
    handleRequestForwarding exampleStandby (fun w _ => WriteHeader w 204)
                            emptyResponse exampleRequest
    = Returned (w', false) /\
    StatusCode w' = Some 307%Z /\
    Header_Get (Response_Header w') "Location"
    = "https://leader.example:8200/v1/secret/data/k?version=2".
Proof.
  destruct (@standby_redirects_without_forwarding exampleEnv exampleStandby
              (fun w _ => WriteHeader w 204) emptyResponse exampleRequest
              "//leader.example:8200" "")
    as [w' [Hret [_ [Hredirect _]]]].
  - vm_compute. discriminate.
  - reflexivity.
  - exists w'. split; [exact Hret|].
    apply (Hredirect {| Scheme := ""; Host := "leader.example:8200"; Path := "";
                        RawQuery := "" |}).
    + discriminate.
    + reflexivity.
Defined.

(** A standby that knows no leader address, and one whose leader advertises
    an address that does not parse. *)
Definition leaderless : Core :=
  {| Leader := (false, "", "", None);
     ForwardRequest := fun _ => (200%Z, [], "", None) |}.

Definition misadvertised : Core :=
  {| Leader := (false, "leader.example:8200", "", None);
     ForwardRequest := fun _ => (200%Z, [], "", None) |}.

(** C8 as stated fails: with the header set and no leader address known, the
    node answers 500, not 503; and with a leader address that does not parse
    it answers 500, not 307. *)
Lemma standby_without_leader_answers_500 :
  Header_Get (Request_Header exampleRequest) NoRequestForwardingHeaderName <> ""
  /\ (exists w',
         handleRequestForwarding leaderless (fun w _ => WriteHeader w 204)
                                 emptyResponse exampleRequest
         = Returned (w', false)
         /\ StatusCode w' = Some 500%Z
         /\ StatusCode w' <> Some StatusServiceUnavailable)
  /\ (exists w',
         handleRequestForwarding misadvertised (fun w _ => WriteHeader w 204)
                                 emptyResponse exampleRequest
         = Returned (w', false)
         /\ StatusCode w' = Some 500%Z
         /\ StatusCode w' <> Some StatusTemporaryRedirect).
Proof.
  split; [vm_compute; discriminate|]. split.
  - eexists. split; [vm_compute; reflexivity|]. split; [reflexivity|].
    vm_compute. discriminate.
  - eexists. split; [vm_compute; reflexivity|]. split; [reflexivity|].
    vm_compute. discriminate.
Qed.

End HttpFacts.

(** ** Initialization and the barrier *)

Module InitFacts.

Import vault.

Ltac split_result :=
  repeat match goal with
         | |- context [let '(_, _) := ?x in _] => destruct x
         | |- context [match ?x with _ => _ end] => destruct x
         end.

Section WithEnv.

Variable env : Env.

(** Whatever happens once the barrier is unsealed, the deferred
    [c.barrier.Seal()] runs when [initializeInternal] returns; before the
    unseal nothing touches the barrier's seal. *)
Lemma initializeBarrier_sealed c initParams barrierConfig recoverySupported :
  barrierSealed c = true ->
  barrierSealed (fst (initializeBarrier env c initParams barrierConfig
                                        recoverySupported)) = true.
Proof.
  intros Hc. unfold initializeBarrier.
  destruct (seal_Init env); [exact Hc|].
  destruct (generateShares env barrierConfig 0) as [[barrierKey shares]|err];
    [|exact Hc].
  match goal with
  | |- context [match ?seal with inl _ => _ | inr _ => _ end] =>
      destruct seal as [[sealKey sealShares]|err]
  end; [|exact Hc].
  unfold barrier_Initialize.
  destruct (barrier_Initialize_err env); [exact Hc|].
  unfold barrier_Unseal; simpl.
  destruct (barrier_Unseal_err env); [exact Hc|].
  unfold barrier_Seal. split_result; reflexivity.
Qed.

Lemma initializeLocked_sealed c initParams barrierConfig recoverySupported :
  barrierSealed c = true ->
  barrierSealed (fst (initializeLocked env c initParams barrierConfig
                                       recoverySupported)) = true.
Proof.
  intros Hc. unfold initializeLocked.
  destruct (ha env); [|now apply initializeBarrier_sealed].
  destruct (GenerateUUID env); [exact Hc|].
  destruct (LockWith env); [exact Hc|].
  destruct (lock_Lock env); [exact Hc|].
  destruct (InitializedLocally env 1) as [[|] [err|]]; try exact Hc.
  pose proof (initializeBarrier_sealed
                (set_locks c (stateLock c) true) initParams barrierConfig
                recoverySupported Hc) as H.
  destruct (initializeBarrier env (set_locks c (stateLock c) true) initParams
                              barrierConfig recoverySupported) as [c' res].
  simpl in H |- *. now destruct (lock_Unlock env).
Qed.

Lemma initializeChecked_sealed c initParams barrierConfig recoverySupported :
  barrierSealed c = true ->
  barrierSealed (fst (initializeChecked env c initParams barrierConfig
                                        recoverySupported)) = true.
Proof.
  intros Hc. unfold initializeChecked.
  destruct (Initialized env 0) as [[|] [err|]]; try exact Hc.
  destruct (raftBackend env); [|now apply initializeLocked_sealed].
  destruct (RaftBootstrap env); [exact Hc|].
  pose proof (initializeLocked_sealed
                (set_raftCluster c true) initParams barrierConfig
                recoverySupported Hc) as H.
  destruct (initializeLocked env (set_raftCluster c true) initParams
                             barrierConfig recoverySupported) as [c' res].
  simpl in H |- *. now destruct (TeardownCluster env).
Qed.

Lemma initializeInternal_sealed c initParams :
  barrierSealed c = true ->
  barrierSealed (fst (initializeInternal env c initParams)) = true.
Proof.
  intros Hc. unfold initializeInternal.
  match goal with
  | |- context [match ?v with inl _ => _ | inr _ => _ end] =>
      destruct v as [[barrierConfig recoverySupported]|err]
  end; [|exact Hc].
  pose proof (initializeChecked_sealed
                (set_locks (set_initInProgress c true) true
                           (initLock (set_initInProgress c true)))
                initParams barrierConfig recoverySupported Hc) as H.
  destruct (initializeChecked env _ initParams barrierConfig recoverySupported)
    as [c' res].
  exact H.
Qed.

(** [UnsealWithStoredKeys] is the one call of [Initialize] after
    [initializeInternal]. *)
Definition unsealsWithStoredKeys : Prop :=
  RecoveryKeySupported env = true
  /\ exists recoveryConfig,
       seal_RecoveryConfig env = inl recoveryConfig
       /\ SealConfig.SecretShares recoveryConfig = 0%Z.

(** C9, as the code has it: with the barrier sealed at the start,
    [initializeInternal] returns with the barrier sealed on the success
    path and on every error path, the deferred [c.barrier.Seal()] undoing
    the unseal; [Initialize] returns with the barrier sealed as well, unless
    the initialization succeeded, the seal supports recovery keys and the
    stored recovery configuration has no shares, in which case it goes on
    to [UnsealWithStoredKeys]. *)
Theorem Initialize_reseals :
  forall c initParams,
    barrierSealed c = true ->
    barrierSealed (fst (initializeInternal env c initParams)) = true
    /\ (barrierSealed (fst (Initialize env c initParams)) = false ->
        unsealsWithStoredKeys
        /\ exists results, snd (initializeInternal env c initParams) = inl results).
Proof.
  intros c initParams Hc.
  pose proof (initializeInternal_sealed c initParams Hc) as H.
  split; [exact H|].
  unfold Initialize.
  destruct (initializeInternal env c initParams) as [c' [results|err]];
    simpl in H |- *; [|congruence].
  unfold unsealsWithStoredKeys.
  destruct (RecoveryKeySupported env); [|simpl; congruence].
  destruct (seal_RecoveryConfig env) as [recoveryConfig|err]; [|simpl; congruence].
  destruct (SealConfig.SecretShares recoveryConfig =? 0)%Z eqn:Hshares;
    [|simpl; congruence].
  intros _. apply Z.eqb_eq in Hshares.
  split; [split; [reflexivity|now exists recoveryConfig]|now exists results].
Qed.

End WithEnv.

(** An auto-unseal seal with stored keys and a recovery configuration
    without shares; every call succeeds. *)
Definition autoUnseal : Env :=
  {| StoredKeysSupported := StoredKeysSupportedGeneric;
     RecoveryKeySupported := true;
     BarrierType := WrapperTypeOther "static";
     Validate := fun _ => None;
     ValidateRecovery := fun _ => None;
     barrier_Initialized := fun _ => (false, None);
     seal_BarrierConfig := fun _ => (None, None);
     isRaftUnseal := false;
     raftBackend := false;
     raftBackend_Initialized := false;
     RaftBootstrap := None;
     TeardownCluster := None;
     ha := false;
     GenerateUUID := None;
     LockWith := None;
     lock_Lock := None;
     lock_Unlock := None;
     seal_Init := None;
     barrier_GenerateKey := fun _ => inl "root-key";
     shamir_Split := fun key _ _ => inl [key];
     hex_EncodeToString := fun b => b;
     pgpkeys_EncryptShares := fun shares _ => inl shares;
     base64_EncodeToString := fun b => b;
     barrier_Initialize_err := None;
     barrier_Unseal_err := None;
     seal_SetBarrierConfig := None;
     seal_GetShamirWrapper := None;
     SetAesGcmKeyBytes := None;
     seal_SetStoredKeys := None;
     setupCluster := None;
     postUnseal := None;
     seal_SetRecoveryConfig := None;
     seal_SetRecoveryKey := None;
     rootToken := inl "s.root";
     raftCreateTLSKeyring := None;
     preSeal := None;
     serviceRegistration := false;
     seal_RecoveryConfig := inl (SealConfig.mk 0 0 0 []);
     inSealMigration := false;
     seal_GetStoredKeys := inl ["root-key"];
     unsealInternal_result := fun _ => (None, true) |}.

Definition uninitialized : Core :=
  {| initInProgress := false; stateLock := false; initLock := false;
     raftCluster := false; barrierInitialized := false; barrierSealed := true;
     sealed := true; active := false; sealBarrierConfig := None;
     sealRecoveryConfig := None; sealRecoveryKey := None; storedKeys := [];
     notifiedInitialized := false |}.

Definition autoUnsealParams : InitParams :=
  {| BarrierConfig := SealConfig.mk 1 1 1 [];
     RecoveryConfig := Some (SealConfig.mk 0 0 0 []);
     RootTokenPGPKey := "" |}.

(** C9 as stated fails: with an auto-unseal seal and no recovery shares,
    [Initialize] succeeds and returns with the barrier unsealed. *)
Lemma Initialize_leaves_unsealed :
  exists c results,
    Initialize autoUnseal uninitialized autoUnsealParams = (c, inl results)
    /\ barrierSealed uninitialized = true
    /\ barrierSealed c = false.
Proof. eexists. eexists. vm_compute. repeat split. Qed.

Lemma Initialize_reseals_witness :
  barrierSealed (fst (initializeInternal autoUnseal uninitialized autoUnsealParams))
  = true
  /\ (barrierSealed (fst (Initialize autoUnseal uninitialized autoUnsealParams))
      = false ->
      unsealsWithStoredKeys autoUnseal
      /\ exists results,
           snd (initializeInternal autoUnseal uninitialized autoUnsealParams)
           = inl results).
Proof.
  apply (Initialize_reseals autoUnseal uninitialized autoUnsealParams).
  reflexivity.
Defined.

End InitFacts.

(** ** Snapshot installation *)

Module RestoreFacts.

Import raft.

Lemma Get_insert (b : bolt.Bucket) (key : string) (value : bytes) :
  bolt.Get (bolt.insert key value b) key = Some value.
Proof.
  induction b as [|[k v] b IH]; simpl.
  - now rewrite String.eqb_refl.
  - destruct (key <? k)%string; simpl; [now rewrite String.eqb_refl|].
    destruct (key =? k)%string eqn:Hk; simpl; [now rewrite String.eqb_refl|].
    rewrite String.eqb_sym, Hk. exact IH.
Qed.

Lemma Get_insert_other (b : bolt.Bucket) (key key' : string) (value : bytes) :
  key' <> key ->
  bolt.Get (bolt.insert key value b) key' = bolt.Get b key'.
Proof.
  intros Hne. apply String.eqb_neq in Hne.
  induction b as [|[k v] b IH]; simpl.
  - now rewrite String.eqb_sym, Hne.
  - destruct (key <? k)%string; simpl; [now rewrite String.eqb_sym, Hne|].
    destruct (key =? k)%string eqn:Hk; simpl.
    + apply String.eqb_eq in Hk. subst k.
      now rewrite !(String.eqb_sym key key'), Hne.
    + destruct (k =? key')%string; [reflexivity|exact IH].
Qed.

Lemma Put_inv (b b' : bolt.Bucket) (key : string) (value : bytes) :
  bolt.Put b key value = inl b' -> b' = bolt.insert key value b.
Proof.
  unfold bolt.Put.
  repeat match goal with
         | |- (if ?c then _ else _) = _ -> _ => destruct c
         end; intros H; now inversion H.
Qed.

Section WithCodec.

Context {codec : Codec}.

(** The reader is the snapshot installer, directly or wrapped once. *)
Definition installs (r : ReadCloser) (i : boltSnapshotInstaller) : Prop :=
  r = SnapshotInstaller i \/ r = ReadCloserWrapper (SnapshotInstaller i).

Lemma openDBFile_db io f f' :
  openDBFile io f = (f', None) ->
  closed (db f') = false /\ data (db f') = data (db f)
  /\ config (db f') = config (db f) /\ desiredSuffrage f' = desiredSuffrage f.
Proof.
  unfold openDBFile. cbv zeta. intros H.
  destruct (openErr io); [discriminate|].
  destruct (bolt.Get (config (db f)) latestIndexKey) as [val|];
    [destruct (Unmarshal_IndexValue val); [|discriminate]|];
    simpl in H;
    (destruct (bolt.Get (config (db f)) latestConfigKey) as [val'|];
     [destruct (Unmarshal_ConfigurationValue val'); [|discriminate]|]);
    inversion H; subst; simpl; auto.
Qed.

Lemma append_err_nil retErr r before f' :
  append_err retErr r before = (f', []) -> retErr = [] /\ r = (f', None).
Proof.
  unfold append_err. destruct r as [f0 [err|]]; intros H; inversion H; subst.
  - destruct retErr; discriminate.
  - now split.
Qed.

(** C6: a restore that installs a snapshot and returns no error persists
    the node-local configuration entry again.  The entry
    [local_node_config] that the config bucket held before is decoded
    before the database file is closed; after the installer's file has
    replaced the database file and the file is open again, the entry is
    encoded and put into the config bucket of the installed database, and
    the FSM's desired suffrage is the one of the entry.  The data bucket
    and every other key of the config bucket are those of the snapshot. *)
Theorem Restore_keeps_local_node_config :
  forall io f r i f' configBytes,
    noopRestore f = false ->
    installs r i ->
    bolt.Get (config (db f)) localNodeConfigKey = Some configBytes ->
    Restore io f r = (f', []) ->
    exists lnConfig dsBytes,
      Unmarshal_LocalNodeConfigValue configBytes = inl lnConfig /\
      Marshal_LocalNodeConfigValue lnConfig = inl dsBytes /\
      closed (db f') = false /\
      bolt.Get (config (db f')) localNodeConfigKey = Some dsBytes /\
      desiredSuffrage f' = DesiredSuffrage lnConfig /\
      data (db f') = snapshot_data i /\
      (forall key,
          key <> localNodeConfigKey ->
          bolt.Get (config (db f')) key = bolt.Get (snapshot_config i) key).
Proof.
  intros io f r i f' configBytes Hnoop Hr Hget Hrestore.
  unfold Restore in Hrestore. rewrite Hnoop in Hrestore.
  assert (Hasserted :
            match r with
            | SnapshotInstaller i => inl i
            | ReadCloserWrapper (SnapshotInstaller i) => inl i
            | ReadCloserWrapper (ReadCloserWrapper _) =>
                inr (errors_New "expected snapshot installer object, got: raft.ReadCloserWrapper")
            | ReadCloserWrapper (OtherReadCloser t) =>
                inr (errors_New ("expected snapshot installer object, got: " ++ t))
            | OtherReadCloser t =>
                inr (errors_New ("expected ReadCloserWrapper object, got: " ++ t))
            end = inl i :> (boltSnapshotInstaller + error))
    by (destruct Hr as [->| ->]; reflexivity).
  cbv zeta in Hrestore. rewrite Hasserted in Hrestore. clear Hasserted.
  unfold localNodeConfig in Hrestore.
  destruct (closed (db f)); [discriminate|].
  rewrite Hget in Hrestore.
  destruct (Unmarshal_LocalNodeConfigValue configBytes) as [lnConfig|err];
    [|discriminate].
  destruct (closeErr io); [discriminate|].
  match type of Hrestore with
  | context [append_err [] ?x ?m] =>
      destruct (append_err [] x m) as [fa ra] eqn:Ha
  end.
  match type of Hrestore with
  | context [append_err ra ?x ?m] =>
      destruct (append_err ra x m) as [fb rb] eqn:Hb
  end.
  apply append_err_nil in Hrestore as [-> Hpersist].
  apply append_err_nil in Hb as [-> Hopen].
  apply append_err_nil in Ha as [_ Hinstall].
  unfold Install in Hinstall.
  destruct (installErr i); [discriminate|].
  inversion Hinstall; subst fa. clear Hinstall.
  rename fb into f1. rename Hpersist into Hrestore.
  apply openDBFile_db in Hopen. simpl in Hopen.
  destruct Hopen as [Hclosed [Hdata [Hconfig Hsuffrage]]].
  unfold persistDesiredSuffrage in Hrestore.
  destruct (Marshal_LocalNodeConfigValue lnConfig) as [dsBytes|err] eqn:Hmarshal;
    [|discriminate].
  rewrite Hclosed in Hrestore.
  destruct (bolt.Put (config (db f1)) localNodeConfigKey dsBytes)
    as [configB|err] eqn:Hput; [|discriminate].
  inversion Hrestore; subst f'. clear Hrestore.
  apply Put_inv in Hput. subst configB.
  exists lnConfig, dsBytes. simpl.
  split; [reflexivity|]. split; [exact Hmarshal|]. split; [reflexivity|].
  split; [apply Get_insert|]. split; [exact Hsuffrage|]. split; [exact Hdata|].
  intros key Hkey. rewrite Get_insert_other by exact Hkey. now rewrite Hconfig.
Qed.

End WithCodec.

Import Examples.
#[local] Existing Instance codec.

(** A non-voter restores from a snapshot whose file holds two entries. *)
Definition nonVoter : FSM :=
  {| latestIndex := 7; latestTerm := 2; latestConfig := None;
     noopRestore := false;
     db := {| closed := false; data := [("old", "entry")];
              config := [("local_node_config", "non-voter")] |};
     restoreCb := false; restoreCbStarted := 0; localID := "node2";
     desiredSuffrage := "non-voter"; unknownOpTypes := [];
     fastTxnTracker := [] |}.

Definition exampleSnapshot : boltSnapshotInstaller :=
  {| snapshot_data := [("a", "1"); ("b", "2")];
     snapshot_config := [("latest_config", "c"); ("latest_indexes", "i")];
     installErr := None |}.

Definition noFailure : RestoreIO := {| closeErr := None; openErr := None |}.

Lemma Restore_keeps_local_node_config_witness :
  exists f',
    Restore noFailure nonVoter (ReadCloserWrapper (SnapshotInstaller exampleSnapshot))
    = (f', []) /\
    exists lnConfig dsBytes,
      Unmarshal_LocalNodeConfigValue "non-voter" = inl lnConfig /\
      Marshal_LocalNodeConfigValue lnConfig = inl dsBytes /\
      closed (db f') = false /\
      bolt.Get (config (db f')) localNodeConfigKey = Some dsBytes /\
      desiredSuffrage f' = DesiredSuffrage lnConfig /\
      data (db f') = snapshot_data exampleSnapshot /\
      (forall key,
          key <> localNodeConfigKey ->
          bolt.Get (config (db f')) key
          = bolt.Get (snapshot_config exampleSnapshot) key).
Proof.
  eexists. split; [vm_compute; reflexivity|].
  apply (@Restore_keeps_local_node_config codec noFailure nonVoter
           (ReadCloserWrapper (SnapshotInstaller exampleSnapshot))
           exampleSnapshot _ "non-voter").
  - reflexivity.
  - right. reflexivity.
  - reflexivity.
  - vm_compute. reflexivity.
Defined.

End RestoreFacts.

(** ** Listing *)

Module ListFacts.

Import raft strings StringOrder.

(** *** The listing in the words of the specification *)

(** The name under which a key is listed: what follows the prefix, cut
    after its first [/] when it has one. *)
Definition resultName (prefix k : string) : string :=
  let key := TrimPrefix k prefix in
  match IndexByte key "/" with
  | None => key
  | Some i => slice_to (i + 1) key
  end.

(** A folder name holds a [/]. *)
Definition isFolder (name : string) : bool :=
  match IndexByte name "/" with
  | Some _ => true
  | None => false
  end.

(** Consecutive duplicates of a folder name are suppressed; [prev] is the
    name kept last. *)
Fixpoint suppress (prev : option string) (names : list string) : list string :=
  match names with
  | [] => []
  | n :: rest =>
      if isFolder n && match prev with
                       | Some p => (p =? n)%string
                       | None => false
                       end
      then suppress prev rest
      else n :: suppress (Some n) rest
  end.

(** The keys of the bucket with the prefix. *)
Definition matching (data : bolt.Bucket) (prefix : string) : list string :=
  filter (fun k => HasPrefix k prefix) (bolt.keys data).

(** The claim as the specification states it: the names strictly greater
    than [after], in order, without consecutive duplicate folders,
    truncated to [limit]; and the position of the seek. *)
Definition spec_ListPage (data : bolt.Bucket) (prefix after : string) (limit : Z)
  : list string :=
  firstn (Z.to_nat limit)
         (suppress None
            (filter (fun n => (after <? n)%string)
                    (map (resultName prefix) (matching data prefix)))).

Definition spec_seek (prefix after : string) : string := (prefix ++ after)%string.

(** What the code lists: with an empty [after] every name, otherwise the
    names strictly greater than [after]. *)
Definition listed (after name : string) : bool :=
  (after =? "")%string || (after <? name)%string.

Definition allListed (data : bolt.Bucket) (prefix after : string) : list string :=
  suppress None
           (filter (listed after)
                   (map (resultName prefix) (matching data prefix))).

(** Pagination: pages of [K] names are asked for, each after the last name
    of the page before, until a page is empty; the pages before the empty
    one are returned.  [fuel] bounds the number of calls. *)
Fixpoint paginate (fuel : nat) (data : bolt.Bucket) (prefix : string) (K : Z)
         (after : string) : option (list (list string)) :=
  match fuel with
  | O => None
  | S fuel =>
      match listPageInner data prefix after K with
      | [] => Some []
      | page =>
          option_map (cons page) (paginate fuel data prefix K (last page ""))
      end
  end.

(** *** Names *)

(** The name of a trimmed key, by recursion on the key. *)
Fixpoint collapse (key : string) : string :=
  match key with
  | EmptyString => EmptyString
  | String c rest =>
      if Ascii.eqb c "/" then String c EmptyString
      else String c (collapse rest)
  end.

Lemma slice_to_S (n : nat) (c : ascii) (s : string) :
  slice_to (S n) (String c s) = String c (slice_to n s).
Proof. reflexivity. Qed.

Lemma collapse_spec (key : string) :
  collapse key = match IndexByte key "/" with
                 | None => key
                 | Some i => slice_to (i + 1) key
                 end.
Proof.
  induction key as [|c key IH]; simpl; [reflexivity|].
  destruct (Ascii.eqb c "/").
  - simpl. unfold slice_to. simpl. now destruct key.
  - rewrite IH. destruct (IndexByte key "/"); simpl; [|reflexivity].
    now rewrite slice_to_S.
Qed.

Lemma resultName_collapse (prefix k : string) :
  resultName prefix k = collapse (TrimPrefix k prefix).
Proof. unfold resultName. now rewrite collapse_spec. Qed.

Lemma isFolder_collapse (key : string) :
  isFolder (collapse key) = isFolder key.
Proof.
  unfold isFolder. induction key as [|c key IH]; simpl; [reflexivity|].
  destruct (Ascii.eqb c "/") eqn:Hc; simpl; rewrite Hc; [reflexivity|].
  destruct (IndexByte (collapse key) "/"), (IndexByte key "/");
    simpl; congruence.
Qed.

(** A name is a prefix of its key. *)
Lemma collapse_prefix (key : string) :
  exists rest, key = (collapse key ++ rest)%string.
Proof.
  induction key as [|c key [rest IH]]; simpl.
  - now exists "".
  - destruct (Ascii.eqb c "/").
    + now exists key.
    + exists rest. simpl. now rewrite <- IH.
Qed.

Lemma collapse_leb (key : string) : (collapse key <=? key)%string = true.
Proof.
  destruct (collapse_prefix key) as [rest H].
  rewrite H at 2. apply leb_app_r.
Qed.

(** Names grow with their keys, and only a folder is the name of two
    keys. *)
Lemma collapse_mono (s t : string) :
  (s <? t)%string = true ->
  (collapse s <? collapse t)%string = true
  \/ (collapse s = collapse t /\ isFolder (collapse s) = true).
Proof.
  unfold String.ltb. revert t.
  induction s as [|a s IH]; intros [|b t]; simpl; try discriminate.
  - intros _. left. now destruct (Ascii.eqb b "/").
  - destruct (Ascii.compare a b) eqn:Hab; try discriminate.
    + apply Ascii.compare_eq_iff in Hab. subst b. intros H.
      destruct (Ascii.eqb a "/") eqn:Ha.
      * right. split; [reflexivity|]. unfold isFolder. simpl. now rewrite Ha.
      * destruct (IH t H) as [Hlt|[Heq Hf]].
        -- left. simpl. now rewrite ascii_compare_refl.
        -- right. split; [now rewrite Heq|].
           unfold isFolder in *. simpl. rewrite Ha.
           now destruct (IndexByte (collapse s) "/").
    + intros _. left.
      destruct (Ascii.eqb a "/"), (Ascii.eqb b "/"); simpl; now rewrite Hab.
Qed.

(** *** The cursor loop *)

#[local] Arguments isFolder : simpl never.
#[local] Arguments collapse : simpl never.
#[local] Arguments listed : simpl never.
#[local] Arguments TrimPrefix : simpl never.
#[local] Arguments HasPrefix : simpl never.
#[local] Arguments IndexByte : simpl never.

Definition lastOpt (keys : list string) : option string :=
  match keys with
  | [] => None
  | _ => Some (last keys "")
  end.

Lemma lastOpt_app (keys : list string) (key : string) :
  lastOpt (keys ++ [key]) = Some key.
Proof.
  unfold lastOpt. rewrite last_last. now destruct keys.
Qed.

Lemma IndexByte_collapse_folder (key : string) (i : nat) :
  IndexByte key "/" = Some i -> isFolder (collapse key) = true.
Proof.
  intros H. rewrite isFolder_collapse. unfold isFolder. now rewrite H.
Qed.

Lemma IndexByte_collapse_plain (key : string) :
  IndexByte key "/" = None -> isFolder (collapse key) = false.
Proof.
  intros H. rewrite isFolder_collapse. unfold isFolder. now rewrite H.
Qed.

Lemma skipped_not_listed (after name : string) :
  negb (after =? "")%string && (name <=? after)%string = negb (listed after name).
Proof.
  unfold listed. rewrite leb_ltb, negb_orb. reflexivity.
Qed.

Lemma suppress_cons prev n rest :
  suppress prev (n :: rest)
  = if isFolder n && match prev with
                     | Some p => (p =? n)%string
                     | None => false
                     end
    then suppress prev rest
    else n :: suppress (Some n) rest.
Proof. reflexivity. Qed.

Lemma lastOpt_last (keys : list string) :
  keys <> [] -> lastOpt keys = Some (last keys "").
Proof. destruct keys; [contradiction|reflexivity]. Qed.

(** Without a limit, the loop over keys that all have the prefix adds the
    listed names to the result, a folder once. *)
Lemma listPageLoop_unlimited prefix after ks :
  forall keys,
    Forall (fun k => HasPrefix k prefix = true) ks ->
    listPageLoop prefix after (-1) ks keys
    = keys ++ suppress (lastOpt keys)
                       (filter (listed after) (map (resultName prefix) ks)).
Proof.
  induction ks as [|k ks IH]; intros keys Hks; simpl.
  - now rewrite app_nil_r.
  - inversion Hks as [|? ? Hk Hks']; subst. rewrite Hk. simpl.
    rewrite resultName_collapse.
    assert (Hname := collapse_spec (TrimPrefix k prefix)).
    set (name := collapse (TrimPrefix k prefix)) in *.
    assert (Hfolder : isFolder name
                      = match IndexByte (TrimPrefix k prefix) "/" with
                        | Some _ => true
                        | None => false
                        end)
      by (unfold name; now rewrite isFolder_collapse).
    destruct (IndexByte (TrimPrefix k prefix) "/") as [i|];
      rewrite <- Hname, skipped_not_listed;
      destruct (listed after name) eqn:Hl; cbn [negb];
      rewrite ?suppress_cons, ?Hfolder; cbn [andb].
    + destruct keys as [|key0 keys0] eqn:Hkeys.
      * cbn. rewrite IH by exact Hks'. reflexivity.
      * rewrite <- Hkeys in *.
        assert (Hne : keys <> []) by (subst; discriminate).
        rewrite (lastOpt_last keys Hne).
        replace (length keys =? 0)%nat with false
          by (destruct keys; [contradiction|reflexivity]).
        cbn [orb].
        destruct (last keys "" =? name)%string; cbn [negb].
        -- rewrite IH by exact Hks'. now rewrite (lastOpt_last keys Hne).
        -- rewrite IH by exact Hks'. rewrite lastOpt_app, <- app_assoc.
           reflexivity.
    + destruct ((length keys =? 0)%nat || negb (last keys "" =? name)%string);
        now rewrite IH by exact Hks'.
    + rewrite IH by exact Hks'. rewrite lastOpt_app, <- app_assoc. reflexivity.
    + now rewrite IH by exact Hks'.
Qed.

(** The loop ends at the first key without the prefix. *)
Fixpoint whilePrefix (prefix : string) (ks : list string) : list string :=
  match ks with
  | [] => []
  | k :: rest => if HasPrefix k prefix then k :: whilePrefix prefix rest else []
  end.

Lemma whilePrefix_all prefix ks :
  Forall (fun k => HasPrefix k prefix = true) (whilePrefix prefix ks).
Proof.
  induction ks as [|k ks IH]; simpl; [constructor|].
  destruct (HasPrefix k prefix) eqn:Hk; [now constructor|constructor].
Qed.

Lemma listPageLoop_whilePrefix prefix after limit ks :
  forall keys,
    listPageLoop prefix after limit ks keys
    = listPageLoop prefix after limit (whilePrefix prefix ks) keys.
Proof.
  induction ks as [|k ks IH]; intros keys; simpl; [reflexivity|].
  destruct (HasPrefix k prefix) eqn:Hk; simpl; [|reflexivity].
  rewrite Hk. simpl.
  destruct ((limit >? 0)%Z && (Z.of_nat (length keys) >=? limit)%Z);
    [reflexivity|].
  destruct (IndexByte (TrimPrefix k prefix) "/"); repeat rewrite <- IH;
    reflexivity.
Qed.

(** The result grows at its end. *)
Lemma listPageLoop_extends prefix after limit ks :
  forall keys,
    exists more, listPageLoop prefix after limit ks keys = keys ++ more.
Proof.
  induction ks as [|k ks IH]; intros keys; simpl.
  - exists []. now rewrite app_nil_r.
  - assert (Hself : exists more, keys = keys ++ more)
      by (exists []; now rewrite app_nil_r).
    assert (Hext : forall x,
               exists more,
                 listPageLoop prefix after limit ks (keys ++ [x]) = keys ++ more).
    { intros x. destruct (IH (keys ++ [x])) as [more Hmore].
      exists (x :: more). rewrite Hmore, <- app_assoc. reflexivity. }
    repeat match goal with
           | |- exists more, (if ?c then _ else _) = _ => destruct c
           | |- exists more, match ?x with _ => _ end = _ => destruct x
           end; auto.
Qed.

(** A positive limit truncates the result of the loop without a limit. *)
Lemma listPageLoop_limit prefix after limit ks :
  (0 < limit)%Z ->
  forall keys,
    (Z.of_nat (length keys) <= limit)%Z ->
    listPageLoop prefix after limit ks keys
    = firstn (Z.to_nat limit) (listPageLoop prefix after (-1) ks keys).
Proof.
  intros Hlimit.
  assert (Hfit : forall keys : list string,
             (Z.of_nat (length keys) <= limit)%Z ->
             keys = firstn (Z.to_nat limit) keys).
  { intros keys Hlen. symmetry. apply firstn_all2. lia. }
  induction ks as [|k ks IH]; intros keys Hlen; simpl.
  - now apply Hfit.
  - destruct (negb (HasPrefix k prefix)); [now apply Hfit|].
    replace (limit >? 0)%Z with true by (symmetry; apply Z.gtb_lt; lia).
    simpl.
    destruct (Z.of_nat (length keys) >=? limit)%Z eqn:Hfull.
    + (* the limit is reached: the rest of the loop only adds at the end *)
      apply Z.geb_le in Hfull.
      match goal with
      | |- _ = firstn _ ?rest =>
          assert (Hmore : exists more, rest = keys ++ more)
      end.
      { assert (Hself : exists more, keys = keys ++ more)
          by (exists []; now rewrite app_nil_r).
        assert (Hext : forall x,
                   exists more,
                     listPageLoop prefix after (-1) ks (keys ++ [x])
                     = keys ++ more).
        { intros x.
          destruct (listPageLoop_extends prefix after (-1) ks (keys ++ [x]))
            as [more Hmore].
          exists (x :: more). rewrite Hmore, <- app_assoc. reflexivity. }
        repeat match goal with
               | |- exists more, (if ?c then _ else _) = _ => destruct c
               | |- exists more, match ?x with _ => _ end = _ => destruct x
               end; auto using listPageLoop_extends. }
      destruct Hmore as [more ->].
      replace (Z.to_nat limit) with (length keys + 0) by lia.
      rewrite firstn_app_2. simpl. now rewrite app_nil_r.
    + assert (Hroom : forall x,
                 (Z.of_nat (length (keys ++ [x])) <= limit)%Z).
      { intros x. rewrite length_app. simpl.
        rewrite Z.geb_leb in Hfull. apply Z.leb_gt in Hfull. lia. }
      repeat match goal with
             | |- (if ?c then _ else _) = _ => destruct c
             | |- match ?x with _ => _ end = _ => destruct x
             end; apply IH; auto.
Qed.

(** *** The seek *)

Lemma increasing_cons k ks :
  bolt.increasing (k :: ks) = true ->
  bolt.increasing ks = true /\ Forall (fun k' => (k <? k')%string = true) ks.
Proof.
  revert k. induction ks as [|k' ks IH]; intros k H.
  - split; [reflexivity|constructor].
  - simpl in H. apply andb_true_iff in H as [Hk H].
    split; [exact H|].
    constructor; [exact Hk|].
    destruct (IH k' H) as [_ Hall].
    eapply Forall_impl; [|exact Hall].
    intros x Hx. now apply (ltb_trans k k' x).
Qed.

Lemma Seek_split ks seek :
  exists before,
    ks = before ++ bolt.Seek ks seek
    /\ Forall (fun k => (k <? seek)%string = true) before.
Proof.
  induction ks as [|k ks [before [Hks Hbefore]]]; simpl.
  - exists []. split; [reflexivity|constructor].
  - destruct (k <? seek)%string eqn:Hk.
    + exists (k :: before). split; [simpl; now rewrite <- Hks|now constructor].
    + exists []. split; [reflexivity|constructor].
Qed.

Lemma Seek_increasing ks seek :
  bolt.increasing ks = true ->
  bolt.increasing (bolt.Seek ks seek) = true
  /\ Forall (fun k => (seek <=? k)%string = true) (bolt.Seek ks seek).
Proof.
  induction ks as [|k ks IH]; intros Hinc.
  - split; [reflexivity|constructor].
  - destruct (increasing_cons k ks Hinc) as [Hks Hall].
    cbn [bolt.Seek]. destruct (k <? seek)%string eqn:Hk; [now apply IH|].
    split; [exact Hinc|].
    assert (Hle : (seek <=? k)%string = true) by (now rewrite leb_ltb, Hk).
    constructor; [exact Hle|].
    eapply Forall_impl; [|exact Hall].
    intros x Hx. apply ltb_leb_weak. now apply (leb_ltb_trans seek k x).
Qed.

Lemma HasPrefix_refl (p : string) : HasPrefix p p = true.
Proof. rewrite <- (append_nil_r p) at 1. apply HasPrefix_app. Qed.

Lemma seekPrefix_HasPrefix prefix after :
  HasPrefix (seekPrefix prefix after) prefix = true.
Proof.
  unfold seekPrefix.
  destruct (after =? "")%string; [apply HasPrefix_refl|].
  destruct (HasPrefix (filepath.Join prefix after) prefix) eqn:H; simpl;
    [exact H|apply HasPrefix_refl].
Qed.

(** From the seek on, the keys with the prefix come first. *)
Lemma filter_whilePrefix prefix seek ks :
  HasPrefix seek prefix = true ->
  bolt.increasing ks = true ->
  Forall (fun k => (seek <=? k)%string = true) ks ->
  filter (fun k => HasPrefix k prefix) ks = whilePrefix prefix ks.
Proof.
  intros Hseek. induction ks as [|k ks IH]; intros Hinc Hge; [reflexivity|].
  destruct (increasing_cons k ks Hinc) as [Hks Hall].
  inversion Hge as [|? ? Hk Hge']; subst.
  cbn [filter whilePrefix]. destruct (HasPrefix k prefix) eqn:Hp.
  - now rewrite IH.
  - (* the keys after [k] are above every key with the prefix *)
    destruct (HasPrefix_inv _ _ Hseek) as [t Ht].
    assert (Hpk : (prefix <=? k)%string = true).
    { apply (leb_trans prefix seek k); [|exact Hk].
      rewrite Ht. apply leb_app_r. }
    clear IH Hinc Hge Hge' Hks.
    induction ks as [|k' ks IH]; [reflexivity|].
    inversion Hall as [|? ? Hk' Hall']; subst.
    cbn [filter]. destruct (HasPrefix k' prefix) eqn:Hp'; [|now apply IH].
    exfalso. destruct (HasPrefix_inv _ _ Hp') as [t' ->].
    pose proof (above_prefix prefix k t' Hpk Hp) as Habove.
    pose proof (ltb_trans _ _ _ Habove Hk') as Hcontra.
    rewrite ltb_irrefl in Hcontra. discriminate.
Qed.

(** The keys before the seek are not listed. *)
Lemma before_seek_not_listed prefix after seek k :
  (seek <=? prefix ++ after)%string = true ->
  (k <? seek)%string = true ->
  HasPrefix k prefix = true ->
  listed after (resultName prefix k) = false.
Proof.
  intros Hseek Hk Hp. destruct (HasPrefix_inv _ _ Hp) as [t ->].
  rewrite resultName_collapse, TrimPrefix_app.
  assert (Hlt : (t <? after)%string = true).
  { rewrite <- (ltb_app prefix). now apply (ltb_leb_trans _ seek). }
  unfold listed. apply orb_false_iff. split.
  - apply String.eqb_neq. intros ->. now destruct t.
  - rewrite ltb_leb. apply negb_false_iff.
    apply ltb_leb_weak. apply (leb_ltb_trans _ t); [apply collapse_leb|exact Hlt].
Qed.

(** The listing without a limit: all the listed names, provided the seek
    is not beyond [prefix ++ after]. *)
Lemma listPageInner_unlimited data prefix after :
  bolt.increasing (bolt.keys data) = true ->
  (seekPrefix prefix after <=? prefix ++ after)%string = true ->
  listPageInner data prefix after (-1) = allListed data prefix after.
Proof.
  intros Hinc Hseek. unfold listPageInner, allListed, matching.
  set (seek := seekPrefix prefix after) in *.
  rewrite listPageLoop_whilePrefix.
  rewrite listPageLoop_unlimited by apply whilePrefix_all.
  cbn [app lastOpt]. f_equal.
  destruct (Seek_split (bolt.keys data) seek) as [before [Hks Hbefore]].
  destruct (Seek_increasing (bolt.keys data) seek Hinc) as [Hinc' Hge].
  rewrite <- (filter_whilePrefix prefix seek)
    by (try apply seekPrefix_HasPrefix; assumption).
  rewrite Hks at 2. rewrite filter_app, map_app, filter_app.
  replace (filter (listed after)
                  (map (resultName prefix)
                       (filter (fun k => HasPrefix k prefix) before)))
    with (@nil string); [reflexivity|].
  clear Hks. induction before as [|k before IH]; [reflexivity|].
  inversion Hbefore as [|? ? Hk Hbefore']; subst.
  cbn [filter]. destruct (HasPrefix k prefix) eqn:Hp; [|now apply IH].
  cbn [map filter].
  rewrite (before_seek_not_listed prefix after seek k Hseek Hk Hp).
  now apply IH.
Qed.

(** *** Pages *)

Lemma listPageLoop_nonpositive prefix after limit ks :
  (limit <= 0)%Z ->
  forall keys,
    listPageLoop prefix after limit ks keys
    = listPageLoop prefix after (-1) ks keys.
Proof.
  intros Hlimit. induction ks as [|k ks IH]; intros keys; [reflexivity|].
  cbn [listPageLoop].
  replace (limit >? 0)%Z with false
    by (symmetry; rewrite Z.gtb_ltb; apply Z.ltb_ge; lia).
  replace (-1 >? 0)%Z with false by reflexivity.
  cbn [andb].
  destruct (negb (HasPrefix k prefix)); [reflexivity|].
  destruct (IndexByte (TrimPrefix k prefix) "/"); rewrite ?IH; reflexivity.
Qed.

(** With a positive limit, the listing is truncated. *)
Lemma listPageInner_limited data prefix after limit :
  bolt.increasing (bolt.keys data) = true ->
  (0 < limit)%Z ->
  (seekPrefix prefix after <=? prefix ++ after)%string = true ->
  listPageInner data prefix after limit
  = firstn (Z.to_nat limit) (allListed data prefix after).
Proof.
  intros Hinc Hlimit Hseek.
  rewrite <- (listPageInner_unlimited data prefix after Hinc Hseek).
  unfold listPageInner. apply listPageLoop_limit; [exact Hlimit|].
  simpl. lia.
Qed.

(** On an open database [ListPage] is [listPageInner] on the data bucket
    of the read transaction, and [List] is the page without cursor and
    without limit. *)
Lemma ListPage_open f prefix after limit :
  closed (db f) = false ->
  ListPage f prefix after limit
  = (listPageInner (data (db f)) prefix after limit, None).
Proof. intros Hopen. unfold ListPage. now rewrite Hopen. Qed.

Lemma List_open f prefix :
  closed (db f) = false ->
  bolt.increasing (bolt.keys (data (db f))) = true ->
  List_ f prefix = (allListed (data (db f)) prefix "", None).
Proof.
  intros Hopen Hinc. unfold List_. rewrite ListPage_open by exact Hopen.
  f_equal.
  assert (Hseek : (seekPrefix prefix "" <=? prefix ++ "")%string = true).
  { unfold seekPrefix. cbn [String.eqb]. apply leb_app_r. }
  rewrite <- (listPageInner_unlimited (data (db f)) prefix "" Hinc Hseek).
  unfold listPageInner. now apply listPageLoop_nonpositive.
Qed.

(** C2, as the code has it: for a bucket with increasing keys, a positive
    limit and a seek position that is not beyond [prefix ++ after],
    [listPageInner] returns, in order and truncated to [limit] entries, the
    names of the keys with the prefix (what follows the prefix, cut after
    its first [/]), a folder name once for consecutive keys, every name
    when [after] is empty and the names strictly greater than [after]
    otherwise.  The cursor seeks to the cleaned joined path of [prefix] and
    [after], and to [prefix] when [after] is empty or the joined path lost
    the prefix. *)
Theorem listPageInner_lists :
  forall data prefix after limit,
    bolt.increasing (bolt.keys data) = true ->
    (0 < limit)%Z ->
    (seekPrefix prefix after <=? prefix ++ after)%string = true ->
    listPageInner data prefix after limit
    = firstn (Z.to_nat limit) (allListed data prefix after)
    /\ seekPrefix prefix after
       = if (after =? "")%string
            || negb (HasPrefix (filepath.Join prefix after) prefix)
         then prefix
         else filepath.Join prefix after.
Proof.
  intros data prefix after limit Hinc Hlimit Hseek. split.
  - now apply listPageInner_limited.
  - unfold seekPrefix. destruct (after =? "")%string; [reflexivity|].
    now destruct (HasPrefix (filepath.Join prefix after) prefix).
Qed.

(** C2 as stated fails: the seek for the folder [bar/] is at [foo/bar], the
    cleaned path, not at [foo/bar/]; with an empty [after] the key that
    equals the prefix is listed under the empty name, which is not strictly
    greater than [after]; and an [after] that the cleaning changes makes
    the seek skip a key whose name is greater. *)
Lemma listPageInner_not_as_stated :
  seekPrefix "foo/" "bar/" <> spec_seek "foo/" "bar/"
  /\ listPageInner [("foo/", "v")] "foo/" "" 10
     <> spec_ListPage [("foo/", "v")] "foo/" "" 10
  /\ listPageInner [("foo/a", "v")] "foo/" "./z" 10
     <> spec_ListPage [("foo/a", "v")] "foo/" "./z" 10.
Proof. vm_compute. repeat split; discriminate. Qed.

Lemma listPageInner_lists_witness :
  listPageInner [("foo/a", "1"); ("foo/b/x", "2"); ("foo/b/y", "3");
                 ("foo/c", "4"); ("fop", "5")] "foo/" "a" 2
  = firstn (Z.to_nat 2)
           (allListed [("foo/a", "1"); ("foo/b/x", "2"); ("foo/b/y", "3");
                       ("foo/c", "4"); ("fop", "5")] "foo/" "a")
  /\ seekPrefix "foo/" "a"
     = if ("a" =? "")%string
          || negb (HasPrefix (filepath.Join "foo/" "a") "foo/")
       then "foo/"
       else filepath.Join "foo/" "a".
Proof.
  apply (listPageInner_lists
           [("foo/a", "1"); ("foo/b/x", "2"); ("foo/b/y", "3");
            ("foo/c", "4"); ("fop", "5")] "foo/" "a" 2).
  - reflexivity.
  - reflexivity.
  - reflexivity.
Defined.

(** C3, as the code has it: a limit that is not positive does not truncate.
    With [limit = -1] and with [limit = 0] alike, the listing returns all
    the listed names (for a bucket with increasing keys and a seek position
    that is not beyond [prefix ++ after]). *)
Theorem nonpositive_limit_lists_all :
  forall data prefix after limit,
    bolt.increasing (bolt.keys data) = true ->
    (seekPrefix prefix after <=? prefix ++ after)%string = true ->
    (limit <= 0)%Z ->
    listPageInner data prefix after limit = allListed data prefix after.
Proof.
  intros data prefix after limit Hinc Hseek Hlimit.
  rewrite <- (listPageInner_unlimited data prefix after Hinc Hseek).
  unfold listPageInner. now apply listPageLoop_nonpositive.
Qed.

(** C3 as stated fails: with [limit = 0] the list is not empty. *)
Lemma limit_zero_not_empty :
  listPageInner [("a", "v")] "" "" 0 <> [].
Proof. vm_compute. discriminate. Qed.

Lemma nonpositive_limit_lists_all_witness :
  listPageInner [("a", "1"); ("b/x", "2")] "" "" 0 = ["a"; "b/"]
  /\ listPageInner [("a", "1"); ("b/x", "2")] "" "" (-1) = ["a"; "b/"].
Proof.
  split.
  - apply (nonpositive_limit_lists_all [("a", "1"); ("b/x", "2")] "" "" 0);
      [reflexivity|reflexivity|lia].
  - apply (nonpositive_limit_lists_all [("a", "1"); ("b/x", "2")] "" "" (-1));
      [reflexivity|reflexivity|lia].
Defined.

(** *** The order of the names *)

Lemma increasing_intro n l :
  Forall (fun x => (n <? x)%string = true) l ->
  bolt.increasing l = true -> bolt.increasing (n :: l) = true.
Proof.
  intros Hall Hl. destruct l as [|x l]; [reflexivity|].
  inversion Hall; subst. cbn [bolt.increasing]. apply andb_true_iff. now split.
Qed.

Lemma increasing_app l1 l2 :
  bolt.increasing (l1 ++ l2) = true ->
  bolt.increasing l1 = true /\ bolt.increasing l2 = true.
Proof.
  induction l1 as [|x l1 IH]; intros H; [now split|].
  rewrite <- app_comm_cons in H.
  destruct (increasing_cons _ _ H) as [Htail Hall].
  destruct (IH Htail) as [H1 H2]. split; [|exact H2].
  apply increasing_intro; [|exact H1].
  apply Forall_app in Hall. tauto.
Qed.

Lemma increasing_firstn k l :
  bolt.increasing l = true -> bolt.increasing (firstn k l) = true.
Proof.
  intros H. rewrite <- (firstn_skipn k l) in H.
  now apply increasing_app in H.
Qed.

(** The writes keep the keys of a bucket in increasing order, so every
    bucket that [Put] and [Delete] build from the empty one has them so. *)
Lemma insert_keys (P : string -> Prop) key value b :
  P key -> Forall P (bolt.keys b) -> Forall P (bolt.keys (bolt.insert key value b)).
Proof.
  intros Hkey. induction b as [|[k v] rest IH]; intros Hall.
  - now constructor.
  - cbn [bolt.insert]. inversion Hall; subst.
    destruct (key <? k)%string; [now constructor|].
    destruct (key =? k)%string; [now constructor|].
    constructor; [assumption|now apply IH].
Qed.

Lemma insert_increasing key value b :
  bolt.increasing (bolt.keys b) = true ->
  bolt.increasing (bolt.keys (bolt.insert key value b)) = true.
Proof.
  induction b as [|[k v] rest IH]; intros H; [reflexivity|].
  cbn [bolt.insert].
  change (bolt.keys ((k, v) :: rest)) with (k :: bolt.keys rest) in H.
  destruct (increasing_cons _ _ H) as [Hrest Hall].
  destruct (key <? k)%string eqn:Hlt.
  - change (bolt.increasing (key :: k :: bolt.keys rest) = true).
    apply increasing_intro; [|exact H].
    constructor; [exact Hlt|].
    eapply Forall_impl; [|exact Hall].
    intros x Hx. now apply (ltb_trans key k x).
  - destruct (key =? k)%string eqn:Heq.
    + apply String.eqb_eq in Heq. subst k. exact H.
    + change (bolt.increasing (k :: bolt.keys (bolt.insert key value rest)) = true).
      apply increasing_intro; [|now apply IH].
      apply insert_keys; [|exact Hall].
      assert (Hle : (k <=? key)%string = true) by now rewrite leb_ltb, Hlt.
      apply leb_spec in Hle as [Hle | ->]; [exact Hle|].
      now rewrite String.eqb_refl in Heq.
Qed.

Lemma Put_increasing b key value b' :
  bolt.increasing (bolt.keys b) = true ->
  bolt.Put b key value = inl b' ->
  bolt.increasing (bolt.keys b') = true.
Proof.
  intros H. unfold bolt.Put.
  destruct (key =? "")%string; [discriminate|].
  destruct (Z.of_nat (String.length key) >? bolt.MaxKeySize)%Z; [discriminate|].
  destruct (Z.of_nat (String.length value) >? bolt.MaxValueSize)%Z;
    [discriminate|].
  intros [= <-]. now apply insert_increasing.
Qed.

Lemma Delete_increasing b key b' :
  bolt.increasing (bolt.keys b) = true ->
  bolt.Delete b key = inl b' ->
  bolt.increasing (bolt.keys b') = true.
Proof.
  intros H [= <-]. revert H.
  induction b as [|[k v] rest IH]; intros H; [reflexivity|].
  change (bolt.keys ((k, v) :: rest)) with (k :: bolt.keys rest) in H.
  destruct (increasing_cons _ _ H) as [Hrest Hall].
  cbn [filter fst]. destruct (negb (k =? key)%string); [|now apply IH].
  change (bolt.increasing
            (k :: bolt.keys (filter (fun kv => negb (fst kv =? key)%string) rest))
          = true).
  apply increasing_intro; [|now apply IH].
  clear -Hall. induction rest as [|[k' v'] rest IH]; [constructor|].
  inversion Hall; subst. cbn [filter fst].
  destruct (negb (k' =? key)%string); [constructor|]; auto.
Qed.

(** [n] may follow the name [prev]: it is greater, or it is the same
    folder. *)
Definition follows (prev : option string) (n : string) : Prop :=
  match prev with
  | None => True
  | Some p => (p <? n)%string = true \/ (p = n /\ isFolder n = true)
  end.

Fixpoint chain (prev : option string) (names : list string) : Prop :=
  match names with
  | [] => True
  | n :: rest => follows prev n /\ chain (Some n) rest
  end.

Definition above (prev : option string) (n : string) : Prop :=
  match prev with
  | None => True
  | Some p => (p <? n)%string = true
  end.

Lemma TrimPrefix_lt prefix k1 k2 :
  HasPrefix k1 prefix = true -> HasPrefix k2 prefix = true ->
  (k1 <? k2)%string = true ->
  (TrimPrefix k1 prefix <? TrimPrefix k2 prefix)%string = true.
Proof.
  intros H1 H2 Hlt.
  destruct (HasPrefix_inv _ _ H1) as [t1 ->].
  destruct (HasPrefix_inv _ _ H2) as [t2 ->].
  rewrite !TrimPrefix_app. now rewrite ltb_app in Hlt.
Qed.

Lemma resultName_follows prefix k1 k2 :
  HasPrefix k1 prefix = true -> HasPrefix k2 prefix = true ->
  (k1 <? k2)%string = true ->
  follows (Some (resultName prefix k1)) (resultName prefix k2).
Proof.
  intros H1 H2 Hlt. rewrite !resultName_collapse. cbn [follows].
  destruct (collapse_mono _ _ (TrimPrefix_lt prefix k1 k2 H1 H2 Hlt))
    as [Hn|[Heq Hf]]; [now left|].
  right. rewrite <- Heq. now split.
Qed.

(** The names of the keys with the prefix, in the order of the keys, form
    a chain. *)
Lemma names_chain_after prefix ks :
  forall k0,
    HasPrefix k0 prefix = true ->
    bolt.increasing ks = true ->
    Forall (fun k => (k0 <? k)%string = true) ks ->
    chain (Some (resultName prefix k0))
          (map (resultName prefix) (filter (fun k => HasPrefix k prefix) ks)).
Proof.
  induction ks as [|k ks IH]; intros k0 H0 Hinc Hall; [exact I|].
  destruct (increasing_cons _ _ Hinc) as [Hks Hk].
  inversion Hall as [|? ? Hk0 Hall']; subst.
  cbn [filter]. destruct (HasPrefix k prefix) eqn:Hp.
  - cbn [map chain]. split.
    + now apply resultName_follows.
    + now apply IH.
  - now apply IH.
Qed.

Lemma names_chain prefix ks :
  bolt.increasing ks = true ->
  chain None
        (map (resultName prefix) (filter (fun k => HasPrefix k prefix) ks)).
Proof.
  induction ks as [|k ks IH]; intros Hinc; [exact I|].
  destruct (increasing_cons _ _ Hinc) as [Hks Hk].
  cbn [filter]. destruct (HasPrefix k prefix) eqn:Hp; [|now apply IH].
  cbn [map chain]. split; [exact I|].
  now apply names_chain_after.
Qed.

Lemma chain_above a n rest :
  (a <? n)%string = true -> chain (Some n) rest ->
  Forall (fun x => (a <? x)%string = true) rest.
Proof.
  revert n. induction rest as [|x rest IH]; intros n Ha Hc; [constructor|].
  destruct Hc as [Hx Hc].
  assert (Hax : (a <? x)%string = true).
  { destruct Hx as [Hx|[-> _]]; [now apply (ltb_trans a n x)|exact Ha]. }
  constructor; [exact Hax|now apply (IH x)].
Qed.

(** Without the repeated folders, the names of a chain increase. *)
Lemma suppress_increasing names :
  forall prev,
    chain prev names ->
    bolt.increasing (suppress prev names) = true
    /\ Forall (above prev) (suppress prev names).
Proof.
  induction names as [|n rest IH]; intros prev Hc; [split; [reflexivity|constructor]|].
  destruct Hc as [Hn Hc]. rewrite suppress_cons.
  destruct (isFolder n && match prev with
                          | Some p => (p =? n)%string
                          | None => false
                          end) eqn:Hdup.
  - apply andb_true_iff in Hdup as [_ Hp].
    destruct prev as [p|]; [|discriminate].
    apply String.eqb_eq in Hp. subst p. now apply IH.
  - destruct (IH (Some n) Hc) as [Hinc Hall].
    assert (Habove : above prev n).
    { destruct prev as [p|]; [|exact I]. cbn [above].
      destruct Hn as [Hn|[-> Hf]]; [exact Hn|].
      rewrite Hf, String.eqb_refl in Hdup. discriminate. }
    split.
    + apply increasing_intro; [exact Hall|exact Hinc].
    + constructor; [exact Habove|].
      eapply Forall_impl; [|exact Hall].
      intros x Hx. destruct prev as [p|]; [|exact I].
      cbn [above] in *. now apply (ltb_trans p n x).
Qed.

Lemma suppress_subset names :
  forall prev x, In x (suppress prev names) -> In x names.
Proof.
  induction names as [|n rest IH]; intros prev x Hx; [destruct Hx|].
  rewrite suppress_cons in Hx.
  destruct (isFolder n && _) in Hx.
  - right. now apply (IH prev).
  - destruct Hx as [<-|Hx]; [now left|right; now apply (IH (Some n))].
Qed.

Lemma filter_all {A} (f : A -> bool) (l : list A) :
  Forall (fun x => f x = true) l -> filter f l = l.
Proof.
  induction 1 as [|x l Hx _ IH]; [reflexivity|].
  cbn [filter]. now rewrite Hx, IH.
Qed.

(** Keeping the names greater than [after] and suppressing the repeated
    folders commute on a chain. *)
Lemma suppress_filter after names :
  forall prev,
    chain prev names ->
    match prev with
    | Some p => (after <? p)%string = false
    | None => True
    end ->
    suppress None (filter (fun n => (after <? n)%string) names)
    = filter (fun n => (after <? n)%string) (suppress prev names).
Proof.
  induction names as [|n rest IH]; intros prev Hc Hprev; [reflexivity|].
  destruct Hc as [Hn Hc]. rewrite suppress_cons. cbn [filter].
  destruct (after <? n)%string eqn:Han.
  - (* [n] is kept, and so is everything after it *)
    assert (Hnodup : isFolder n && match prev with
                                   | Some p => (p =? n)%string
                                   | None => false
                                   end = false).
    { destruct prev as [p|]; [|apply andb_false_r].
      apply andb_false_iff. right. apply String.eqb_neq. intros ->.
      rewrite Han in Hprev. discriminate. }
    rewrite Hnodup, suppress_cons, andb_false_r. cbn [filter]. rewrite Han.
    pose proof (chain_above after n rest Han Hc) as Hrest.
    rewrite (filter_all (fun n => (after <? n)%string) rest Hrest).
    rewrite (filter_all (fun n => (after <? n)%string)); [reflexivity|].
    apply Forall_forall. intros x Hx.
    rewrite Forall_forall in Hrest. apply Hrest.
    now apply (suppress_subset rest (Some n)).
  - destruct (isFolder n && _) eqn:Hdup.
    + apply andb_true_iff in Hdup as [_ Hp].
      destruct prev as [p|]; [|discriminate].
      apply String.eqb_eq in Hp. subst p. now apply IH.
    + cbn [filter]. rewrite Han. now apply IH.
Qed.

(** In an increasing list, the elements greater than the last element of
    a front part are those after it. *)
Lemma filter_after_last done todo :
  done <> [] ->
  bolt.increasing (done ++ todo) = true ->
  filter (fun n => (last done "" <? n)%string) (done ++ todo) = todo.
Proof.
  induction done as [|x done IH]; intros Hne Hinc; [contradiction|].
  rewrite <- app_comm_cons in Hinc.
  destruct (increasing_cons _ _ Hinc) as [Htail Hall].
  destruct done as [|y done].
  - cbn [last app filter]. rewrite ltb_irrefl.
    now apply (filter_all (fun n => (x <? n)%string)).
  - change (last (x :: y :: done) "") with (last (y :: done) "").
    rewrite <- app_comm_cons. cbn [filter].
    assert (Hlast : (x <? last (y :: done) "")%string = true).
    { rewrite Forall_forall in Hall. apply Hall.
      apply in_or_app. left.
      destruct (exists_last (l := y :: done)) as [l' [z Hz]]; [discriminate|].
      rewrite Hz, last_last. apply in_or_app. right. now left. }
    replace (last (y :: done) "" <? x)%string with false.
    + apply IH; [discriminate|exact Htail].
    + symmetry. rewrite ltb_leb. apply negb_false_iff. now apply ltb_leb_weak.
Qed.

(** *** The cleaned joined path *)

Import filepath.

(** The path that [Clean] makes of the elements kept. *)
Definition render (r : bool) (stack : list string) : string :=
  ((if r then "/" else "") ++ String.concat "/" (rev stack))%string.

Definition finish (r : bool) (stack : list string) : string :=
  if (render r stack =? "")%string then "." else render r stack.

Lemma Clean_finish path :
  Clean path
  = finish (rooted path)
           (fold_left (clean_elem (rooted path)) (Split_slash path) []).
Proof. reflexivity. Qed.

(** The elements of a path *)
Lemma Split_slash_app x y :
  Split_slash (x ++ String "/" y) = Split_slash x ++ Split_slash y.
Proof.
  induction x as [|c x IH]; [reflexivity|].
  cbn [append Split_slash]. rewrite IH.
  destruct (Ascii.eqb c "/"); [reflexivity|].
  destruct (Split_slash x) as [|e es] eqn:Hx; [|reflexivity].
  destruct x; cbn in Hx; [discriminate|].
  destruct (Ascii.eqb a "/"); [discriminate|].
  destruct (Split_slash x); discriminate.
Qed.

Lemma Split_slash_plain n0 :
  IndexByte n0 "/" = None -> Split_slash n0 = [n0].
Proof.
  induction n0 as [|c n0 IH]; [reflexivity|].
  unfold IndexByte. fold IndexByte. cbn [Split_slash].
  destruct (Ascii.eqb c "/"); [discriminate|].
  destruct (IndexByte n0 "/") eqn:Hi; [discriminate|].
  intros _. now rewrite IH.
Qed.

(** A name is a plain element, with a [/] at its end when it is a
    folder. *)
Lemma name_shape a :
  collapse a = a ->
  exists n0, IndexByte n0 "/" = None /\ (a = n0 \/ a = (n0 ++ "/")%string).
Proof.
  induction a as [|c a IH]; intros H.
  - exists "". split; [reflexivity|now left].
  - unfold collapse in H. fold collapse in H.
    unfold IndexByte. fold IndexByte.
    destruct (Ascii.eqb c "/") eqn:Hc.
    + apply Ascii.eqb_eq in Hc. subst c. injection H as H. subst a.
      exists "". split; [reflexivity|now right].
    + injection H as H. destruct (IH H) as [n0 [Hn0 Ha]].
      exists (String c n0). split.
      * unfold IndexByte. fold IndexByte. now rewrite Hc, Hn0.
      * destruct Ha as [->| ->]; [now left|now right].
Qed.

Lemma collapse_idem key : collapse (collapse key) = collapse key.
Proof.
  induction key as [|c key IH]; [reflexivity|].
  unfold collapse. fold collapse.
  destruct (Ascii.eqb c "/") eqn:Hc.
  - unfold collapse. now rewrite Hc.
  - unfold collapse. fold collapse. now rewrite Hc, IH.
Qed.

(** The length of the elements of a stack, each with a separator. *)
Fixpoint cost (stack : list string) : nat :=
  match stack with
  | [] => 0
  | e :: rest => String.length e + 1 + cost rest
  end.

Lemma cost_app s t : cost (s ++ t) = cost s + cost t.
Proof. induction s as [|e s IH]; cbn [app cost]; [reflexivity|]. lia. Qed.

Lemma cost_rev s : cost (rev s) = cost s.
Proof.
  induction s as [|e s IH]; [reflexivity|].
  cbn [rev]. rewrite cost_app, IH. cbn [cost]. lia.
Qed.

Lemma clean_elem_cost r stack e :
  cost (clean_elem r stack e) <= cost stack + (String.length e + 1).
Proof.
  unfold clean_elem.
  destruct (e =? "")%string; [lia|].
  destruct (e =? ".")%string; [lia|].
  destruct (e =? "..")%string; [|cbn [cost]; lia].
  destruct stack as [|top below].
  - destruct r; cbn [cost]; lia.
  - destruct (top =? "..")%string; cbn [cost]; lia.
Qed.

Lemma fold_clean_cost r es :
  forall stack,
    cost (fold_left (clean_elem r) es stack) <= cost stack + cost es.
Proof.
  induction es as [|e es IH]; intros stack; cbn [fold_left cost]; [lia|].
  specialize (IH (clean_elem r stack e)).
  pose proof (clean_elem_cost r stack e). lia.
Qed.

Lemma Split_slash_cost q : cost (Split_slash q) = String.length q + 1.
Proof.
  induction q as [|c q IH]; [reflexivity|].
  cbn [Split_slash String.length].
  destruct (Ascii.eqb c "/"); [cbn [cost String.length]; lia|].
  destruct (Split_slash q) as [|e es]; cbn [cost String.length] in *; lia.
Qed.

Lemma concat_length stack :
  stack <> [] -> String.length (String.concat "/" stack) + 1 = cost stack.
Proof.
  induction stack as [|e stack IH]; intros Hne; [contradiction|].
  destruct stack as [|e' stack].
  - cbn [String.concat cost]. lia.
  - change (String.concat "/" (e :: e' :: stack))
      with (e ++ "/" ++ String.concat "/" (e' :: stack))%string.
    rewrite !length_append. cbn [cost] in *.
    specialize (IH ltac:(discriminate)). cbn [String.length]. lia.
Qed.

Lemma concat_snoc stack m :
  stack <> [] ->
  String.concat "/" (stack ++ [m])
  = (String.concat "/" stack ++ "/" ++ m)%string.
Proof.
  induction stack as [|e stack IH]; intros Hne; [contradiction|].
  destruct stack as [|e' stack].
  - reflexivity.
  - change (String.concat "/" ((e :: e' :: stack) ++ [m]))
      with (e ++ "/" ++ String.concat "/" ((e' :: stack) ++ [m]))%string.
    rewrite IH by discriminate.
    change (String.concat "/" (e :: e' :: stack))
      with (e ++ "/" ++ String.concat "/" (e' :: stack))%string.
    now rewrite !append_assoc.
Qed.

(** Prefixes that end with a separator *)
Lemma HasPrefix_length s p :
  HasPrefix s p = true -> String.length p <= String.length s.
Proof.
  intros H. destruct (HasPrefix_inv _ _ H) as [t ->].
  rewrite length_append. lia.
Qed.

Lemma HasPrefix_cons c s d p :
  HasPrefix (String c s) (String d p) = true -> c = d /\ HasPrefix s p = true.
Proof.
  unfold HasPrefix. cbn [String.prefix].
  destruct (ascii_dec d c); [now intros H; split|discriminate].
Qed.

Lemma prefix_slash_in q :
  forall m, HasPrefix m (q ++ "/") = true -> IndexByte m "/" <> None.
Proof.
  induction q as [|c q IH]; intros m H.
  - destruct m as [|d m]; [discriminate|].
    apply HasPrefix_cons in H as [-> _]. discriminate.
  - destruct m as [|d m]; [discriminate|].
    cbn [append] in H. apply HasPrefix_cons in H as [-> H].
    unfold IndexByte. fold IndexByte.
    destruct (Ascii.eqb c "/"); [discriminate|].
    specialize (IH m H). now destruct (IndexByte m "/").
Qed.

Lemma prefix_same_separator R :
  forall q m,
    HasPrefix (R ++ "/" ++ m) (q ++ "/") = true ->
    String.length R <= String.length q ->
    IndexByte m "/" = None ->
    R = q.
Proof.
  induction R as [|c R IH]; intros q m H Hlen Hm.
  - destruct q as [|d q]; [reflexivity|]. exfalso.
    cbn [append] in H. apply HasPrefix_cons in H as [_ H].
    now apply (prefix_slash_in q m H).
  - destruct q as [|d q]; [cbn in Hlen; lia|].
    cbn [append] in H. apply HasPrefix_cons in H as [-> H].
    f_equal. apply (IH q m H); [cbn in Hlen; lia|exact Hm].
Qed.

Lemma HasPrefix_leb s p : HasPrefix s p = true -> (p <=? s)%string = true.
Proof.
  intros H. destruct (HasPrefix_inv _ _ H) as [t ->]. apply leb_app_r.
Qed.

Lemma eqb_append_slash (R m : string) : (R ++ "/" ++ m =? "")%string = false.
Proof. apply String.eqb_neq. now destruct R. Qed.

(** A stack whose elements fit in [q] is too short for the prefix
    [q ++ "/"], unless the path is the root. *)
Lemma finish_short (r : bool) stack q :
  cost stack + (if r then 1 else 0) <= String.length q + 1 ->
  HasPrefix (finish r stack) (q ++ "/") = true ->
  finish r stack = (q ++ "/")%string.
Proof.
  intros Hcost H.
  assert (Hdot : HasPrefix "." (q ++ "/") = false).
  { destruct (HasPrefix "." (q ++ "/")) eqn:Hd; [|reflexivity].
    now apply prefix_slash_in in Hd. }
  unfold finish in *.
  destruct (render r stack =? "")%string eqn:Hempty;
    [rewrite Hdot in H; discriminate|].
  apply HasPrefix_length in H as Hlen. rewrite length_append in Hlen.
  cbn [String.length] in Hlen.
  unfold render in *. destruct stack as [|e stack].
  - cbn [rev String.concat] in *. rewrite append_nil_r in *.
    destruct r; cbn [String.length] in Hlen; [|lia].
    destruct q; [reflexivity|cbn [String.length] in Hlen; lia].
  - exfalso.
    assert (Hne : rev (e :: stack) <> [])
      by (cbn [rev]; now destruct (rev stack)).
    pose proof (concat_length _ Hne) as Hc. rewrite cost_rev in Hc.
    rewrite length_append in Hlen.
    destruct r; cbn [String.length] in Hlen; lia.
Qed.

(** A plain element on top of such a stack: the only path with the prefix
    [q ++ "/"] is the prefix followed by the element. *)
Lemma finish_push (r : bool) stack m q :
  cost stack + (if r then 1 else 0) <= String.length q + 1 ->
  IndexByte m "/" = None -> m <> "" ->
  HasPrefix (finish r (m :: stack)) (q ++ "/") = true ->
  finish r (m :: stack) = ((q ++ "/") ++ m)%string.
Proof.
  intros Hcost Hm Hne. unfold finish, render. cbn [rev].
  destruct stack as [|e stack].
  - cbn [rev app String.concat]. destruct r.
    + change ("/" ++ m)%string with ("" ++ "/" ++ m)%string.
      rewrite eqb_append_slash. intros H.
      now rewrite <- (prefix_same_separator "" q m H ltac:(cbn; lia) Hm).
    + cbn [append]. apply String.eqb_neq in Hne. rewrite Hne. intros H.
      now apply prefix_slash_in in H.
  - assert (Hstack : rev (e :: stack) <> [])
      by (cbn [rev]; now destruct (rev stack)).
    rewrite (concat_snoc _ m Hstack), <- append_assoc.
    rewrite eqb_append_slash. intros H.
    pose proof (concat_length _ Hstack) as Hc. rewrite cost_rev in Hc.
    rewrite <- (prefix_same_separator _ q m H); [now rewrite !append_assoc| |exact Hm].
    rewrite length_append. destruct r; cbn [String.length]; lia.
Qed.

Lemma clean_elem_empty r stack : clean_elem r stack "" = stack.
Proof. reflexivity. Qed.

Lemma fold_clean_name r stack a n0 :
  IndexByte n0 "/" = None ->
  a = n0 \/ a = (n0 ++ "/")%string ->
  fold_left (clean_elem r) (Split_slash a) stack = clean_elem r stack n0.
Proof.
  intros Hn0 [->| ->].
  - now rewrite (Split_slash_plain n0 Hn0).
  - rewrite Split_slash_app, (Split_slash_plain n0 Hn0). reflexivity.
Qed.

Lemma HasPrefix_name prefix a n0 :
  a = n0 \/ a = (n0 ++ "/")%string ->
  HasPrefix (prefix ++ a) (prefix ++ n0) = true.
Proof.
  intros [->| ->]; [apply HasPrefix_refl|].
  rewrite <- append_assoc. apply HasPrefix_app.
Qed.

Lemma rooted_cons c s : rooted (String c s) = Ascii.eqb c "/".
Proof. destruct c as [[] [] [] [] [] [] [] []]; reflexivity. Qed.

(** The stack of the prefix, and its bound. *)
Lemma prefix_stack_cost q rest :
  let r := rooted ((q ++ "/") ++ rest) in
  cost (fold_left (clean_elem r) (Split_slash q) []) + (if r then 1 else 0)
  <= String.length q + 1.
Proof.
  destruct q as [|c q].
  - cbn. lia.
  - cbn [append]. rewrite rooted_cons. cbv zeta.
    destruct (Ascii.eqb c "/") eqn:Hc.
    + cbn [Split_slash]. rewrite Hc. cbn [fold_left].
      rewrite clean_elem_empty.
      pose proof (fold_clean_cost true (Split_slash q) []) as H.
      rewrite Split_slash_cost in H. cbn [cost String.length] in *. lia.
    + pose proof (fold_clean_cost false (Split_slash (String c q)) []) as H.
      rewrite Split_slash_cost in H. cbn [cost] in H. lia.
Qed.

(** The cleaned joined path of a prefix that ends with [/] and of a name
    either lost the prefix or is a prefix of the two put together. *)
Lemma Join_name q a :
  collapse a = a ->
  HasPrefix (Join (q ++ "/") a) (q ++ "/") = true ->
  HasPrefix ((q ++ "/") ++ a) (Join (q ++ "/") a) = true.
Proof.
  intros Hname. destruct (name_shape a Hname) as [n0 [Hn0 Ha]].
  unfold Join.
  replace (q ++ "/" =? "")%string with false
    by (symmetry; apply String.eqb_neq; now destruct q).
  cbn [negb]. rewrite Clean_finish.
  set (path := ((q ++ "/") ++ "/" ++ a)%string).
  set (r := rooted path).
  assert (Hsplit : Split_slash path = Split_slash q ++ [""] ++ Split_slash a).
  { unfold path. change ("/" ++ a)%string with (String "/" a).
    rewrite Split_slash_app. change (q ++ "/")%string with (q ++ String "/" "")%string.
    rewrite Split_slash_app, <- app_assoc. reflexivity. }
  rewrite Hsplit, !fold_left_app. cbn [fold_left]. rewrite clean_elem_empty.
  rewrite (fold_clean_name r _ a n0 Hn0 Ha).
  set (stack := fold_left (clean_elem r) (Split_slash q) []).
  assert (Hcost : cost stack + (if r then 1 else 0) <= String.length q + 1)
    by apply (prefix_stack_cost q ("/" ++ a)).
  assert (Hshort : forall st,
             cost st <= cost stack ->
             HasPrefix (finish r st) (q ++ "/") = true ->
             HasPrefix ((q ++ "/") ++ a) (finish r st) = true).
  { intros st Hst H. rewrite (finish_short r st q); [apply HasPrefix_app| |exact H].
    destruct r; lia. }
  assert (Hpush : forall m,
             m = n0 -> m <> "" ->
             HasPrefix (finish r (m :: stack)) (q ++ "/") = true ->
             HasPrefix ((q ++ "/") ++ a) (finish r (m :: stack)) = true).
  { intros m -> Hne H.
    rewrite (finish_push r stack n0 q Hcost Hn0 Hne H).
    now apply HasPrefix_name. }
  unfold clean_elem.
  destruct (n0 =? "")%string eqn:E1; [now apply Hshort|].
  destruct (n0 =? ".")%string eqn:E2; [now apply Hshort|].
  apply String.eqb_neq in E1.
  destruct (n0 =? "..")%string eqn:E3; [|now apply Hpush].
  destruct stack as [|top below] eqn:Hstack.
  - destruct r; [now apply Hshort|now apply Hpush].
  - destruct (top =? "..")%string; [now apply Hpush|].
    apply Hshort. cbn [cost]. lia.
Qed.

(** The cleaned path of a name is a prefix of the name. *)
Lemma Clean_name a :
  collapse a = a -> a <> "" -> HasPrefix a (Clean a) = true.
Proof.
  intros Hname Hne. destruct (name_shape a Hname) as [n0 [Hn0 Ha]].
  rewrite Clean_finish, (fold_clean_name _ [] a n0 Hn0 Ha).
  unfold clean_elem.
  destruct (n0 =? "")%string eqn:E1.
  { apply String.eqb_eq in E1. subst n0.
    destruct Ha as [->| ->]; [contradiction|reflexivity]. }
  assert (Hr : rooted a = false).
  { destruct n0 as [|c n0]; [discriminate|].
    unfold IndexByte in Hn0. fold IndexByte in Hn0.
    destruct (Ascii.eqb c "/") eqn:Hc; [discriminate|].
    destruct Ha as [->| ->]; cbn [append]; now rewrite rooted_cons. }
  rewrite Hr.
  assert (Hn : HasPrefix a n0 = true).
  { destruct Ha as [->| ->]; [apply HasPrefix_refl|apply HasPrefix_app]. }
  destruct (n0 =? ".")%string eqn:E2.
  { apply String.eqb_eq in E2. now subst n0. }
  destruct (n0 =? "..")%string eqn:E3.
  { apply String.eqb_eq in E3. now subst n0. }
  unfold finish, render. cbn [rev app String.concat append].
  now rewrite E1.
Qed.

(** The seek for a name under a prefix that is empty or ends with [/] is
    not beyond the prefix followed by the name. *)
Lemma seekPrefix_name prefix a :
  prefix = "" \/ (exists q, prefix = (q ++ "/")%string) ->
  collapse a = a ->
  (seekPrefix prefix a <=? prefix ++ a)%string = true.
Proof.
  intros Hprefix Hname. unfold seekPrefix.
  destruct (a =? "")%string eqn:Ha; [apply leb_app_r|].
  apply String.eqb_neq in Ha.
  destruct (HasPrefix (Join prefix a) prefix) eqn:Hp; cbn [negb];
    [|apply leb_app_r].
  apply HasPrefix_leb.
  destruct Hprefix as [->|[q ->]].
  - unfold Join. cbn [String.eqb negb append].
    apply String.eqb_neq in Ha. rewrite Ha. cbn [negb].
    apply String.eqb_neq in Ha. now apply Clean_name.
  - now apply Join_name.
Qed.

(** *** Pagination *)

Lemma increasing_NoDup l : bolt.increasing l = true -> NoDup l.
Proof.
  induction l as [|x l IH]; intros H; [constructor|].
  destruct (increasing_cons _ _ H) as [Hl Hall].
  constructor; [|now apply IH].
  intros Hin. rewrite Forall_forall in Hall.
  specialize (Hall x Hin). rewrite ltb_irrefl in Hall. discriminate.
Qed.

Lemma last_app_nonempty {A} (l1 l2 : list A) (d : A) :
  l2 <> [] -> last (l1 ++ l2) d = last l2 d.
Proof.
  intros Hne. induction l1 as [|a l1 IH]; [reflexivity|].
  cbn [app last]. destruct (l1 ++ l2) eqn:Happ; [|exact IH].
  apply app_eq_nil in Happ as [_ ->]. contradiction.
Qed.

Lemma collapse_empty key : collapse key = "" -> key = "".
Proof.
  destruct key as [|c key]; [reflexivity|].
  unfold collapse. destruct (Ascii.eqb c "/"); discriminate.
Qed.

Lemma seekPrefix_empty prefix :
  (seekPrefix prefix "" <=? prefix ++ "")%string = true.
Proof.
  unfold seekPrefix. cbn. rewrite append_nil_r. apply leb_refl.
Qed.

Section Pages.

Variable data : bolt.Bucket.
Variable prefix : string.
Variable K : Z.

Hypothesis Hinc : bolt.increasing (bolt.keys data) = true.
Hypothesis HK : (0 < K)%Z.
Hypothesis Hkey : ~ In prefix (bolt.keys data).

(** The whole listing. *)
Definition names : list string :=
  suppress None (map (resultName prefix) (matching data prefix)).

Hypothesis Hseek :
  forall after,
    In after names -> (seekPrefix prefix after <=? prefix ++ after)%string = true.

Lemma allListed_all : allListed data prefix "" = names.
Proof.
  unfold allListed, names. f_equal.
  apply (filter_all (listed "")). apply Forall_forall. intros x _. reflexivity.
Qed.

Lemma allListed_after after :
  after <> "" ->
  allListed data prefix after = filter (fun n => (after <? n)%string) names.
Proof.
  intros Hne. unfold allListed, names.
  rewrite <- (suppress_filter after _ None);
    [|now apply names_chain|exact I].
  f_equal. apply filter_ext. intros n. unfold listed.
  apply String.eqb_neq in Hne. now rewrite Hne.
Qed.

Lemma names_increasing : bolt.increasing names = true.
Proof.
  unfold names.
  now apply (suppress_increasing _ None), names_chain.
Qed.

Lemma names_not_empty : ~ In "" names.
Proof.
  intros Hin. apply suppress_subset in Hin.
  apply in_map_iff in Hin as [k [Hname Hk]].
  apply filter_In in Hk as [Hk Hp].
  rewrite resultName_collapse in Hname. apply collapse_empty in Hname.
  destruct (HasPrefix_inv _ _ Hp) as [t ->].
  rewrite TrimPrefix_app in Hname. subst t. rewrite append_nil_r in Hk.
  now apply Hkey.
Qed.

(** The page asked for after the last name of [done], or the first page:
    the first [K] names that remain. *)
Lemma page_after done todo after :
  names = done ++ todo ->
  (done = [] /\ after = "") \/ (done <> [] /\ after = last done "") ->
  listPageInner data prefix after K = firstn (Z.to_nat K) todo.
Proof.
  intros Hnames [[-> ->]|[Hne ->]].
  - rewrite (listPageInner_limited data prefix "" K Hinc HK
                                   (seekPrefix_empty prefix)).
    now rewrite allListed_all, Hnames.
  - assert (Hin : In (last done "") names).
    { rewrite Hnames. apply in_or_app. left.
      destruct (exists_last Hne) as [l' [z ->]].
      rewrite last_last. apply in_or_app. right. now left. }
    assert (Hnonempty : last done "" <> "").
    { intros Heq. rewrite Heq in Hin. now apply names_not_empty. }
    rewrite (listPageInner_limited data prefix (last done "") K Hinc HK
                                   (Hseek _ Hin)).
    rewrite (allListed_after _ Hnonempty), Hnames.
    rewrite filter_after_last; [reflexivity|exact Hne|].
    rewrite <- Hnames. apply names_increasing.
Qed.

Lemma paginate_from fuel :
  forall done todo after,
    length todo < fuel ->
    names = done ++ todo ->
    (done = [] /\ after = "") \/ (done <> [] /\ after = last done "") ->
    exists pages,
      paginate fuel data prefix K after = Some pages
      /\ concat pages = todo
      /\ Forall (fun page => bolt.increasing page = true) pages.
Proof.
  induction fuel as [|fuel IH]; intros done todo after Hfuel Hnames Hafter;
    [lia|].
  cbn [paginate]. rewrite (page_after done todo after Hnames Hafter).
  destruct (Z.to_nat K) as [|k] eqn:Hk; [lia|].
  destruct todo as [|x todo].
  - exists []. repeat split. constructor.
  - set (page := firstn (S k) (x :: todo)).
    assert (Hpage : page = x :: firstn k todo) by reflexivity.
    rewrite Hpage. rewrite <- Hpage.
    destruct (IH (done ++ page) (skipn (S k) (x :: todo)) (last page ""))
      as [pages [Hpages [Hconcat Hsorted]]].
    + rewrite length_skipn. cbn [length] in *. lia.
    + rewrite <- app_assoc. unfold page. now rewrite firstn_skipn.
    + right. split; [rewrite Hpage; now destruct done|].
      rewrite Hpage. rewrite last_app_nonempty; [reflexivity|discriminate].
    + exists (page :: pages). rewrite Hpages. split; [reflexivity|].
      split.
      * cbn [concat]. rewrite Hconcat. unfold page. apply firstn_skipn.
      * constructor; [|exact Hsorted].
        unfold page. apply increasing_firstn.
        pose proof names_increasing as Hn. rewrite Hnames in Hn.
        now apply increasing_app in Hn.
Qed.

(** The pages of the whole pagination are the whole listing. *)
Lemma paginate_all :
  exists pages,
    paginate (S (length (listPageInner data prefix "" (-1)))) data prefix K ""
    = Some pages
    /\ concat pages = listPageInner data prefix "" (-1)
    /\ NoDup (concat pages)
    /\ Forall (fun page => bolt.increasing page = true) pages.
Proof.
  rewrite (listPageInner_unlimited data prefix "" Hinc (seekPrefix_empty prefix)).
  rewrite allListed_all.
  destruct (paginate_from (S (length names)) [] names "")
    as [pages [Hpages [Hconcat Hsorted]]]; [lia|reflexivity|now left|].
  exists pages. split; [exact Hpages|]. split; [exact Hconcat|].
  split; [|exact Hsorted].
  rewrite Hconcat. apply increasing_NoDup, names_increasing.
Qed.

End Pages.

Lemma names_collapsed data prefix after :
  In after (names data prefix) -> collapse after = after.
Proof.
  intros Hin. apply suppress_subset in Hin.
  apply in_map_iff in Hin as [k [<- _]].
  rewrite resultName_collapse. apply collapse_idem.
Qed.

(** C4, as the code has it: for a bucket with increasing keys, a prefix [L]
    that is empty or ends with [/], no key equal to [L] and a page size
    [K > 0], asking for pages of [K] names, the first with [after = ""] and
    each next one after the last name of the page before, reaches an empty
    page; the pages before it, put together, are the whole listing of [L]
    without a limit, with no name twice and none left out, and every page
    is in increasing order. *)
Theorem pagination_closure :
  forall data prefix K,
    bolt.increasing (bolt.keys data) = true ->
    (0 < K)%Z ->
    prefix = "" \/ (exists q, prefix = (q ++ "/")%string) ->
    ~ In prefix (bolt.keys data) ->
    exists pages,
      paginate (S (length (listPageInner data prefix "" (-1)))) data prefix K ""
      = Some pages
      /\ concat pages = listPageInner data prefix "" (-1)
      /\ NoDup (concat pages)
      /\ Forall (fun page => bolt.increasing page = true) pages.
Proof.
  intros data prefix K Hinc HK Hprefix Hkey.
  apply paginate_all; try assumption.
  intros after Hin. apply seekPrefix_name; [exact Hprefix|].
  now apply (names_collapsed data prefix).
Qed.

(** C4 as stated fails.  Under the prefix [fo], which does not end with
    [/], the second page is sought at [fo/-a], beyond the key [fo-b]: the
    pagination ends after one name of two.  And a key that equals the
    prefix is listed under the empty name, after which the next page starts
    from the beginning again: no page is ever empty. *)
Lemma pagination_not_closed :
  paginate 3 [("fo-a", "v"); ("fo-b", "v")] "fo" 1 "" = Some [["-a"]]
  /\ listPageInner [("fo-a", "v"); ("fo-b", "v")] "fo" "" (-1) = ["-a"; "-b"]
  /\ (forall fuel, paginate fuel [("foo/", "v")] "foo/" 1 "" = None).
Proof.
  split; [reflexivity|]. split; [reflexivity|].
  induction fuel as [|fuel IH]; [reflexivity|].
  change (paginate (S fuel) [("foo/", "v")] "foo/" 1 "")
    with (option_map (cons [""]) (paginate fuel [("foo/", "v")] "foo/" 1 "")).
  now rewrite IH.
Qed.

Definition exampleBucket : bolt.Bucket :=
  [("foo/a", "1"); ("foo/b/x", "2"); ("foo/b/y", "3"); ("foo/c", "4");
   ("fop", "5")].

Lemma pagination_closure_witness :
  exists pages,
    paginate (S (length (listPageInner exampleBucket "foo/" "" (-1))))
             exampleBucket "foo/" 2 ""
    = Some pages
    /\ concat pages = listPageInner exampleBucket "foo/" "" (-1)
    /\ NoDup (concat pages)
    /\ Forall (fun page => bolt.increasing page = true) pages.
Proof.
  apply (pagination_closure exampleBucket "foo/" 2).
  - reflexivity.
  - reflexivity.
  - right. now exists "foo".
  - cbn. intros [H|[H|[H|[H|[H|[]]]]]]; discriminate.
Defined.

End ListFacts.

(** ** The FSM as a physical backend *)

Module BackendFacts.

Import raft strings StringOrder.

(** *** The sentinel entry of a failed transaction *)

Lemma slice_to_cons (m : nat) (a : ascii) (s : string) :
  slice_to (S m) (String a s) = String a (slice_to m s).
Proof. reflexivity. Qed.

Lemma slice_to_zero (s : string) : slice_to 0 s = "".
Proof. unfold slice_to. now destruct s. Qed.

Lemma HasPrefix_slice (s p : string) :
  HasPrefix s p = true -> s = (p ++ slice_from (String.length p) s)%string.
Proof.
  intros H. destruct (HasPrefix_inv s p H) as [t ->].
  now rewrite slice_from_app.
Qed.

(** The text is cut around the first occurrence of the separator. *)
Lemma Index_split (s sep : string) (m : nat) :
  Index s sep = Some m ->
  s = (slice_to m s ++ sep ++ slice_from (m + String.length sep) s)%string.
Proof.
  revert m. induction s as [|a s IH]; intros m; cbn [Index].
  - destruct (HasPrefix "" sep) eqn:Hp; [|discriminate].
    intros [= <-]. rewrite slice_to_zero. now apply HasPrefix_slice.
  - destruct (HasPrefix (String a s) sep) eqn:Hp.
    + intros [= <-]. rewrite slice_to_zero. now apply HasPrefix_slice.
    + destruct (Index s sep) as [m'|]; [|discriminate].
      intros [= <-]. rewrite slice_to_cons. cbn [plus slice_from append].
      f_equal. now apply IH.
Qed.

Lemma Index_found (pre sep post : string) :
  Index (pre ++ sep ++ post) sep <> None.
Proof.
  induction pre as [|a pre IH]; cbn [append].
  - destruct (sep ++ post)%string eqn:Hs; cbn [Index];
      rewrite <- Hs, HasPrefix_app; discriminate.
  - cbn [Index]. destruct (HasPrefix (String a (pre ++ sep ++ post)) sep);
      [discriminate|].
    destruct (Index (pre ++ sep ++ post) sep); [discriminate|contradiction].
Qed.

(** The text of an error that wraps the sentinel names the sentinel. *)
Lemma Error_names_sentinel (err : error) :
  Is_ErrTransactionCommitFailure err = true ->
  exists pre post,
    Error err = (pre ++ Error ErrTransactionCommitFailure ++ post)%string.
Proof.
  induction err; cbn [Is_ErrTransactionCommitFailure]; try discriminate.
  - intros _. exists "", "". cbn [append]. now rewrite append_nil_r.
  - intros H. destruct (IHerr H) as [pre [post Hpre]].
    exists (before ++ pre)%string, (post ++ after)%string.
    cbn [Error]. rewrite Hpre. now rewrite !append_assoc.
Qed.

Lemma AsTxError_Error (f : FSMEntry.t) :
  Error (FSMEntry.AsTxError f) = FSMEntry.Value f.
Proof.
  unfold FSMEntry.AsTxError, SplitN2. cbv zeta.
  destruct (Index (FSMEntry.Value f) (Error ErrTransactionCommitFailure))
    as [m|] eqn:Hi; [|reflexivity].
  cbn [Error]. symmetry. now apply Index_split.
Qed.

(** X1: the sentinel entry that [ApplyBatch] builds from the error of a
    rejected transaction (the key [fsmEntryTxErrorKey], the text of the
    error as the value) is recognised by [IsTxError], and [AsTxError]
    turns it back into an error that wraps
    [physical.ErrTransactionCommitFailure] and has the same text. *)
Theorem AsTxError_of_commit_failure :
  forall err,
    Is_ErrTransactionCommitFailure err = true ->
    let entry := FSMEntry.mk fsmEntryTxErrorKey (Error err) in
    FSMEntry.IsTxError entry = true
    /\ Is_ErrTransactionCommitFailure (FSMEntry.AsTxError entry) = true
    /\ Error (FSMEntry.AsTxError entry) = Error err.
Proof.
  intros err His entry. split; [reflexivity|]. split; [|apply AsTxError_Error].
  destruct (Error_names_sentinel err His) as [pre [post Hpre]].
  unfold FSMEntry.AsTxError, SplitN2, entry. cbv zeta. cbn [FSMEntry.Value].
  pose proof (Index_found pre (Error ErrTransactionCommitFailure) post) as Hfound.
  rewrite <- Hpre in Hfound.
  destruct (Index (Error err) (Error ErrTransactionCommitFailure));
    [reflexivity|contradiction].
Qed.

Lemma AsTxError_of_commit_failure_witness :
  let entry := FSMEntry.mk fsmEntryTxErrorKey
                 (Error (fmt_Errorf_w "verify read failed: "
                                      ErrTransactionCommitFailure " (foo)")) in
  FSMEntry.IsTxError entry = true
  /\ Is_ErrTransactionCommitFailure (FSMEntry.AsTxError entry) = true
  /\ Error (FSMEntry.AsTxError entry)
     = Error (fmt_Errorf_w "verify read failed: "
                           ErrTransactionCommitFailure " (foo)").
Proof.
  apply (AsTxError_of_commit_failure
           (fmt_Errorf_w "verify read failed: "
                         ErrTransactionCommitFailure " (foo)")).
  reflexivity.
Defined.

(** *** Get, Put and Delete *)

Lemma Get_filter (b : bolt.Bucket) (key : string) :
  bolt.Get (filter (fun kv => negb (fst kv =? key)%string) b) key = None.
Proof.
  induction b as [|[k v] b IH]; [reflexivity|].
  cbn [filter fst]. destruct (k =? key)%string eqn:Hk; cbn [negb]; [exact IH|].
  cbn [bolt.Get]. now rewrite Hk.
Qed.

Lemma Get_filter_other (b : bolt.Bucket) (key key' : string) :
  key' <> key ->
  bolt.Get (filter (fun kv => negb (fst kv =? key)%string) b) key'
  = bolt.Get b key'.
Proof.
  intros Hne. induction b as [|[k v] b IH]; [reflexivity|].
  cbn [filter fst bolt.Get]. destruct (k =? key)%string eqn:Hk; cbn [negb].
  - apply String.eqb_eq in Hk. subst k.
    apply not_eq_sym, String.eqb_neq in Hne. now rewrite Hne.
  - cbn [bolt.Get]. now rewrite IH.
Qed.

(** X2: an entry that [Put] stored is the one [Get] returns for its key,
    with that key and that value, and [Put] changes what [Get] returns for
    no other key; nor does it touch the config bucket or the FSM's
    memory of the latest index. *)
Theorem Put_then_Get :
  forall f entry f',
    Put f entry = (f', None) ->
    Get f' (Entry.Key entry) = (Some entry, None)
    /\ (forall path, path <> Entry.Key entry -> Get f' path = Get f path)
    /\ config (db f') = config (db f)
    /\ LatestState f' = LatestState f.
Proof.
  intros f [key value] f'. unfold Put, Get. cbn [Entry.Key Entry.Value].
  destruct (closed (db f)) eqn:Hopen; [discriminate|].
  destruct (bolt.Put (data (db f)) key value) as [b|err] eqn:Hput;
    [|discriminate].
  intros [= <-]. apply RestoreFacts.Put_inv in Hput. subst b. cbn.
  rewrite RestoreFacts.Get_insert. repeat split.
  intros path Hpath. now rewrite RestoreFacts.Get_insert_other.
Qed.

Lemma Put_then_Get_witness :
  exists f',
    Put Examples.emptyFSM (Entry.mk "foo" "bar") = (f', None)
    /\ Get f' "foo" = (Some (Entry.mk "foo" "bar"), None).
Proof.
  eexists. split; [reflexivity|].
  apply (Put_then_Get Examples.emptyFSM (Entry.mk "foo" "bar")). reflexivity.
Defined.

(** X3: on an open database [Delete] reports no error, whether the key
    exists or not; afterwards [Get] finds nothing at the key and returns
    no error either, and every other key is as before. *)
Theorem Delete_then_Get :
  forall f path,
    closed (db f) = false ->
    exists f',
      Delete f path = (f', None)
      /\ Get f' path = (None, None)
      /\ (forall path', path' <> path -> Get f' path' = Get f path').
Proof.
  intros f path Hopen. unfold Delete, Get. rewrite Hopen.
  cbn [bolt.Delete]. eexists. split; [reflexivity|]. cbn.
  rewrite Get_filter. split; [reflexivity|].
  intros path' Hne. now rewrite Get_filter_other.
Qed.

Lemma Delete_then_Get_witness :
  exists f',
    Delete Examples.emptyFSM "missing" = (f', None)
    /\ Get f' "missing" = (None, None)
    /\ (forall path', path' <> "missing" -> Get f' path' = Get Examples.emptyFSM path').
Proof. apply (Delete_then_Get Examples.emptyFSM "missing"). reflexivity. Defined.

End BackendFacts.

(** ** What a page never holds *)

Module PageFacts.

Import raft strings StringOrder ListFacts.

Lemma Seek_In (ks : list string) (seek k : string) :
  In k (bolt.Seek ks seek) -> In k ks.
Proof.
  induction ks as [|k0 ks IH]; cbn [bolt.Seek]; [trivial|].
  destruct (k0 <? seek)%string; [|trivial].
  intros H. right. now apply IH.
Qed.

(** A name of the page comes from a key of the bucket that has the prefix,
    and is one the code lists. *)
Definition fromKey (ks : list string) (prefix after name : string) : Prop :=
  exists key,
    In key ks /\ HasPrefix key prefix = true
    /\ name = resultName prefix key /\ listed after name = true.

Lemma listPageLoop_fromKey all prefix after limit ks :
  forall keys,
    (forall k, In k ks -> In k all) ->
    Forall (fromKey all prefix after) keys ->
    Forall (fromKey all prefix after) (listPageLoop prefix after limit ks keys).
Proof.
  induction ks as [|k ks IH]; intros keys Hks Hkeys; cbn [listPageLoop];
    [exact Hkeys|].
  destruct (HasPrefix k prefix) eqn:Hp; cbn [negb]; [|exact Hkeys].
  destruct ((limit >? 0)%Z && (Z.of_nat (length keys) >=? limit)%Z);
    [exact Hkeys|].
  assert (Hrest : forall k', In k' ks -> In k' all)
    by (intros k' Hk'; apply Hks; now right).
  assert (Hadd : negb (after =? "")%string
                 && (resultName prefix k <=? after)%string = false ->
                 Forall (fromKey all prefix after)
                        (keys ++ [resultName prefix k])).
  { intros Hlisted. apply Forall_app. split; [exact Hkeys|].
    constructor; [|constructor].
    exists k. repeat split; [apply Hks; now left|exact Hp|].
    rewrite skipped_not_listed in Hlisted. now apply negb_false_iff. }
  unfold resultName in Hadd. cbv zeta in Hadd.
  destruct (IndexByte (TrimPrefix k prefix) "/") as [i|].
  - destruct ((length keys =? 0)%nat
              || negb (last keys "" =? slice_to (i + 1) (TrimPrefix k prefix))%string);
      [|now apply IH].
    destruct (negb (after =? "")%string
              && (slice_to (i + 1) (TrimPrefix k prefix) <=? after)%string);
      apply IH; auto.
  - destruct (negb (after =? "")%string && (TrimPrefix k prefix <=? after)%string);
      apply IH; auto.
Qed.

Lemma listPageInner_length data prefix after limit :
  (0 < limit)%Z ->
  (Z.of_nat (length (listPageInner data prefix after limit)) <= limit)%Z.
Proof.
  intros Hlimit. unfold listPageInner.
  rewrite listPageLoop_limit by (cbn; lia).
  pose proof (firstn_le_length (Z.to_nat limit)
                (listPageLoop prefix after (-1)
                   (bolt.Seek (bolt.keys data) (seekPrefix prefix after)) []))
    as Hlen.
  lia.
Qed.

(** X4: what a page never holds, whatever the bucket, the prefix, the
    cursor [after] and the limit (no order of the keys and no seek position
    is assumed).  It never holds more names than a positive limit allows;
    and every name of it is the name of a key of the bucket that has the
    prefix (what follows the prefix, cut after its first separator), and
    with a cursor that is not empty it is strictly greater than the
    cursor. *)
Theorem listPageInner_safe :
  forall data prefix after limit,
    ((0 < limit)%Z ->
     (Z.of_nat (length (listPageInner data prefix after limit)) <= limit)%Z)
    /\ forall name,
         In name (listPageInner data prefix after limit) ->
         exists key,
           In key (bolt.keys data)
           /\ HasPrefix key prefix = true
           /\ name = resultName prefix key
           /\ (after <> "" -> (after <? name)%string = true).
Proof.
  intros data prefix after limit. split; [apply listPageInner_length|].
  intros name Hin.
  pose proof (listPageLoop_fromKey (bolt.keys data) prefix after limit
                (bolt.Seek (bolt.keys data) (seekPrefix prefix after)) []
                (fun k => Seek_In _ _ k) (Forall_nil _)) as Hall.
  rewrite Forall_forall in Hall.
  destruct (Hall name Hin) as [key [Hkey [Hp [Hname Hlisted]]]].
  exists key. repeat split; auto.
  intros Hafter. unfold listed in Hlisted.
  apply String.eqb_neq in Hafter. now rewrite Hafter in Hlisted.
Qed.

End PageFacts.

(** ** What a batch leaves behind *)

Module BatchFacts.

Import raft.

Section WithCollaborators.

Context {codec : Codec} {verifier : TxnVerifier}.

(** [f'] is [f] but for what the application of operations records: the
    restore callbacks started, the unknown operation types seen and the
    tracker. *)
Definition recorded (f f' : FSM) : Prop :=
  f' = set_apply f (restoreCbStarted f') (unknownOpTypes f') (fastTxnTracker f').

Lemma recorded_refl f : recorded f f.
Proof. unfold recorded. now destruct f. Qed.

Lemma recorded_trans f g h : recorded f g -> recorded g h -> recorded f h.
Proof.
  unfold recorded, set_apply. intros Hg Hh.
  destruct f, g, h; cbn in *. inversion Hg; inversion Hh; subst. reflexivity.
Qed.

Lemma recorded_set_apply f started unknown tracker :
  recorded f (set_apply f started unknown tracker).
Proof. reflexivity. Qed.

Lemma startRestoreCb_recorded f : recorded f (startRestoreCb f).
Proof.
  unfold startRestoreCb. destruct (restoreCb f);
    [apply recorded_set_apply|apply recorded_refl].
Qed.

Lemma noteUnknownOp_recorded f op : recorded f (noteUnknownOp f op).
Proof.
  unfold noteUnknownOp. destruct (existsb (N.eqb op) (unknownOpTypes f));
    [apply recorded_refl|apply recorded_set_apply].
Qed.

Create HintDb recorded.
#[local] Hint Resolve recorded_refl recorded_set_apply startRestoreCb_recorded
  noteUnknownOp_recorded : recorded.

Ltac split_loop H IH :=
  repeat match type of H with
         | (if ?c then _ else _) = _ => destruct c
         | match ?x with _ => _ end = _ => destruct x
         end;
  try (inversion H; subst; now auto with recorded);
  try (apply IH in H; eapply recorded_trans; [|exact H]; now auto with recorded).

Lemma applyBatchNonTxOpsLoop_recorded ops :
  forall f b ts f' b' ts' err,
    applyBatchNonTxOpsLoop f b ts ops = (f', b', ts', err) -> recorded f f'.
Proof.
  induction ops as [|op ops IH]; cbn [applyBatchNonTxOpsLoop];
    intros f b ts f' b' ts' err H.
  - inversion H; subst. apply recorded_refl.
  - unfold bolt.Delete in H. split_loop H IH.
Qed.

Lemma applyBatchTxOpsVerify_recorded operations ops :
  forall f b ts index f' ts' err,
    applyBatchTxOpsVerify f b ts operations index ops = (f', ts', err) ->
    recorded f f'.
Proof.
  induction ops as [|op ops IH]; cbn [applyBatchTxOpsVerify];
    intros f b ts index f' ts' err H.
  - inversion H; subst. apply recorded_refl.
  - split_loop H IH.
Qed.

Lemma applyBatchTxOpsWrite_recorded ops :
  forall f b ts f' b' ts' err,
    applyBatchTxOpsWrite f b ts ops = (f', b', ts', err) -> recorded f f'.
Proof.
  induction ops as [|op ops IH]; cbn [applyBatchTxOpsWrite];
    intros f b ts f' b' ts' err H.
  - inversion H; subst. apply recorded_refl.
  - unfold bolt.Delete in H. split_loop H IH.
Qed.

Lemma applyBatchTxOps_recorded f b ts command f' b' ts' err :
  applyBatchTxOps f b ts command = (f', b', ts', err) -> recorded f f'.
Proof.
  unfold applyBatchTxOps.
  destruct (applyBatchTxOpsVerify f b (setInTx ts) (Operations command) 0
                                  (Operations command))
    as [[f1 ts1] [e|]] eqn:Hverify;
    apply applyBatchTxOpsVerify_recorded in Hverify.
  - intros [= <- _ _ _]. exact Hverify.
  - destruct (applyBatchTxOpsWrite f1 b ts1 (Operations command))
      as [[[f2 b2] ts2] [e|]] eqn:Hwrite;
      apply applyBatchTxOpsWrite_recorded in Hwrite;
      intros [= <- _ _ _]; now apply (recorded_trans f f1 f2).
Qed.

(** The application of one [LogData], transactional or not. *)
Definition applyLogData (f : FSM) (b : bolt.Bucket) (latestIndex : N)
           (logs : list Log.t) (commandIndex : nat) (command : LogData)
  : applied :=
  let txnState :=
    applyState (fastTxnTracker f) latestIndex commandIndex
               (logIndexAt logs commandIndex) in
  if (length (Operations command) =? 0)%nat
     || negb (opTypeAt (Operations command) 0 =? beginTxOp)%N
  then applyBatchNonTxOps f b txnState command
  else applyBatchTxOps f b txnState command.

Lemma applyLogData_recorded f b latestIndex logs commandIndex command f' b' ts' err :
  applyLogData f b latestIndex logs commandIndex command = (f', b', ts', err) ->
  recorded f f'.
Proof.
  unfold applyLogData. cbv zeta.
  destruct ((length (Operations command) =? 0)%nat
            || negb (opTypeAt (Operations command) 0 =? beginTxOp)%N).
  - apply applyBatchNonTxOpsLoop_recorded.
  - apply applyBatchTxOps_recorded.
Qed.

(** One step of the loop over the commands. *)
Lemma applyCommands_LogData f b configB latestIndex logs commandIndex command
      rest slices :
  applyCommands f b configB latestIndex logs commandIndex
                (LogDataCommand command :: rest) slices
  = let '(f1, b1, ts1, err) :=
      applyLogData f b latestIndex logs commandIndex command in
    let f1 := set_apply f1 (restoreCbStarted f1) (unknownOpTypes f1) (trace ts1) in
    match err with
    | None =>
        applyCommands f1 b1 configB latestIndex logs (S commandIndex) rest
                      (slices ++ [[]])
    | Some err =>
        if getInTx ts1 && Is_ErrTransactionCommitFailure err
        then applyCommands f1 b1 configB latestIndex logs (S commandIndex) rest
               (slices ++ [[FSMEntry.mk fsmEntryTxErrorKey (Error err)]])
        else {| batch_f := f1; batch_b := b1; batch_configB := configB;
                entrySlices := slices ++ [[]]; batch_err := Some err |}
    end.
Proof. reflexivity. Qed.

Lemma applyCommands_recorded commands :
  forall f b configB latestIndex logs commandIndex slices,
    recorded f (batch_f (applyCommands f b configB latestIndex logs commandIndex
                                       commands slices)).
Proof.
  induction commands as [|[command|config] commands IH];
    intros f b configB latestIndex logs commandIndex slices.
  - apply recorded_refl.
  - rewrite applyCommands_LogData.
    destruct (applyLogData f b latestIndex logs commandIndex command)
      as [[[f1 b1] ts1] err] eqn:Hstep.
    apply applyLogData_recorded in Hstep.
    assert (Hf1 : recorded f (set_apply f1 (restoreCbStarted f1)
                                        (unknownOpTypes f1) (trace ts1)))
      by (eapply recorded_trans; [exact Hstep|apply recorded_set_apply]).
    cbv zeta. destruct err as [err|].
    + destruct (getInTx ts1 && Is_ErrTransactionCommitFailure err).
      * eapply recorded_trans; [exact Hf1|apply IH].
      * exact Hf1.
    + eapply recorded_trans; [exact Hf1|apply IH].
  - cbn [applyCommands].
    destruct (Marshal_ConfigurationValue config); [|apply recorded_refl].
    destruct (bolt.Put configB latestConfigKey b0); [|apply recorded_refl].
    apply IH.
Qed.

(** The configuration of the last [LogConfiguration] entry of the logs,
    when there is one. *)
Fixpoint lastConfiguration (logs : list Log.t) (latest : option ConfigurationValue)
  : option ConfigurationValue :=
  match logs with
  | [] => latest
  | l :: rest =>
      match Log.Type_ l, DecodeConfiguration (Log.Data l) with
      | LogConfiguration, Some configuration =>
          lastConfiguration rest
            (Some (raftConfigurationToProtoConfiguration (Log.Index l)
                                                         configuration))
      | _, _ => lastConfiguration rest latest
      end
  end.

(** The last configuration among the commands. *)
Fixpoint lastConfigurationCommand (commands : list command)
         (latest : option ConfigurationValue) : option ConfigurationValue :=
  match commands with
  | [] => latest
  | LogDataCommand _ :: rest => lastConfigurationCommand rest latest
  | ConfigurationCommand config :: rest =>
      lastConfigurationCommand rest (Some config)
  end.

Lemma lastConfigurationCommand_app pre post latest :
  lastConfigurationCommand (pre ++ post) latest
  = lastConfigurationCommand post (lastConfigurationCommand pre latest).
Proof.
  revert latest. induction pre as [|[command|config] pre IH]; intros latest;
    cbn [app lastConfigurationCommand]; auto.
Qed.

Lemma unmarshalLogs_configuration logs :
  forall commands latest commands' latest',
    unmarshalLogs logs commands latest = Returned (commands', latest') ->
    latest' = lastConfiguration logs latest
    /\ forall known,
         lastConfigurationCommand commands' known
         = lastConfiguration logs (lastConfigurationCommand commands known).
Proof.
  induction logs as [|l logs IH]; cbn [unmarshalLogs lastConfiguration];
    intros commands latest commands' latest' H.
  - inversion H; subst. now split.
  - destruct (Log.Type_ l); [| |discriminate].
    + destruct (Unmarshal_LogData (Log.Data l)) as [command|]; [|discriminate].
      destruct (IH _ _ _ _ H) as [Hlatest Hcommands].
      split; [now destruct (DecodeConfiguration (Log.Data l))|].
      intros known. rewrite Hcommands, lastConfigurationCommand_app.
      now destruct (DecodeConfiguration (Log.Data l)).
    + destruct (DecodeConfiguration (Log.Data l)) as [configuration|];
        [|discriminate].
      destruct (IH _ _ _ _ H) as [Hlatest Hcommands].
      split; [exact Hlatest|].
      intros known. now rewrite Hcommands, lastConfigurationCommand_app.
Qed.

(** What the loop over the commands leaves in the config bucket when it
    ends without an error: the encoding of the last configuration under
    [latestConfigKey], and every other key as before. *)
Definition configurationStored (configB : bolt.Bucket)
           (latest : option ConfigurationValue) : Prop :=
  match latest with
  | Some config =>
      exists configBytes,
        Marshal_ConfigurationValue config = inl configBytes
        /\ bolt.Get configB latestConfigKey = Some configBytes
  | None => True
  end.

Lemma applyCommands_configuration commands :
  forall f b configB latestIndex logs commandIndex slices known,
    batch_err (applyCommands f b configB latestIndex logs commandIndex
                             commands slices) = None ->
    configurationStored configB known ->
    configurationStored
      (batch_configB (applyCommands f b configB latestIndex logs commandIndex
                                    commands slices))
      (lastConfigurationCommand commands known)
    /\ (forall key,
           key <> latestConfigKey ->
           bolt.Get (batch_configB (applyCommands f b configB latestIndex logs
                                                  commandIndex commands slices))
                    key
           = bolt.Get configB key)
    /\ (lastConfigurationCommand commands None = None ->
        batch_configB (applyCommands f b configB latestIndex logs commandIndex
                                     commands slices) = configB).
Proof.
  induction commands as [|[command|config] commands IH];
    intros f b configB latestIndex logs commandIndex slices known Herr Hknown.
  - cbn. auto.
  - rewrite applyCommands_LogData in Herr |- *.
    destruct (applyLogData f b latestIndex logs commandIndex command)
      as [[[f1 b1] ts1] err].
    cbv zeta in Herr |- *. cbn [lastConfigurationCommand].
    destruct err as [err|].
    + destruct (getInTx ts1 && Is_ErrTransactionCommitFailure err);
        [now apply IH|discriminate].
    + now apply IH.
  - cbn [applyCommands lastConfigurationCommand] in Herr |- *.
    destruct (Marshal_ConfigurationValue config) as [configBytes|] eqn:Hmarshal;
      [|discriminate].
    destruct (bolt.Put configB latestConfigKey configBytes) as [configB'|] eqn:Hput;
      [|discriminate].
    apply RestoreFacts.Put_inv in Hput. subst configB'.
    destruct (IH f b (bolt.insert latestConfigKey configBytes configB)
                 latestIndex logs (S commandIndex) (slices ++ [[]])
                 (Some config) Herr) as [Hstored [Hother Hnone]].
    { exists configBytes. split; [exact Hmarshal|apply RestoreFacts.Get_insert]. }
    split; [exact Hstored|]. split.
    + intros key Hkey. rewrite Hother by exact Hkey.
      now apply RestoreFacts.Get_insert_other.
    + intros Habsurd. exfalso. revert Habsurd. clear.
      generalize config. induction commands as [|[c|c] commands IHc];
        intros config0; cbn [lastConfigurationCommand];
        [discriminate|apply IHc..].
Qed.

(** The log that [ApplyBatch] takes the latest index and term from, the
    encoding of the two that it stores, and whether it stores one. *)
Definition lastLogOf (logs : list Log.t) : Log.t :=
  nth (length logs - 1) logs (Log.mk 0 0 LogCommand "").

Definition logIndexOf (f : FSM) (logs : list Log.t) : bytes + error :=
  if (latestIndex f <? Log.Index (lastLogOf logs))%N
  then Marshal_IndexValue {| Term := Log.Term (lastLogOf logs);
                             Index := Log.Index (lastLogOf logs) |}
  else inl "".

(** A batch that is applied: how [ApplyBatch] got to its responses and to
    the FSM it leaves. *)
Lemma ApplyBatch_returned f logs resp f' :
  logs <> [] ->
  ApplyBatch f logs = Returned (resp, f') ->
  exists commands latestConfiguration logIndex,
    unmarshalLogs logs [] None = Returned (commands, latestConfiguration)
    /\ logIndexOf f logs = inl logIndex
    /\ closed (db f) = false
    /\ let r := applyCommands f (data (db f)) (config (db f)) (latestIndex f)
                              logs 0 commands [] in
       let advanced := (0 <? String.length logIndex)%nat in
       batch_err r = None
       /\ buildResponses logs (entrySlices r) = Returned resp
       /\ recorded f (set_db (set_latest f' (latestIndex f) (latestTerm f)
                                         (latestConfig f)) (db f))
       /\ closed (db f') = false
       /\ data (db f') = batch_b r
       /\ config (db f')
          = (if advanced
             then bolt.insert latestIndexKey logIndex (batch_configB r)
             else batch_configB r)
       /\ latestIndex f'
          = (if advanced then Log.Index (lastLogOf logs) else latestIndex f)
       /\ latestTerm f'
          = (if advanced then Log.Term (lastLogOf logs) else latestTerm f)
       /\ latestConfig f'
          = match latestConfiguration with
            | Some c => Some c
            | None => latestConfig f
            end.
Proof.
  intros Hlogs H. unfold ApplyBatch in H. cbv zeta in H.
  destruct (length logs =? 0)%nat eqn:Hlen.
  { apply Nat.eqb_eq in Hlen. destruct logs; [contradiction|discriminate]. }
  destruct (unmarshalLogs logs [] None) as [[commands lc]|] eqn:Hun;
    [|discriminate].
  fold (lastLogOf logs) in H. fold (logIndexOf f logs) in H.
  destruct (logIndexOf f logs) as [logIndex|] eqn:Hmarshal; [|discriminate].
  exists commands, lc, logIndex.
  split; [reflexivity|]. split; [reflexivity|].
  destruct (closed (db f)) eqn:Hopen; [discriminate|].
  split; [reflexivity|]. cbv zeta.
  pose proof (applyCommands_recorded commands f (data (db f)) (config (db f))
                (latestIndex f) logs 0 []) as Hrec.
  destruct (applyCommands f (data (db f)) (config (db f)) (latestIndex f) logs 0
                          commands []) as [f1 b1 configB1 slices1 err1].
  cbn [batch_err batch_f batch_b batch_configB entrySlices] in H, Hrec |- *.
  destruct err1 as [err1|]; [discriminate|].
  split; [reflexivity|].
  destruct (0 <? String.length logIndex)%nat.
  - cbn [db set_db config data] in H.
    destruct (bolt.Put configB1 latestIndexKey logIndex) as [configB2|] eqn:Hput;
      [|discriminate].
    apply RestoreFacts.Put_inv in Hput. subst configB2.
    destruct (buildResponses logs slices1) as [resp1|]; [|discriminate].
    inversion H; subst. clear H. split; [reflexivity|].
    unfold recorded in Hrec. rewrite Hrec.
    destruct f. destruct lc; cbn; repeat split; reflexivity.
  - destruct (buildResponses logs slices1) as [resp1|]; [|discriminate].
    inversion H; subst. clear H. split; [reflexivity|].
    unfold recorded in Hrec. rewrite Hrec.
    destruct f. destruct lc; cbn; repeat split; reflexivity.
Qed.

Lemma lastConfiguration_latest logs :
  forall latest,
    lastConfiguration logs latest
    = match lastConfiguration logs None with
      | Some c => Some c
      | None => latest
      end.
Proof.
  induction logs as [|l logs IH]; intros latest; cbn [lastConfiguration];
    [reflexivity|].
  destruct (Log.Type_ l); try apply IH.
  destruct (DecodeConfiguration (Log.Data l)) as [configuration|]; [|apply IH].
  rewrite (IH (Some _)).
  now destruct (lastConfiguration logs None).
Qed.

(** X5: a batch that is applied never moves the latest index of the FSM
    backwards.  When the index changes, index and term become those of the
    last log of the batch, and the index grows; when it does not, the term
    stays as well. *)
Theorem ApplyBatch_latest_index :
  forall f logs resp f',
    ApplyBatch f logs = Returned (resp, f') ->
    (latestIndex f <= latestIndex f')%N
    /\ (latestIndex f' <> latestIndex f ->
        latestIndex f' = Log.Index (lastLogOf logs)
        /\ latestTerm f' = Log.Term (lastLogOf logs)
        /\ (latestIndex f < latestIndex f')%N)
    /\ (latestIndex f' = latestIndex f -> latestTerm f' = latestTerm f).
Proof.
  intros f logs resp f' H.
  destruct logs as [|l logs].
  { inversion H; subst. split; [lia|].
    split; [intros Hne; now contradiction Hne|reflexivity]. }
  destruct (ApplyBatch_returned f (l :: logs) resp f' ltac:(discriminate) H)
    as [commands [lc [logIndex [_ [Hmarshal [_ Hr]]]]]].
  cbv zeta in Hr.
  destruct Hr as [_ [_ [_ [_ [_ [_ [Hindex [Hterm _]]]]]]]].
  rewrite Hindex, Hterm. clear Hindex Hterm.
  unfold logIndexOf in Hmarshal.
  destruct (0 <? String.length logIndex)%nat eqn:Hadvanced.
  - destruct (latestIndex f <? Log.Index (lastLogOf (l :: logs)))%N eqn:Hlt.
    + apply N.ltb_lt in Hlt. split; [lia|].
      split; [intros _; repeat split; lia|lia].
    + inversion Hmarshal; subst. discriminate.
  - split; [lia|].
    split; [intros Hne; now contradiction Hne|reflexivity].
Qed.

Lemma ApplyBatch_configuration f logs resp f' :
  ApplyBatch f logs = Returned (resp, f') ->
  latestConfig f' = lastConfiguration logs (latestConfig f)
  /\ match lastConfiguration logs None with
     | Some c =>
         exists configBytes,
           Marshal_ConfigurationValue c = inl configBytes
           /\ bolt.Get (config (db f')) latestConfigKey = Some configBytes
     | None =>
         bolt.Get (config (db f')) latestConfigKey
         = bolt.Get (config (db f)) latestConfigKey
     end.
Proof.
  intros H.
  destruct logs as [|l logs].
  { inversion H; subst. now split. }
  destruct (ApplyBatch_returned f (l :: logs) resp f' ltac:(discriminate) H)
    as [commands [lc [logIndex [Hun [_ [_ Hr]]]]]].
  cbv zeta in Hr.
  destruct Hr as [Herr [_ [_ [_ [_ [Hconfig [_ [_ Hlatest]]]]]]]].
  destruct (unmarshalLogs_configuration _ _ _ _ _ Hun) as [Hlc Hcommands].
  specialize (Hcommands None). cbn [lastConfigurationCommand] in Hcommands.
  destruct (applyCommands_configuration commands f (data (db f)) (config (db f))
              (latestIndex f) (l :: logs) 0 [] None Herr I)
    as [Hstored [_ Hnone]].
  rewrite Hcommands in Hstored, Hnone.
  split.
  - rewrite Hlatest, lastConfiguration_latest, Hlc. reflexivity.
  - assert (Hkey : bolt.Get (config (db f')) latestConfigKey
                   = bolt.Get (batch_configB
                                 (applyCommands f (data (db f)) (config (db f))
                                    (latestIndex f) (l :: logs) 0 commands []))
                              latestConfigKey).
    { rewrite Hconfig. destruct (0 <? String.length logIndex)%nat; [|reflexivity].
      apply RestoreFacts.Get_insert_other. discriminate. }
    rewrite Hkey.
    destruct (lastConfiguration (l :: logs) None) as [c|].
    + exact Hstored.
    + now rewrite Hnone.
Qed.

(** X6: after a batch that is applied, the latest configuration of the FSM
    is the one of the last configuration entry of the batch, with the
    index of that entry, and its encoding is what the config bucket holds
    under [latestConfigKey]; a batch without a configuration entry leaves
    the configuration and that key of the bucket as they were. *)
Theorem ApplyBatch_latest_configuration :
  forall f logs resp f',
    ApplyBatch f logs = Returned (resp, f') ->
    latestConfig f' = lastConfiguration logs (latestConfig f)
    /\ match lastConfiguration logs None with
       | Some c =>
           exists configBytes,
             Marshal_ConfigurationValue c = inl configBytes
             /\ bolt.Get (config (db f')) latestConfigKey = Some configBytes
       | None =>
           bolt.Get (config (db f')) latestConfigKey
           = bolt.Get (config (db f)) latestConfigKey
       end.
Proof.
  intros f logs resp f' H.
  destruct (ApplyBatch_configuration f logs resp f' H) as [Hlatest Hstored].
  split; [exact Hlatest|exact Hstored].
Qed.

(** *** Restarting on the database file *)

(** The memory of the FSM agrees with its config bucket: the latest index
    and term are those stored under [latestIndexKey] and the latest
    configuration the one stored under [latestConfigKey]; without a stored
    value the memory holds what a new FSM starts with. *)
Definition persisted (f : FSM) : Prop :=
  match bolt.Get (config (db f)) latestIndexKey with
  | Some val =>
      Unmarshal_IndexValue val
      = inl {| Term := latestTerm f; Index := latestIndex f |}
  | None => latestIndex f = 0%N /\ latestTerm f = 0%N
  end
  /\ match bolt.Get (config (db f)) latestConfigKey with
     | Some val =>
         exists c, Unmarshal_ConfigurationValue val = inl c
                   /\ latestConfig f = Some c
     | None => latestConfig f = None
     end.

(** X7: a batch that is applied keeps the memory of the FSM in agreement
    with the config bucket, given that the index and term of the last log
    and the last configuration of the batch decode from their encodings. *)
Theorem ApplyBatch_persisted :
  forall f logs resp f',
    (forall logIndex,
        Marshal_IndexValue {| Term := Log.Term (lastLogOf logs);
                              Index := Log.Index (lastLogOf logs) |}
        = inl logIndex ->
        Unmarshal_IndexValue logIndex
        = inl {| Term := Log.Term (lastLogOf logs);
                 Index := Log.Index (lastLogOf logs) |}) ->
    (forall c configBytes,
        lastConfiguration logs None = Some c ->
        Marshal_ConfigurationValue c = inl configBytes ->
        Unmarshal_ConfigurationValue configBytes = inl c) ->
    persisted f ->
    ApplyBatch f logs = Returned (resp, f') ->
    persisted f'.
Proof.
  intros f logs resp f' Hindex Hconfig [Hpi Hpc] H.
  pose proof (ApplyBatch_configuration f logs resp f' H) as [Hlatest Hkey].
  destruct logs as [|l logs].
  { inversion H; subst. now split. }
  destruct (ApplyBatch_returned f (l :: logs) resp f' ltac:(discriminate) H)
    as [commands [lc [logIndex [Hun [Hmarshal [_ Hr]]]]]].
  cbv zeta in Hr.
  destruct Hr as [Herr [_ [_ [_ [_ [Hcfg [Hi [Ht _]]]]]]]].
  destruct (applyCommands_configuration commands f (data (db f)) (config (db f))
              (latestIndex f) (l :: logs) 0 [] None Herr I)
    as [_ [Hother _]].
  split.
  - rewrite Hcfg, Hi, Ht. unfold logIndexOf in Hmarshal.
    destruct (0 <? String.length logIndex)%nat eqn:Hadvanced.
    + rewrite RestoreFacts.Get_insert.
      destruct (latestIndex f <? Log.Index (lastLogOf (l :: logs)))%N;
        [now apply Hindex|].
      inversion Hmarshal; subst. discriminate.
    + rewrite Hother by discriminate. exact Hpi.
  - rewrite Hlatest, lastConfiguration_latest.
    destruct (lastConfiguration (l :: logs) None) as [c|] eqn:Hlast.
    + destruct Hkey as [configBytes [Hm Hget]]. rewrite Hget.
      exists c. split; [now apply (Hconfig c)|reflexivity].
    + rewrite Hkey. exact Hpc.
Qed.

(** X8: a new FSM on the database file of an FSM whose memory agrees
    with its config bucket starts with the same latest index, term and
    configuration, on the same buckets. *)
Theorem NewFSM_recovers :
  forall io f localID,
    persisted f ->
    openErr io = None ->
    exists f2,
      NewFSM io (db f) localID = (Some f2, None)
      /\ LatestState f2 = LatestState f
      /\ closed (db f2) = false
      /\ data (db f2) = data (db f)
      /\ config (db f2) = config (db f).
Proof.
  intros io f localID [Hpi Hpc] Hio.
  unfold NewFSM, openDBFile. rewrite Hio. cbv zeta.
  cbn [db config data latestConfig latestIndex latestTerm set_latest].
  unfold LatestState.
  destruct (bolt.Get (config (db f)) latestIndexKey) as [val|].
  - rewrite Hpi. cbn [Index Term set_latest latestConfig latestIndex latestTerm
                        db config data].
    destruct (bolt.Get (config (db f)) latestConfigKey) as [val'|].
    + destruct Hpc as [c [Hc Hlatest]]. rewrite Hc, Hlatest.
      eexists. split; [reflexivity|]. cbn. auto.
    + rewrite Hpc. eexists. split; [reflexivity|]. cbn. auto.
  - destruct Hpi as [Hi Ht]. rewrite Hi, Ht.
    destruct (bolt.Get (config (db f)) latestConfigKey) as [val'|].
    + destruct Hpc as [c [Hc Hlatest]]. rewrite Hc, Hlatest.
      eexists. split; [reflexivity|]. cbn. auto.
    + rewrite Hpc. eexists. split; [reflexivity|]. cbn. auto.
Qed.

(** X9: what a new FSM holds in memory is what the config bucket of its
    database file stores; it is open on the buckets of the file, its
    desired suffrage is a voter's and restores are not disabled. *)
Theorem NewFSM_persisted :
  forall io file localID f,
    NewFSM io file localID = (Some f, None) ->
    persisted f
    /\ closed (db f) = false
    /\ data (db f) = data file
    /\ config (db f) = config file
    /\ desiredSuffrage f = "voter"
    /\ noopRestore f = false.
Proof.
  intros io file localID f. unfold NewFSM, openDBFile, persisted.
  destruct (openErr io); [discriminate|]. cbv zeta.
  cbn [db config data latestConfig latestIndex latestTerm set_latest].
  destruct (bolt.Get (config file) latestIndexKey) as [val|] eqn:Hi.
  - destruct (Unmarshal_IndexValue val) as [[term index]|] eqn:Hval;
      [|discriminate].
    cbn [Index Term set_latest latestConfig latestIndex latestTerm
               db config data].
    destruct (bolt.Get (config file) latestConfigKey) as [val'|] eqn:Hc.
    + destruct (Unmarshal_ConfigurationValue val') as [c|] eqn:Hval';
        [|discriminate].
      intros [= <-]. cbn. rewrite Hi, Hc, Hval. repeat split.
      now exists c.
    + intros [= <-]. cbn. rewrite Hi, Hc, Hval. repeat split.
  - cbn [set_latest latestConfig latestIndex latestTerm db config data].
    destruct (bolt.Get (config file) latestConfigKey) as [val'|] eqn:Hc.
    + destruct (Unmarshal_ConfigurationValue val') as [c|] eqn:Hval';
        [|discriminate].
      intros [= <-]. cbn. rewrite Hi, Hc. repeat split.
      now exists c.
    + intros [= <-]. cbn. rewrite Hi, Hc. repeat split.
Qed.

(** *** Transactions that are applied *)

(** The errors of the store are not commit failures. *)
Lemma Put_error b key value err :
  bolt.Put b key value = inr err -> Is_ErrTransactionCommitFailure err = false.
Proof.
  unfold bolt.Put.
  repeat match goal with
         | |- (if ?c then _ else _) = _ -> _ => destruct c
         end; intros [= <-]; reflexivity.
Qed.

Lemma applyBatchTxOpsWrite_error ops :
  forall f b ts f' b' ts' err,
    applyBatchTxOpsWrite f b ts ops = (f', b', ts', Some err) ->
    Is_ErrTransactionCommitFailure err = false.
Proof.
  induction ops as [|op ops IH]; cbn [applyBatchTxOpsWrite];
    intros f b ts f' b' ts' err H; [discriminate|].
  destruct ((OpType op =? beginTxOp)%N || (OpType op =? commitTxOp)%N);
    [now apply IH in H|].
  destruct (OpType op =? putOp)%N.
  { destruct (bolt.Put b (Key op) (Value op)) as [b1|e] eqn:Hput;
      [now apply IH in H|].
    inversion H; subst. now apply Put_error in Hput. }
  destruct (OpType op =? deleteOp)%N; [cbn [bolt.Delete] in H; now apply IH in H|].
  destruct (OpType op =? verifyReadOp)%N; [now apply IH in H|].
  destruct (OpType op =? verifyListOp)%N; now apply IH in H.
Qed.

(** A batch in which a transaction passes its verification and then meets
    an error of the store in one of its writes; the entries before it are
    applied without an error. *)
Definition transactionWriteFailure (f : FSM) (logs : list Log.t)
           (commands : list command) : Prop :=
  exists pre command post f1 ts1 f2 b2 ts2 err,
    commands = pre ++ LogDataCommand command :: post /\
    Operations command <> [] /\
    opTypeAt (Operations command) 0 = beginTxOp /\
    batch_err (applyCommands f (data (db f)) (config (db f)) (latestIndex f)
                             logs 0 pre []) = None /\
    let r := applyCommands f (data (db f)) (config (db f)) (latestIndex f)
                           logs 0 pre [] in
    (applyBatchTxOpsVerify (batch_f r) (batch_b r)
       (setInTx (ApplyFacts.entryState (batch_f r) (latestIndex f) logs
                                       (length pre)))
       (Operations command) 0 (Operations command) = (f1, ts1, None)) /\
    (applyBatchTxOpsWrite f1 (batch_b r) ts1 (Operations command)
     = (f2, b2, ts2, Some err)).

(** X10: an error of the store in a write of a transaction that passed
    its verification is not reported as a failure of the transaction:
    [ApplyBatch] panics, as it does for an entry that is not a
    transaction. *)
Theorem ApplyBatch_transaction_write_panics :
  forall f logs commands latestConfiguration,
    unmarshalLogs logs [] None = Returned (commands, latestConfiguration) ->
    transactionWriteFailure f logs commands ->
    exists msg, ApplyBatch f logs = Panic msg.
Proof.
  intros f logs commands lc Hun
         [pre [command [post [f1 [ts1 [f2 [b2 [ts2 [err
           [Hcmds [Hne [Hbegin [Hpre [Hverify Hwrite]]]]]]]]]]]]]].
  cbv zeta in Hverify, Hwrite.
  assert (Hlen : length commands = length logs)
    by (now rewrite (ApplyFacts.unmarshalLogs_length _ _ _ _ _ Hun)).
  unfold ApplyBatch.
  destruct (length logs =? 0)%nat eqn:Hzero.
  { apply Nat.eqb_eq in Hzero. rewrite Hzero in Hlen.
    rewrite Hcmds, length_app in Hlen. simpl in Hlen. lia. }
  rewrite Hun.
  match goal with
  | |- exists msg, match ?m with _ => _ end = _ => destruct m as [logIndex|e]
  end; [|eexists; reflexivity].
  destruct (closed (db f)); [eexists; reflexivity|].
  rewrite Hcmds, ApplyFacts.applyCommands_app by exact Hpre.
  cbv zeta. simpl (0 + length pre).
  rewrite applyCommands_LogData. unfold applyLogData. cbv zeta.
  assert (Htx : (length (Operations command) =? 0)%nat
                || negb (opTypeAt (Operations command) 0 =? beginTxOp)%N = false).
  { rewrite Hbegin. destruct (Operations command); [contradiction|reflexivity]. }
  rewrite Htx. unfold applyBatchTxOps.
  unfold ApplyFacts.entryState in Hverify. rewrite Hverify, Hwrite.
  rewrite (applyBatchTxOpsWrite_error _ _ _ _ _ _ _ _ Hwrite), andb_false_r.
  eexists; reflexivity.
Qed.

(** The puts and deletes among the operations. *)
Definition isWrite (op : LogOperation) : bool :=
  (OpType op =? putOp)%N || (OpType op =? deleteOp)%N.

Lemma applyBatchTxOpsWrite_writes ops :
  forall f b ts f' b' ts',
    applyBatchTxOpsWrite f b ts ops = (f', b', ts', None) ->
    forall g ts0,
      exists ts0',
        applyBatchNonTxOpsLoop g b ts0 (filter isWrite ops)
        = (g, b', ts0', None).
Proof.
  induction ops as [|op ops IH]; cbn [applyBatchTxOpsWrite filter];
    intros f b ts f' b' ts' H g ts0.
  - inversion H; subst. now exists ts0.
  - unfold isWrite at 1.
    destruct ((OpType op =? beginTxOp)%N || (OpType op =? commitTxOp)%N) eqn:Hm.
    { assert (Hw : (OpType op =? putOp)%N || (OpType op =? deleteOp)%N = false).
      { apply orb_true_iff in Hm.
        destruct Hm as [Hm|Hm]; apply N.eqb_eq in Hm; now rewrite Hm. }
      rewrite Hw. now apply (IH _ _ _ _ _ _ H). }
    destruct (OpType op =? putOp)%N eqn:Hput.
    { cbn [orb applyBatchNonTxOpsLoop]. rewrite Hput.
      destruct (bolt.Put b (Key op) (Value op)) as [b1|e]; [|discriminate].
      now apply (IH _ _ _ _ _ _ H). }
    destruct (OpType op =? deleteOp)%N eqn:Hdel.
    { cbn [orb applyBatchNonTxOpsLoop]. rewrite Hput, Hdel.
      cbn [bolt.Delete] in H |- *. now apply (IH _ _ _ _ _ _ H). }
    cbn [orb].
    destruct (OpType op =? verifyReadOp)%N; [now apply (IH _ _ _ _ _ _ H)|].
    destruct (OpType op =? verifyListOp)%N; now apply (IH _ _ _ _ _ _ H).
Qed.

(** X11: a transaction that is applied leaves the data bucket that its
    puts and deletes, applied in their order as the operations of an entry
    that is not a transaction, leave. *)
Theorem applyBatchTxOps_writes :
  forall f b ts command f' b' ts' g ts0,
    applyBatchTxOps f b ts command = (f', b', ts', None) ->
    exists ts0',
      applyBatchNonTxOps g b ts0
        {| Operations := filter isWrite (Operations command) |}
      = (g, b', ts0', None).
Proof.
  intros f b ts command f' b' ts' g ts0. unfold applyBatchTxOps.
  destruct (applyBatchTxOpsVerify f b (setInTx ts) (Operations command) 0
                                  (Operations command))
    as [[f1 ts1] [e|]]; [discriminate|].
  destruct (applyBatchTxOpsWrite f1 b ts1 (Operations command))
    as [[[f2 b2] ts2] [e|]] eqn:Hwrite; [discriminate|].
  intros [= _ <- _].
  apply (applyBatchTxOpsWrite_writes _ _ _ _ _ _ _ Hwrite).
Qed.

End WithCollaborators.

(** *** The theorems at the examples *)

Import Examples.

(** A configuration entry and a put, applied to the empty FSM. *)
Definition configurationLogs : list Log.t :=
  [Log.mk 3 1 LogConfiguration ""; commandLog 5 "put-foo"].

Lemma ApplyBatch_latest_index_witness :
  exists resp f',
    ApplyBatch (codec := decimalCodec) (verifier := verifier) emptyFSM
               configurationLogs = Returned (resp, f')
    /\ (latestIndex emptyFSM <= latestIndex f')%N
    /\ (latestIndex f' <> latestIndex emptyFSM ->
        latestIndex f' = Log.Index (lastLogOf configurationLogs)
        /\ latestTerm f' = Log.Term (lastLogOf configurationLogs)
        /\ (latestIndex emptyFSM < latestIndex f')%N)
    /\ (latestIndex f' = latestIndex emptyFSM ->
        latestTerm f' = latestTerm emptyFSM).
Proof.
  eexists. eexists. split; [vm_compute; reflexivity|].
  eapply (@ApplyBatch_latest_index decimalCodec verifier emptyFSM
            configurationLogs).
  vm_compute. reflexivity.
Defined.

Lemma ApplyBatch_latest_configuration_witness :
  exists resp f',
    ApplyBatch (codec := decimalCodec) (verifier := verifier) emptyFSM
               configurationLogs = Returned (resp, f')
    /\ latestConfig f' = Some {| ConfigurationIndex := 3; Servers := [] |}
    /\ bolt.Get (config (db f')) latestConfigKey = Some "3".
Proof.
  eexists. eexists. split; [vm_compute; reflexivity|].
  destruct (@ApplyBatch_latest_configuration decimalCodec verifier emptyFSM
              configurationLogs _ _ eq_refl) as [Hlatest Hstored].
  split; [exact Hlatest|].
  destruct Hstored as [configBytes [Hmarshal Hget]].
  vm_compute in Hmarshal. inversion Hmarshal; subst. exact Hget.
Defined.

Lemma ApplyBatch_persisted_witness :
  exists resp f',
    ApplyBatch (codec := decimalCodec) (verifier := verifier) emptyFSM
               configurationLogs = Returned (resp, f')
    /\ persisted (codec := decimalCodec) f'.
Proof.
  eexists. eexists. split; [vm_compute; reflexivity|].
  eapply (@ApplyBatch_persisted decimalCodec verifier emptyFSM configurationLogs).
  - intros logIndex H. vm_compute in H. inversion H; subst. reflexivity.
  - intros c configBytes Hc H. vm_compute in Hc. inversion Hc; subst.
    vm_compute in H. inversion H; subst. reflexivity.
  - vm_compute. auto.
  - vm_compute. reflexivity.
Defined.

(** An FSM at index 5 of term 1 with the configuration of index 3, as its
    config bucket stores them. *)
Definition atIndexFive : FSM :=
  {| latestIndex := 5; latestTerm := 1;
     latestConfig := Some {| ConfigurationIndex := 3; Servers := [] |};
     noopRestore := false;
     db := {| closed := false; data := [("foo", "bar")];
              config := [("latest_config", "3"); ("latest_indexes", "1/5")] |};
     restoreCb := false; restoreCbStarted := 0; localID := "node1";
     desiredSuffrage := "voter"; unknownOpTypes := [];
     fastTxnTracker := [] |}.

Lemma NewFSM_recovers_witness :
  exists f2,
    NewFSM (codec := decimalCodec) RestoreFacts.noFailure (db atIndexFive) "node1"
    = (Some f2, None)
    /\ LatestState f2 = LatestState atIndexFive
    /\ closed (db f2) = false
    /\ data (db f2) = data (db atIndexFive)
    /\ config (db f2) = config (db atIndexFive).
Proof.
  apply (@NewFSM_recovers decimalCodec RestoreFacts.noFailure atIndexFive "node1").
  - vm_compute. split; [reflexivity|]. eexists. split; reflexivity.
  - reflexivity.
Defined.

Lemma NewFSM_persisted_witness :
  exists f,
    NewFSM (codec := decimalCodec) RestoreFacts.noFailure (db atIndexFive) "node1"
    = (Some f, None)
    /\ persisted (codec := decimalCodec) f
    /\ closed (db f) = false
    /\ data (db f) = data (db atIndexFive)
    /\ config (db f) = config (db atIndexFive)
    /\ desiredSuffrage f = "voter"
    /\ noopRestore f = false.
Proof.
  eexists. split; [vm_compute; reflexivity|].
  eapply (@NewFSM_persisted decimalCodec RestoreFacts.noFailure (db atIndexFive)
            "node1").
  vm_compute. reflexivity.
Defined.

Lemma ApplyBatch_transaction_write_panics_witness :
  exists msg,
    ApplyBatch (codec := decimalCodec) (verifier := verifier) emptyFSM
               [commandLog 1 "put-foo"; commandLog 2 "tx-empty-key"]
    = Panic msg.
Proof.
  apply (@ApplyBatch_transaction_write_panics decimalCodec verifier emptyFSM
           [commandLog 1 "put-foo"; commandLog 2 "tx-empty-key"]
           [LogDataCommand putFoo; LogDataCommand txEmptyKey] None).
  - reflexivity.
  - exists [LogDataCommand putFoo], txEmptyKey, [].
    eexists. eexists. eexists. eexists. eexists. exists ErrKeyRequired.
    split; [reflexivity|]. split; [discriminate|]. split; [reflexivity|].
    split; [reflexivity|]. split; vm_compute; reflexivity.
Defined.

Lemma applyBatchTxOps_writes_witness :
  exists ts0',
    applyBatchNonTxOps emptyFSM [("foo", "bar"); ("old", "entry")]
      (applyState [] 0 0 1)
      {| Operations := filter isWrite (Operations txFresh) |}
    = (emptyFSM, [("foo", "new"); ("new", "entry")], ts0', None).
Proof.
  eapply (@applyBatchTxOps_writes verifier emptyFSM
            [("foo", "bar"); ("old", "entry")] (applyState [] 0 0 1) txFresh).
  vm_compute. reflexivity.
Defined.

End BatchFacts.

(** ** Transactions that are rejected *)

Module TransactionFacts.

Import raft ApplyFacts BatchFacts.

Section WithCollaborators.

Context {codec : Codec} {verifier : TxnVerifier}.

(** The first loop of [applyBatchTxOps], operation by operation. *)
Lemma applyBatchTxOpsVerify_app operations xs :
  forall ys f b ts index,
    applyBatchTxOpsVerify f b ts operations index (xs ++ ys)
    = match applyBatchTxOpsVerify f b ts operations index xs with
      | (f', ts', None) =>
          applyBatchTxOpsVerify f' b ts' operations (index + length xs) ys
      | (f', ts', Some err) => (f', ts', Some err)
      end.
Proof.
  induction xs as [|op xs IH]; intros ys f b ts index.
  - cbn [app applyBatchTxOpsVerify length]. now rewrite Nat.add_0_r.
  - cbn [app applyBatchTxOpsVerify length].
    rewrite Nat.add_succ_r, <- Nat.add_succ_l.
    repeat match goal with
           | |- (if ?c then _ else _) = _ => destruct c
           | |- match ?x with _ => _ end = _ => destruct x
           end; try reflexivity; apply IH.
Qed.

(** A transaction whose first loop ends in an error is left at once: the
    data bucket is the one it was given. *)
Lemma applyBatchTxOps_rejected f b ts command f1 ts1 err :
  applyBatchTxOpsVerify f b (setInTx ts) (Operations command) 0
                        (Operations command) = (f1, ts1, Some err) ->
  applyBatchTxOps f b ts command = (f1, b, ts1, Some err)
  /\ getInTx ts1 = true.
Proof.
  intros Hverify. unfold applyBatchTxOps. rewrite Hverify.
  split; [reflexivity|].
  unfold getInTx.
  now rewrite (applyBatchTxOpsVerify_inTx _ _ _ _ _ _ _ _ _ Hverify).
Qed.

(** The FSM that the loop over the commands goes on with after an entry: the
    trace of the entry is in the tracker. *)
Definition afterEntry (f : FSM) (ts : fsmTxnCommitIndexApplicationState)
  : FSM :=
  set_apply f (restoreCbStarted f) (unknownOpTypes f) (trace ts).

(** The step of the loop over the commands at a transaction that returns an
    error. *)
Lemma applyCommands_tx_error f b configB latestIndex logs commandIndex command
      rest slices f1 b1 ts1 err :
  Operations command <> [] ->
  opTypeAt (Operations command) 0 = beginTxOp ->
  applyBatchTxOps f b (entryState f latestIndex logs commandIndex) command
  = (f1, b1, ts1, Some err) ->
  applyCommands f b configB latestIndex logs commandIndex
                (LogDataCommand command :: rest) slices
  = if getInTx ts1 && Is_ErrTransactionCommitFailure err
    then applyCommands (afterEntry f1 ts1) b1 configB latestIndex logs
                       (S commandIndex) rest (slices ++ [[txError err]])
    else {| batch_f := afterEntry f1 ts1; batch_b := b1;
            batch_configB := configB; entrySlices := slices ++ [[]];
            batch_err := Some err |}.
Proof.
  intros Hne Hbegin Happ. cbn [applyCommands].
  destruct (Operations command) as [|op ops] eqn:Hops; [now contradiction Hne|].
  rewrite Hbegin. cbn [length Nat.eqb orb].
  rewrite N.eqb_refl. cbn [negb].
  unfold entryState in Happ. rewrite Happ. reflexivity.
Qed.

(** The loop over the commands adds to the entry slices it was given. *)
Lemma applyCommands_entrySlices commands :
  forall f b configB latestIndex logs commandIndex slices,
    exists more,
      entrySlices (applyCommands f b configB latestIndex logs commandIndex
                                 commands slices) = slices ++ more.
Proof.
  induction commands as [|c commands IH];
    intros f b configB latestIndex logs commandIndex slices.
  - exists []. cbn. now rewrite app_nil_r.
  - assert (Hstep : forall f' b' cb' slice,
               exists more,
                 entrySlices (applyCommands f' b' cb' latestIndex logs
                                (S commandIndex) commands (slices ++ [slice]))
                 = slices ++ more).
    { intros f' b' cb' slice.
      destruct (IH f' b' cb' latestIndex logs (S commandIndex)
                   (slices ++ [slice])) as [more Hmore].
      exists (slice :: more). rewrite Hmore. now rewrite <- app_assoc. }
    destruct c as [command|config]; cbn [applyCommands].
    + destruct (if (length (Operations command) =? 0)%nat
                   || negb (opTypeAt (Operations command) 0 =? beginTxOp)%N
                then applyBatchNonTxOps f b (applyState (fastTxnTracker f)
                       latestIndex commandIndex (logIndexAt logs commandIndex))
                       command
                else applyBatchTxOps f b (applyState (fastTxnTracker f)
                       latestIndex commandIndex (logIndexAt logs commandIndex))
                       command) as [[[f1 b1] ts1] [err|]].
      * destruct (getInTx ts1 && Is_ErrTransactionCommitFailure err);
          [apply Hstep|].
        exists [[]]. reflexivity.
      * apply Hstep.
    + destruct (Marshal_ConfigurationValue config) as [configBytes|];
        [|exists []; cbn; now rewrite app_nil_r].
      destruct (bolt.Put configB latestConfigKey configBytes);
        [apply Hstep|exists []; cbn; now rewrite app_nil_r].
Qed.

Lemma buildResponses_nth logs :
  forall slices resp i slice,
    buildResponses logs slices = Returned resp ->
    i < length logs ->
    nth_error slices i = Some slice ->
    nth_error resp i = Some {| Success := true; EntrySlice := slice |}.
Proof.
  induction logs as [|l logs IH]; intros slices resp i slice H Hi Hnth.
  - cbn in Hi. lia.
  - cbn [buildResponses] in H. destruct slices as [|s0 slices]; [discriminate|].
    destruct (buildResponses logs slices) as [resp'|] eqn:Hb; [|discriminate].
    inversion H; subst. destruct i as [|i]; cbn in Hnth |- *.
    + now inversion Hnth.
    + apply (IH slices resp' i slice Hb); [cbn in Hi; lia|exact Hnth].
Qed.

Lemma buildResponses_total logs :
  forall slices,
    length logs <= length slices ->
    exists resp, buildResponses logs slices = Returned resp.
Proof.
  induction logs as [|l logs IH]; intros slices Hlen.
  - now exists [].
  - destruct slices as [|s0 slices]; [cbn in Hlen; lia|].
    destruct (IH slices) as [resp Hresp]; [cbn in Hlen; lia|].
    cbn [buildResponses]. rewrite Hresp. eexists. reflexivity.
Qed.

(** The state of the loop over the commands when it has applied the entries
    [pre] that come before an entry of the batch. *)
Definition loopBefore (f : FSM) (logs : list Log.t) (pre : list command)
  : batch :=
  applyCommands f (data (db f)) (config (db f)) (latestIndex f) logs 0 pre [].

(** The loop over the entries [post] that come after an entry which was
    rejected with [err]: it starts from the FSM [f1] that the rejected entry
    leaves, with the buckets as they were before that entry and with the
    sentinel added to the entry slices. *)
Definition loopAfter (f : FSM) (logs : list Log.t) (pre post : list command)
           (f1 : FSM) (err : error) : batch :=
  applyCommands f1 (batch_b (loopBefore f logs pre))
                (batch_configB (loopBefore f logs pre)) (latestIndex f) logs
                (S (length pre)) post
                (entrySlices (loopBefore f logs pre) ++ [[txError err]]).

(** The latest index of the batch can be stored: it is marshalled, and put
    into the config bucket when it advances. *)
Definition indexStored (f : FSM) (logs : list Log.t) (configB : bolt.Bucket)
  : Prop :=
  exists logIndex,
    logIndexOf f logs = inl logIndex
    /\ ((0 <? String.length logIndex)%nat = true ->
        exists configB', bolt.Put configB latestIndexKey logIndex = inl configB').

(** [ApplyBatch] in terms of the loop over the commands, when the database
    is open. *)
Lemma ApplyBatch_open f logs commands latestConfiguration :
  unmarshalLogs logs [] None = Returned (commands, latestConfiguration) ->
  commands <> [] ->
  closed (db f) = false ->
  let r := applyCommands f (data (db f)) (config (db f)) (latestIndex f)
                         logs 0 commands [] in
  (forall err, batch_err r = Some err -> exists msg, ApplyBatch f logs = Panic msg)
  /\ (batch_err r = None ->
      indexStored f logs (batch_configB r) ->
      exists resp f', ApplyBatch f logs = Returned (resp, f')).
Proof.
  intros Hun Hne Hopen r.
  assert (Hlen : length commands = length logs)
    by (now rewrite (unmarshalLogs_length _ _ _ _ _ Hun)).
  assert (Hzero : (length logs =? 0)%nat = false).
  { apply Nat.eqb_neq. rewrite <- Hlen. destruct commands; [contradiction|].
    discriminate. }
  unfold ApplyBatch. cbv zeta. rewrite Hzero, Hun, Hopen.
  fold (lastLogOf logs). fold (logIndexOf f logs). fold r. split.
  - intros err Herr. rewrite Herr.
    destruct (logIndexOf f logs); eexists; reflexivity.
  - intros Herr [logIndex [Hindex Hput]]. rewrite Herr, Hindex.
    cbn [db set_db config data].
    destruct (applyCommands_slices commands f (data (db f)) (config (db f))
                (latestIndex f) logs 0 [] Herr (Forall_nil _)) as [Hslices _].
    fold r in Hslices. cbn [length] in Hslices.
    destruct (buildResponses_total logs (entrySlices r)) as [resp Hresp];
      [lia|].
    destruct (0 <? String.length logIndex)%nat.
    + destruct (Hput eq_refl) as [configB' ->]. rewrite Hresp.
      eexists. eexists. reflexivity.
    + rewrite Hresp. eexists. eexists. reflexivity.
Qed.

(** An entry of a batch that is a transaction and returns an error.  When
    the error is a transaction commit failure, the response of the entry
    holds the sentinel, the loop goes on with the entries after it, and
    [ApplyBatch] returns when these are applied and the latest index is
    stored; any other error makes [ApplyBatch] panic. *)
Lemma ApplyBatch_tx_error f logs commands latestConfiguration pre command post
      f1 b1 ts1 err :
  unmarshalLogs logs [] None = Returned (commands, latestConfiguration) ->
  commands = pre ++ LogDataCommand command :: post ->
  batch_err (loopBefore f logs pre) = None ->
  Operations command <> [] ->
  opTypeAt (Operations command) 0 = beginTxOp ->
  applyBatchTxOps (batch_f (loopBefore f logs pre))
                  (batch_b (loopBefore f logs pre))
                  (entryState (batch_f (loopBefore f logs pre)) (latestIndex f)
                              logs (length pre))
                  command
  = (f1, b1, ts1, Some err) ->
  getInTx ts1 = true ->
  b1 = batch_b (loopBefore f logs pre) ->
  let rest := loopAfter f logs pre post (afterEntry f1 ts1) err in
  (Is_ErrTransactionCommitFailure err = true ->
   (forall resp f',
       ApplyBatch f logs = Returned (resp, f') ->
       nth_error resp (length pre)
       = Some {| Success := true;
                 EntrySlice := [FSMEntry.mk fsmEntryTxErrorKey (Error err)] |}
       /\ data (db f') = batch_b rest)
   /\ (closed (db f) = false ->
       batch_err rest = None ->
       indexStored f logs (batch_configB rest) ->
       exists resp f', ApplyBatch f logs = Returned (resp, f')))
  /\ (Is_ErrTransactionCommitFailure err = false ->
      exists msg, ApplyBatch f logs = Panic msg).
Proof.
  intros Hun Hcmds Hpre Hne Hbegin Happ HinTx Hb rest.
  assert (Hcne : commands <> [])
    by (rewrite Hcmds; destruct pre; discriminate).
  assert (Hlen : length commands = length logs)
    by (now rewrite (unmarshalLogs_length _ _ _ _ _ Hun)).
  assert (Hloop :
            applyCommands f (data (db f)) (config (db f)) (latestIndex f) logs 0
                          commands []
            = if Is_ErrTransactionCommitFailure err then rest
              else {| batch_f := afterEntry f1 ts1; batch_b := b1;
                      batch_configB := batch_configB (loopBefore f logs pre);
                      entrySlices := entrySlices (loopBefore f logs pre) ++ [[]];
                      batch_err := Some err |}).
  { rewrite Hcmds, applyCommands_app by exact Hpre. cbv zeta.
    cbn [Nat.add]. fold (loopBefore f logs pre).
    rewrite (applyCommands_tx_error _ _ _ _ _ _ _ _ _ _ _ _ _ Hne Hbegin Happ).
    rewrite HinTx. cbn [andb]. subst b1. reflexivity. }
  split.
  - intros Htx. rewrite Htx in Hloop. split.
    + intros resp f' Hret.
      assert (Hlogs : logs <> [])
        by (intros ->; destruct commands; [contradiction|discriminate]).
      destruct (ApplyBatch_returned f logs resp f' Hlogs Hret)
        as [commands' [lc' [logIndex [Hun' [_ [_ Hrest]]]]]].
      rewrite Hun in Hun'. inversion Hun'; subst commands' lc'. clear Hun'.
      cbv zeta in Hrest. rewrite Hloop in Hrest.
      destruct Hrest as [Herr [Hbuild [_ [_ [Hdata _]]]]].
      split; [|exact Hdata].
      apply (buildResponses_nth logs (entrySlices rest) resp (length pre)
               [txError err] Hbuild).
      * rewrite <- Hlen, Hcmds, length_app. cbn [length]. lia.
      * unfold rest, loopAfter.
        destruct (applyCommands_entrySlices post (afterEntry f1 ts1)
                    (batch_b (loopBefore f logs pre))
                    (batch_configB (loopBefore f logs pre)) (latestIndex f) logs
                    (S (length pre))
                    (entrySlices (loopBefore f logs pre) ++ [[txError err]]))
          as [more ->].
        destruct (applyCommands_slices pre f (data (db f)) (config (db f))
                    (latestIndex f) logs 0 [] Hpre (Forall_nil _))
          as [Hslices _].
        fold (loopBefore f logs pre) in Hslices. cbn [length] in Hslices.
        rewrite <- app_assoc, nth_error_app2 by lia.
        rewrite Hslices, Nat.sub_diag. reflexivity.
    + intros Hopen Herr Hindex.
      destruct (ApplyBatch_open f logs commands latestConfiguration Hun Hcne Hopen)
        as [_ Hreturns].
      rewrite Hloop in Hreturns. now apply Hreturns.
  - intros Htx. rewrite Htx in Hloop.
    destruct (closed (db f)) eqn:Hopen.
    + unfold ApplyBatch. cbv zeta.
      assert (Hzero : (length logs =? 0)%nat = false).
      { apply Nat.eqb_neq. rewrite <- Hlen. destruct commands; [contradiction|].
        discriminate. }
      rewrite Hzero, Hun, Hopen.
      match goal with
      | |- exists msg, match ?m with _ => _ end = _ => destruct m
      end; eexists; reflexivity.
    + destruct (ApplyBatch_open f logs commands latestConfiguration Hun Hcne Hopen)
        as [Hpanics _].
      rewrite Hloop in Hpanics. now apply (Hpanics err).
Qed.




End WithCollaborators.

Section FailedVerify.

Context {codec : Codec}.

Variable checks : TxnChecks.

(** The check of a verify operation fails with [text]. *)
Definition checkFails (ts : fsmTxnCommitIndexApplicationState)
           (b : bolt.Bucket) (op : LogOperation) (text : string * string)
  : Prop :=
  (OpType op = verifyReadOp /\ checkRead checks ts b op = Some text)
  \/ (OpType op = verifyListOp /\ checkList checks ts b op = Some text).

(** C1: a transaction (first operation [beginTxOp]) of which a verify
    operation fails is rejected as a transaction commit failure, and the
    batch goes on.  The entry is reached by the loop over the commands, the
    first loop of [applyBatchTxOps] comes to the verify operation [op]
    without an error, and the check of [op] fails; its error is the one of a
    failed verification, which wraps [ErrTransactionCommitFailure].  Then
    [applyBatchTxOps] returns that error with the data bucket it was given:
    none of the puts and deletes of the transaction is applied.  When
    [ApplyBatch] returns, the response of the entry holds the sentinel
    [FSMEntry] whose key is [fsmEntryTxErrorKey] and whose value is the text
    of the error, and the data bucket of the FSM is the one that the loop
    over the remaining entries makes of the bucket from before the
    transaction; and [ApplyBatch] does return when the remaining entries are
    applied without an error and the latest index is stored. *)
Theorem ApplyBatch_rejects_failed_verify :
  forall f logs commands latestConfiguration pre command post
         before op after f1 ts1 text,
    unmarshalLogs logs [] None = Returned (commands, latestConfiguration) ->
    commands = pre ++ LogDataCommand command :: post ->
    batch_err (loopBefore (verifier := specVerifier checks) f logs pre) = None ->
    let f0 := batch_f (loopBefore (verifier := specVerifier checks) f logs pre) in
    let b0 := batch_b (loopBefore (verifier := specVerifier checks) f logs pre) in
    let ts0 := entryState f0 (latestIndex f) logs (length pre) in
    opTypeAt (Operations command) 0 = beginTxOp ->
    Operations command = before ++ op :: after ->
    applyBatchTxOpsVerify (verifier := specVerifier checks) f0 b0 (setInTx ts0)
                          (Operations command) 0 before = (f1, ts1, None) ->
    checkFails ts1 b0 op text ->
    let err := verifyFailed text in
    let rest := loopAfter (verifier := specVerifier checks) f logs pre post
                          (afterEntry f1 ts1) err in
    applyBatchTxOps (verifier := specVerifier checks) f0 b0 ts0 command
    = (f1, b0, ts1, Some err)
    /\ Is_ErrTransactionCommitFailure err = true
    /\ (forall resp f',
           ApplyBatch (verifier := specVerifier checks) f logs
           = Returned (resp, f') ->
           nth_error resp (length pre)
           = Some {| Success := true;
                     EntrySlice :=
                       [FSMEntry.mk fsmEntryTxErrorKey (Error err)] |}
           /\ data (db f') = batch_b rest)
    /\ (closed (db f) = false ->
        batch_err rest = None ->
        indexStored f logs (batch_configB rest) ->
        exists resp f',
          ApplyBatch (verifier := specVerifier checks) f logs
          = Returned (resp, f')).
Proof.
  intros f logs commands latestConfiguration pre command post before op after
         f1 ts1 text Hun Hcmds Hpre f0 b0 ts0 Hbegin Hops Hbefore Hfail err rest.
  assert (Hverify :
            applyBatchTxOpsVerify (verifier := specVerifier checks) f0 b0
              (setInTx ts0) (Operations command) 0 (Operations command)
            = (f1, ts1, Some err)).
  { rewrite Hops in Hbefore |- *.
    rewrite (applyBatchTxOpsVerify_app (verifier := specVerifier checks)
               (before ++ op :: after) before (op :: after)).
    rewrite Hbefore. cbn [applyBatchTxOpsVerify].
    destruct Hfail as [[Hop Hcheck]|[Hop Hcheck]]; rewrite Hop;
      cbn [verifyReadOp verifyListOp beginTxOp commitTxOp putOp deleteOp
           N.eqb Pos.eqb orb doVerifyRead doVerifyList specVerifier];
      rewrite Hcheck; reflexivity. }
  destruct (applyBatchTxOps_rejected (verifier := specVerifier checks)
              f0 b0 ts0 command f1 ts1 err Hverify) as [Happ HinTx].
  split; [exact Happ|]. split; [reflexivity|].
  destruct (ApplyBatch_tx_error (verifier := specVerifier checks) f logs commands
              latestConfiguration pre command post f1 b0 ts1 err Hun Hcmds Hpre)
    as [Hrejected _];
    [rewrite Hops; destruct before; discriminate
    |exact Hbegin|exact Happ|exact HinTx|reflexivity|].
  exact (Hrejected eq_refl).
Qed.

End FailedVerify.

(** *** The theorems at the examples *)

Import Examples.

(** The checks of the examples: the begin value is an index in decimal, a
    read is verified against the value that the bucket holds, and every list
    is accepted. *)
Definition storedChecks : TxnChecks :=
  {| parseBegin := fun value =>
       match parseDecimal value with
       | Some index => inl index
       | None => inr (errors_New "begin value is not an index")
       end;
     checkRead := fun _ b o =>
       match bolt.Get b (Key o) with
       | Some v =>
           if (v =? Value o)%string then None
           else Some ("verify read failed: ", "")
       | None =>
           if (Value o =? "")%string then None
           else Some ("verify read failed: ", "")
       end;
     checkList := fun _ _ _ => None |}.

(** A transaction on a stale read, one with a second begin inside, and the
    same with a begin value that is not an index. *)
Definition txStaleRead : LogData :=
  {| Operations := [op beginTxOp "" "7"; op verifyReadOp "foo" "old";
                    op putOp "foo" "new"; op commitTxOp "" ""] |}.
Definition txNested : LogData :=
  {| Operations := [op beginTxOp "" "7"; op putOp "foo" "new";
                    op beginTxOp "" "8"; op commitTxOp "" ""] |}.
Definition txNestedUnparsed : LogData :=
  {| Operations := [op beginTxOp "" "seven"; op putOp "foo" "new";
                    op beginTxOp "" "8"; op commitTxOp "" ""] |}.
Definition putBaz : LogData :=
  {| Operations := [op putOp "baz" "qux"] |}.

#[local] Instance txCodec : Codec := {|
  Unmarshal_LogData data :=
    if (data =? "put-foo")%string then inl putFoo
    else if (data =? "put-baz")%string then inl putBaz
    else if (data =? "tx-stale-read")%string then inl txStaleRead
    else if (data =? "tx-nested")%string then inl txNested
    else if (data =? "tx-nested-unparsed")%string then inl txNestedUnparsed
    else inr (errors_New "proto: cannot parse invalid wire-format data");
  DecodeConfiguration data :=
    if (data =? "")%string then Some [] else None;
  Marshal_IndexValue v := inl "index";
  Unmarshal_IndexValue data := inl {| Term := 0; Index := 0 |};
  Marshal_ConfigurationValue c := inl "configuration";
  Unmarshal_ConfigurationValue data :=
    inl {| ConfigurationIndex := 0; Servers := [] |};
  Marshal_LocalNodeConfigValue c := inl (DesiredSuffrage c);
  Unmarshal_LocalNodeConfigValue data := inl {| DesiredSuffrage := data |}
|}.

(** A put, the transaction on the stale read and another put: the
    transaction gets the sentinel, [foo] keeps the value of the first put,
    and the put after the transaction is applied. *)
Lemma ApplyBatch_rejects_failed_verify_witness :
  exists resp f',
    ApplyBatch (verifier := specVerifier storedChecks) emptyFSM
               [commandLog 1 "put-foo"; commandLog 2 "tx-stale-read";
                commandLog 3 "put-baz"]
    = Returned (resp, f')
    /\ nth_error resp 1
       = Some {| Success := true;
                 EntrySlice :=
                   [FSMEntry.mk fsmEntryTxErrorKey
                      (Error (verifyFailed ("verify read failed: ", "")))] |}
    /\ bolt.Get (data (db f')) "foo" = Some "bar"
    /\ bolt.Get (data (db f')) "baz" = Some "qux".
Proof.
  eexists. eexists. split; [vm_compute; reflexivity|].
  epose proof (@ApplyBatch_rejects_failed_verify txCodec storedChecks emptyFSM
                 [commandLog 1 "put-foo"; commandLog 2 "tx-stale-read";
                  commandLog 3 "put-baz"]
                 _ _ [LogDataCommand putFoo] txStaleRead [LogDataCommand putBaz]
                 [op beginTxOp "" "7"] (op verifyReadOp "foo" "old")
                 [op putOp "foo" "new"; op commitTxOp "" ""] _ _
                 ("verify read failed: ", "")) as Hrejected.
  edestruct Hrejected as [_ [_ [Hresp _]]]; clear Hrejected.
  - vm_compute. reflexivity.
  - reflexivity.
  - vm_compute. reflexivity.
  - reflexivity.
  - reflexivity.
  - vm_compute. reflexivity.
  - left. split; [reflexivity|]. vm_compute. reflexivity.
  - edestruct Hresp as [Hnth Hdata]; [vm_compute; reflexivity|].
    split; [exact Hnth|]. rewrite Hdata. vm_compute. split; reflexivity.
Defined.



End TransactionFacts.

(** ** Snapshots and the desired suffrage *)

Module SnapshotFacts.

Import raft RestoreFacts.

Section WithCodec.

Context {codec : Codec}.

Lemma localNodeConfig_db f f' lnConfig err :
  localNodeConfig f = (f', lnConfig, err) -> db f' = db f.
Proof.
  unfold localNodeConfig.
  destruct (closed (db f)); [now intros [= <- _ _]|].
  destruct (bolt.Get (config (db f)) localNodeConfigKey) as [configBytes|];
    [|now intros [= <- _ _]].
  destruct (Unmarshal_LocalNodeConfigValue configBytes);
    now intros [= <- _ _].
Qed.

Lemma openDBFile_buckets io f f' err :
  openDBFile io f = (f', err) ->
  data (db f') = data (db f) /\ config (db f') = config (db f).
Proof.
  unfold openDBFile. cbv zeta. intros H.
  destruct (openErr io); [now inversion H|].
  destruct (bolt.Get (config (db f)) latestIndexKey) as [val|];
    [destruct (Unmarshal_IndexValue val); [|now inversion H]|];
    cbn in H;
    (destruct (bolt.Get (config (db f)) latestConfigKey) as [val'|];
     [destruct (Unmarshal_ConfigurationValue val')|]);
    inversion H; subst; cbn; auto.
Qed.

Lemma persistDesiredSuffrage_buckets f lnConfig f' err :
  persistDesiredSuffrage f lnConfig = (f', err) ->
  data (db f') = data (db f)
  /\ forall key,
       key <> localNodeConfigKey ->
       bolt.Get (config (db f')) key = bolt.Get (config (db f)) key.
Proof.
  unfold persistDesiredSuffrage.
  destruct (Marshal_LocalNodeConfigValue lnConfig) as [dsBytes|];
    [|now intros [= <- _]].
  destruct (closed (db f)); [now intros [= <- _]|].
  destruct (bolt.Put (config (db f)) localNodeConfigKey dsBytes)
    as [configB|] eqn:Hput; [|now intros [= <- _]].
  apply Put_inv in Hput. subst configB. intros [= <- _]. cbn.
  split; [reflexivity|]. intros key Hkey. now apply Get_insert_other.
Qed.

(** X12: [Restore] looks at the reader before it touches the database:
    with restores disabled it returns [nil], and with a reader that is
    not the snapshot installer, directly or wrapped once, it returns an
    error; in both cases the FSM and its database are as before. *)
Theorem Restore_checks_reader :
  forall io f r,
    noopRestore f = true \/ (forall i, ~ installs r i) ->
    fst (Restore io f r) = f
    /\ (noopRestore f = true -> snd (Restore io f r) = [])
    /\ (noopRestore f = false -> exists err, snd (Restore io f r) = [err]).
Proof.
  intros io f r H. unfold Restore.
  destruct (noopRestore f) eqn:Hnoop.
  - split; [reflexivity|]. split; [reflexivity|discriminate].
  - destruct H as [H|H]; [discriminate|].
    assert (Hnot : forall i, r <> SnapshotInstaller i
                             /\ r <> ReadCloserWrapper (SnapshotInstaller i))
      by (intros i; split; intros Hr; apply (H i); [now left|now right]).
    cbv zeta.
    destruct r as [i|[i|w|t]|t]; cbn.
    + now destruct (Hnot i) as [Hr _].
    + now destruct (Hnot i) as [_ Hr].
    + split; [reflexivity|]. split; [discriminate|]. intros _. eexists. reflexivity.
    + split; [reflexivity|]. split; [discriminate|]. intros _. eexists. reflexivity.
    + split; [reflexivity|]. split; [discriminate|]. intros _. eexists. reflexivity.
Qed.

(** X13: when the installer fails, [Restore] reports an error and the old
    database file stays: the data bucket is the one from before, and so
    is every key of the config bucket but the node-local configuration,
    which is put again. *)
Theorem Restore_install_failure :
  forall io f r i e f' errs,
    noopRestore f = false ->
    installs r i ->
    installErr i = Some e ->
    Restore io f r = (f', errs) ->
    errs <> []
    /\ data (db f') = data (db f)
    /\ forall key,
         key <> localNodeConfigKey ->
         bolt.Get (config (db f')) key = bolt.Get (config (db f)) key.
Proof.
  intros io f r i e f' errs Hnoop Hr Hinstall H.
  unfold Restore in H. rewrite Hnoop in H. cbv zeta in H.
  assert (Hasserted :
            match r with
            | SnapshotInstaller i => inl i
            | ReadCloserWrapper (SnapshotInstaller i) => inl i
            | ReadCloserWrapper (ReadCloserWrapper _) =>
                inr (errors_New "expected snapshot installer object, got: raft.ReadCloserWrapper")
            | ReadCloserWrapper (OtherReadCloser t) =>
                inr (errors_New ("expected snapshot installer object, got: " ++ t))
            | OtherReadCloser t =>
                inr (errors_New ("expected ReadCloserWrapper object, got: " ++ t))
            end = inl i :> (boltSnapshotInstaller + error))
    by (destruct Hr as [->| ->]; reflexivity).
  rewrite Hasserted in H. clear Hasserted.
  destruct (localNodeConfig f) as [[f0 lnConfig] [err|]] eqn:Hln;
    apply localNodeConfig_db in Hln.
  { inversion H; subst. rewrite Hln. split; [discriminate|]. auto. }
  destruct (closeErr io).
  { inversion H; subst. rewrite Hln. split; [discriminate|]. auto. }
  unfold Install in H. rewrite Hinstall in H. cbn [append_err app] in H.
  match type of H with
  | context [openDBFile io ?g] =>
      destruct (openDBFile io g) as [f1 err1] eqn:Hopen
  end.
  apply openDBFile_buckets in Hopen. cbn [db set_db data config] in Hopen.
  destruct Hopen as [Hdata Hconfig]. rewrite Hln in Hdata, Hconfig.
  assert (Hone : forall rest : list error,
             (fmt_Errorf_w "failed to install snapshot database: " e "" :: rest)
             <> []) by discriminate.
  destruct lnConfig as [lnConfig|].
  - destruct err1 as [err1|]; cbn [append_err app] in H;
      (destruct (persistDesiredSuffrage f1 lnConfig) as [f2 err2] eqn:Hpersist;
       apply persistDesiredSuffrage_buckets in Hpersist;
       destruct Hpersist as [Hdata2 Hconfig2];
       destruct err2; cbn [append_err app] in H; inversion H; subst;
       (split; [apply Hone|]);
       (split; [now rewrite Hdata2|]);
       intros key Hkey; rewrite Hconfig2 by exact Hkey; now rewrite Hconfig).
  - destruct err1 as [err1|]; cbn [append_err app] in H; inversion H; subst;
      (split; [apply Hone|]); (split; [exact Hdata|]);
      intros key Hkey; now rewrite Hconfig.
Qed.

(** X14: a restore that installs a snapshot and returns no error leaves in
    the memory of the FSM what the config bucket of the snapshot stores:
    the decoded index and term, and the decoded configuration.  For what
    the snapshot does not store, the memory keeps the value from before the
    restore. *)
Theorem Restore_latest_state :
  forall io f r i f',
    noopRestore f = false ->
    installs r i ->
    Restore io f r = (f', []) ->
    match bolt.Get (snapshot_config i) latestIndexKey with
    | Some val =>
        Unmarshal_IndexValue val
        = inl {| Term := latestTerm f'; Index := latestIndex f' |}
    | None => latestIndex f' = latestIndex f /\ latestTerm f' = latestTerm f
    end
    /\ match bolt.Get (snapshot_config i) latestConfigKey with
       | Some val =>
           exists c, Unmarshal_ConfigurationValue val = inl c
                     /\ latestConfig f' = Some c
       | None => latestConfig f' = latestConfig f
       end.
Proof.
  intros io f r i f' Hnoop Hr H.
  unfold Restore in H. rewrite Hnoop in H. cbv zeta in H.
  assert (Hasserted :
            match r with
            | SnapshotInstaller i => inl i
            | ReadCloserWrapper (SnapshotInstaller i) => inl i
            | ReadCloserWrapper (ReadCloserWrapper _) =>
                inr (errors_New "expected snapshot installer object, got: raft.ReadCloserWrapper")
            | ReadCloserWrapper (OtherReadCloser t) =>
                inr (errors_New ("expected snapshot installer object, got: " ++ t))
            | OtherReadCloser t =>
                inr (errors_New ("expected ReadCloserWrapper object, got: " ++ t))
            end = inl i :> (boltSnapshotInstaller + error))
    by (destruct Hr as [->| ->]; reflexivity).
  rewrite Hasserted in H. clear Hasserted.
  destruct (localNodeConfig f) as [[f0 lnConfig] [err|]] eqn:Hln;
    [discriminate|].
  assert (Hmem : latestIndex f0 = latestIndex f /\ latestTerm f0 = latestTerm f
                 /\ latestConfig f0 = latestConfig f).
  { unfold localNodeConfig in Hln.
    destruct (closed (db f)); [discriminate|].
    destruct (bolt.Get (config (db f)) localNodeConfigKey) as [configBytes|];
      [destruct (Unmarshal_LocalNodeConfigValue configBytes); [|discriminate]|];
      inversion Hln; subst; cbn; auto. }
  destruct Hmem as [Hi [Ht Hc]].
  destruct (closeErr io); [discriminate|].
  match type of H with
  | context [append_err [] ?x ?m] =>
      destruct (append_err [] x m) as [fa ra] eqn:Ha
  end.
  match type of H with
  | context [append_err ra ?x ?m] =>
      destruct (append_err ra x m) as [fb rb] eqn:Hb
  end.
  assert (Hpersist : rb = [] /\ latestIndex f' = latestIndex fb
                     /\ latestTerm f' = latestTerm fb
                     /\ latestConfig f' = latestConfig fb).
  { destruct lnConfig as [lnConfig|].
    - apply append_err_nil in H as [-> Hp]. split; [reflexivity|].
      unfold persistDesiredSuffrage in Hp.
      destruct (Marshal_LocalNodeConfigValue lnConfig); [|discriminate].
      destruct (closed (db fb)); [discriminate|].
      destruct (bolt.Put (config (db fb)) localNodeConfigKey b); [|discriminate].
      inversion Hp; subst. cbn. auto.
    - inversion H; subst. auto. }
  destruct Hpersist as [-> [Hi' [Ht' Hc']]].
  apply append_err_nil in Hb as [-> Hopen].
  apply append_err_nil in Ha as [_ Hinstall].
  unfold Install in Hinstall. destruct (installErr i); [discriminate|].
  inversion Hinstall; subst fa. clear Hinstall.
  rewrite Hi', Ht', Hc'. clear Hi' Ht' Hc' H.
  unfold openDBFile in Hopen. cbv zeta in Hopen.
  destruct (openErr io); [discriminate|].
  cbn [db set_db config data closed] in Hopen.
  destruct (bolt.Get (snapshot_config i) latestIndexKey) as [val|].
  - destruct (Unmarshal_IndexValue val) as [[term index]|]; [|discriminate].
    cbn [Index Term set_latest latestConfig latestIndex latestTerm db set_db
               config data] in Hopen.
    destruct (bolt.Get (snapshot_config i) latestConfigKey) as [val'|].
    + destruct (Unmarshal_ConfigurationValue val') as [c|]; [|discriminate].
      inversion Hopen; subst. cbn. split; [reflexivity|]. now exists c.
    + inversion Hopen; subst. cbn. split; [reflexivity|exact Hc].
  - cbn [set_latest latestConfig latestIndex latestTerm db set_db config data]
      in Hopen.
    destruct (bolt.Get (snapshot_config i) latestConfigKey) as [val'|].
    + destruct (Unmarshal_ConfigurationValue val') as [c|]; [|discriminate].
      inversion Hopen; subst. cbn. split; [now split|]. now exists c.
    + inversion Hopen; subst. cbn. split; [now split|exact Hc].
Qed.

(** X15: a suffrage that [recordSuffrage] recorded is the desired
    suffrage of the FSM and the one [localNodeConfig] reads back from the
    config bucket, given that its encoding decodes to it; the data bucket
    is untouched.  When [recordSuffrage] fails, the FSM is as before: the
    desired suffrage in memory changes only after the entry is stored. *)
Theorem recordSuffrage_then_localNodeConfig :
  forall f suffrage,
    (forall dsBytes,
        Marshal_LocalNodeConfigValue {| DesiredSuffrage := suffrage |}
        = inl dsBytes ->
        Unmarshal_LocalNodeConfigValue dsBytes
        = inl {| DesiredSuffrage := suffrage |}) ->
    match recordSuffrage f suffrage with
    | (f', None) =>
        desiredSuffrage f' = suffrage
        /\ localNodeConfig f' = (f', Some {| DesiredSuffrage := suffrage |}, None)
        /\ data (db f') = data (db f)
    | (f', Some _) => f' = f
    end.
Proof.
  intros f suffrage Hround. unfold recordSuffrage, persistDesiredSuffrage.
  destruct (Marshal_LocalNodeConfigValue {| DesiredSuffrage := suffrage |})
    as [dsBytes|] eqn:Hmarshal; [|reflexivity].
  destruct (closed (db f)); [reflexivity|].
  destruct (bolt.Put (config (db f)) localNodeConfigKey dsBytes)
    as [configB|] eqn:Hput; [|reflexivity].
  apply Put_inv in Hput. subst configB.
  split; [reflexivity|]. split; [|reflexivity].
  unfold localNodeConfig. cbn [db set_desiredSuffrage set_db closed config].
  rewrite Get_insert, (Hround dsBytes eq_refl). reflexivity.
Qed.

(** The server of the latest configuration that has the local ID. *)
Definition localServer (f : FSM) : option Server :=
  match latestConfig f with
  | None => None
  | Some config =>
      find (fun srv => (Id srv =? localID f)%string) (Servers config)
  end.

(** X16: the upgrade of the node-local configuration.  An entry that the
    config bucket holds decides alone: the desired suffrage becomes the
    one it records and the database is as before.  Without an entry, a
    node that the latest configuration lists as a non-voter gets the
    desired suffrage [non-voter], in memory and in the entry that is
    stored; and a node that the latest configuration does not list keeps
    its desired suffrage in memory while the entry that is stored records
    an empty one. *)
Theorem upgradeLocalNodeConfig_suffrage :
  forall f f',
    closed (db f) = false ->
    upgradeLocalNodeConfig f = (f', None) ->
    (forall configBytes,
        bolt.Get (config (db f)) localNodeConfigKey = Some configBytes ->
        Unmarshal_LocalNodeConfigValue configBytes
        = inl {| DesiredSuffrage := desiredSuffrage f' |}
        /\ db f' = db f)
    /\ (bolt.Get (config (db f)) localNodeConfigKey = None ->
        (forall srv,
            localServer f = Some srv -> Suffrage srv = Nonvoter ->
            desiredSuffrage f' = "non-voter"
            /\ exists dsBytes,
                 Marshal_LocalNodeConfigValue {| DesiredSuffrage := "non-voter" |}
                 = inl dsBytes
                 /\ bolt.Get (config (db f')) localNodeConfigKey = Some dsBytes)
        /\ (latestConfig f <> None -> localServer f = None ->
            desiredSuffrage f' = desiredSuffrage f
            /\ exists dsBytes,
                 Marshal_LocalNodeConfigValue {| DesiredSuffrage := "" |}
                 = inl dsBytes
                 /\ bolt.Get (config (db f')) localNodeConfigKey = Some dsBytes)).
Proof.
  intros f f' Hopen H. unfold upgradeLocalNodeConfig, localNodeConfig in H.
  rewrite Hopen in H. unfold localServer.
  destruct (bolt.Get (config (db f)) localNodeConfigKey) as [configBytes|].
  - destruct (Unmarshal_LocalNodeConfigValue configBytes) as [[suffrage]|] eqn:Hu;
      [|discriminate].
    inversion H; subst. cbn. split; [|discriminate].
    intros bytes [= <-]. now split.
  - split; [discriminate|]. intros _.
    assert (Hstored : forall g s,
               persistDesiredSuffrage g {| DesiredSuffrage := s |} = (f', None) ->
               exists dsBytes,
                 Marshal_LocalNodeConfigValue {| DesiredSuffrage := s |}
                 = inl dsBytes
                 /\ bolt.Get (config (db f')) localNodeConfigKey = Some dsBytes
                 /\ desiredSuffrage f' = desiredSuffrage g).
    { intros g s Hp. unfold persistDesiredSuffrage in Hp.
      destruct (Marshal_LocalNodeConfigValue {| DesiredSuffrage := s |})
        as [dsBytes|]; [|discriminate].
      destruct (closed (db g)); [discriminate|].
      destruct (bolt.Put (config (db g)) localNodeConfigKey dsBytes)
        as [configB|] eqn:Hput; [|discriminate].
      apply Put_inv in Hput. subst configB. inversion Hp; subst.
      exists dsBytes. cbn. split; [reflexivity|].
      split; [apply Get_insert|reflexivity]. }
    destruct (latestConfig f) as [config|].
    + destruct (find (fun srv => (Id srv =? localID f)%string) (Servers config))
        as [srv|].
      * split; [|discriminate].
        intros srv0 [= <-] Hnon. rewrite Hnon in H. cbn in H.
        destruct (Hstored _ _ H) as [dsBytes [Hm [Hget Hs]]].
        split; [exact Hs|]. now exists dsBytes.
      * split; [discriminate|]. intros _ _.
        destruct (Hstored _ _ H) as [dsBytes [Hm [Hget Hs]]].
        split; [exact Hs|]. now exists dsBytes.
    + split; [discriminate|]. intros Habsurd. now contradiction Habsurd.
Qed.

(** X17: a snapshot that [witnessSnapshot] records moves the FSM to the
    index, term and configuration of the snapshot's metadata, in memory and
    in the config bucket alike (given that the encodings decode to what
    was encoded), and leaves the data bucket alone; when it fails, the FSM
    is as before. *)
Theorem witnessSnapshot_persisted :
  forall f metadata,
    let latest := {| Term := Meta_Term metadata; Index := Meta_Index metadata |} in
    let protoConfig :=
      raftConfigurationToProtoConfiguration (Meta_ConfigurationIndex metadata)
                                            (Meta_Configuration metadata) in
    (forall indexBytes,
        Marshal_IndexValue latest = inl indexBytes ->
        Unmarshal_IndexValue indexBytes = inl latest) ->
    (forall configBytes,
        Marshal_ConfigurationValue protoConfig = inl configBytes ->
        Unmarshal_ConfigurationValue configBytes = inl protoConfig) ->
    match witnessSnapshot f metadata with
    | (f', None) =>
        LatestState f' = (latest, Some protoConfig)
        /\ BatchFacts.persisted f'
        /\ data (db f') = data (db f)
    | (f', Some _) => f' = f
    end.
Proof.
  intros f metadata latest protoConfig Hindex Hconfig.
  unfold witnessSnapshot, writeSnapshotMetaToDB. cbv zeta.
  fold latest. fold protoConfig.
  destruct (Marshal_IndexValue latest) as [indexBytes|] eqn:Hmi; [|reflexivity].
  destruct (Marshal_ConfigurationValue protoConfig) as [configBytes|] eqn:Hmc;
    [|reflexivity].
  destruct (closed (db f)); [reflexivity|].
  destruct (bolt.Put (config (db f)) latestConfigKey configBytes)
    as [b1|] eqn:Hput1; [|reflexivity].
  destruct (bolt.Put b1 latestIndexKey indexBytes) as [b2|] eqn:Hput2;
    [|reflexivity].
  apply Put_inv in Hput1, Hput2. subst b1 b2.
  split; [reflexivity|]. split; [|reflexivity].
  unfold BatchFacts.persisted.
  cbn [db set_latest set_db config latestIndex latestTerm latestConfig].
  rewrite Get_insert, Get_insert_other, Get_insert by discriminate.
  split; [now apply Hindex|].
  exists protoConfig. split; [now apply Hconfig|reflexivity].
Qed.

End WithCodec.

Import Examples.

Lemma Restore_checks_reader_witness :
  fst (Restore (codec := codec) noFailure nonVoter (OtherReadCloser "*os.File"))
  = nonVoter
  /\ (noopRestore nonVoter = true ->
      snd (Restore (codec := codec) noFailure nonVoter
                   (OtherReadCloser "*os.File")) = [])
  /\ (noopRestore nonVoter = false ->
      exists err,
        snd (Restore (codec := codec) noFailure nonVoter
                     (OtherReadCloser "*os.File")) = [err]).
Proof.
  apply (@Restore_checks_reader codec noFailure nonVoter
           (OtherReadCloser "*os.File")).
  right. intros i [H|H]; discriminate.
Defined.

(** An installer whose rename fails. *)
Definition failingSnapshot : boltSnapshotInstaller :=
  {| snapshot_data := [("a", "1")];
     snapshot_config := [("latest_indexes", "1/9")];
     installErr := Some (errors_New "rename: permission denied") |}.

Lemma Restore_install_failure_witness :
  exists f' errs,
    Restore (codec := decimalCodec) noFailure nonVoter
            (SnapshotInstaller failingSnapshot) = (f', errs)
    /\ errs <> []
    /\ data (db f') = data (db nonVoter)
    /\ forall key,
         key <> localNodeConfigKey ->
         bolt.Get (config (db f')) key = bolt.Get (config (db nonVoter)) key.
Proof.
  eexists. eexists. split; [vm_compute; reflexivity|].
  eapply (@Restore_install_failure decimalCodec noFailure nonVoter
            (SnapshotInstaller failingSnapshot) failingSnapshot).
  - reflexivity.
  - now left.
  - reflexivity.
  - vm_compute. reflexivity.
Defined.

(** A snapshot that stores index 9 of term 1 and no configuration. *)
Definition indexedSnapshot : boltSnapshotInstaller :=
  {| snapshot_data := [("a", "1")];
     snapshot_config := [("latest_indexes", "1/9")];
     installErr := None |}.

Lemma Restore_latest_state_witness :
  exists f',
    Restore (codec := decimalCodec) noFailure nonVoter
            (SnapshotInstaller indexedSnapshot) = (f', [])
    /\ latestIndex f' = 9%N /\ latestTerm f' = 1%N
    /\ latestConfig f' = latestConfig nonVoter.
Proof.
  eexists. split; [vm_compute; reflexivity|].
  destruct (@Restore_latest_state decimalCodec noFailure nonVoter
              (SnapshotInstaller indexedSnapshot) indexedSnapshot _
              eq_refl (or_introl eq_refl) eq_refl) as [Hindex Hconfig].
  cbn in Hindex. inversion Hindex. auto.
Defined.

Lemma recordSuffrage_then_localNodeConfig_witness :
  match recordSuffrage (codec := codec) emptyFSM "non-voter" with
  | (f', None) =>
      desiredSuffrage f' = "non-voter"
      /\ localNodeConfig (codec := codec) f'
         = (f', Some {| DesiredSuffrage := "non-voter" |}, None)
      /\ data (db f') = data (db emptyFSM)
  | (f', Some _) => f' = emptyFSM
  end.
Proof.
  apply (@recordSuffrage_then_localNodeConfig codec emptyFSM "non-voter").
  intros dsBytes H. vm_compute in H. inversion H; subst. reflexivity.
Defined.

(** A node that the latest configuration lists as a non-voter and whose
    config bucket has no node-local entry yet. *)
Definition listedNonVoter : FSM :=
  {| latestIndex := 7; latestTerm := 2;
     latestConfig :=
       Some {| ConfigurationIndex := 4;
               Servers := [ {| Suffrage := 0; Id := "node1"; Address := "a:8201" |};
                            {| Suffrage := 1; Id := "node2"; Address := "b:8201" |} ] |};
     noopRestore := false;
     db := {| closed := false; data := []; config := [] |};
     restoreCb := false; restoreCbStarted := 0; localID := "node2";
     desiredSuffrage := "voter"; unknownOpTypes := [];
     fastTxnTracker := [] |}.

Lemma upgradeLocalNodeConfig_suffrage_witness :
  exists f',
    upgradeLocalNodeConfig (codec := codec) listedNonVoter = (f', None)
    /\ desiredSuffrage f' = "non-voter"
    /\ bolt.Get (config (db f')) localNodeConfigKey = Some "non-voter".
Proof.
  eexists. split; [vm_compute; reflexivity|].
  destruct (@upgradeLocalNodeConfig_suffrage codec listedNonVoter _
              eq_refl eq_refl) as [_ Habsent].
  destruct (Habsent eq_refl) as [Hlisted _].
  destruct (Hlisted {| Suffrage := 1; Id := "node2"; Address := "b:8201" |}
                    eq_refl eq_refl) as [Hs [dsBytes [Hm Hget]]].
  split; [exact Hs|]. vm_compute in Hm. inversion Hm; subst. exact Hget.
Defined.

Definition snapshotMeta : SnapshotMeta :=
  {| Meta_Index := 9; Meta_Term := 1; Meta_Configuration := [];
     Meta_ConfigurationIndex := 4 |}.

Lemma witnessSnapshot_persisted_witness :
  match witnessSnapshot (codec := decimalCodec) emptyFSM snapshotMeta with
  | (f', None) =>
      LatestState f'
      = ({| Term := 1; Index := 9 |},
         Some {| ConfigurationIndex := 4; Servers := [] |})
      /\ BatchFacts.persisted (codec := decimalCodec) f'
      /\ data (db f') = data (db emptyFSM)
  | (f', Some _) => f' = emptyFSM
  end.
Proof.
  apply (@witnessSnapshot_persisted decimalCodec emptyFSM snapshotMeta).
  - intros indexBytes H. vm_compute in H. inversion H; subst. reflexivity.
  - intros configBytes H. vm_compute in H. inversion H; subst. reflexivity.
Defined.

End SnapshotFacts.

(** ** The helpers of the HTTP handlers *)

Module HandlerFacts.

Import http strings StringOrder.

(** X18: [stripPrefix] succeeds exactly on the paths that are the prefix
    followed by something, and returns what follows; when it fails it
    returns the empty string. *)
Theorem stripPrefix_spec :
  forall prefix path rest,
    (stripPrefix prefix path = (rest, true)
     <-> path = (prefix ++ rest)%string /\ rest <> "")
    /\ (snd (stripPrefix prefix path) = false ->
        fst (stripPrefix prefix path) = "").
Proof.
  intros prefix path rest. unfold stripPrefix. split; [split|].
  - destruct (HasPrefix path prefix) eqn:Hp; cbn [negb]; [|discriminate].
    destruct (HasPrefix_inv _ _ Hp) as [t ->]. rewrite slice_from_app.
    destruct (t =? "")%string eqn:Ht; [discriminate|].
    intros [= <-]. split; [reflexivity|]. now apply String.eqb_neq.
  - intros [-> Hrest]. rewrite HasPrefix_app, slice_from_app. cbn [negb].
    apply String.eqb_neq in Hrest. now rewrite Hrest.
  - destruct (negb (HasPrefix path prefix)); [reflexivity|]. cbv zeta.
    destruct (slice_from (String.length prefix) path =? "")%string;
      [reflexivity|discriminate].
Qed.

(** *** Forms *)

(** Insignificant whitespace: space, tab, line feed and carriage
    return. *)
Fixpoint insignificant (ws : string) : bool :=
  match ws with
  | EmptyString => true
  | String c rest =>
      (Ascii.eqb c " " || Ascii.eqb c "009" || Ascii.eqb c "010"
       || Ascii.eqb c "013") && insignificant rest
  end.

Lemma isFormHead_skip (ws rest : string) :
  insignificant ws = true -> isFormHead (ws ++ rest)%string = isFormHead rest.
Proof.
  induction ws as [|c ws IH]; cbn [insignificant append isFormHead];
    [reflexivity|].
  intros H. apply andb_true_iff in H as [Hc Hws]. rewrite Hc. now apply IH.
Qed.

(** X19: a body that starts, after insignificant whitespace, with [{] or
    [[] is never taken for a form, whatever the content type; a body is
    taken for a form only under the content type
    [application/x-www-form-urlencoded]; and under that content type a body
    of whitespace alone, the empty one included, is a form. *)
Theorem isForm_errs_on_the_side_of_JSON :
  forall (mime_ParseMediaType : string -> string + error) contentType,
    (forall ws rest,
        insignificant ws = true ->
        isForm mime_ParseMediaType (ws ++ String "{" rest)%string contentType
        = false
        /\ isForm mime_ParseMediaType (ws ++ String "[" rest)%string contentType
           = false)
    /\ (forall head,
           isForm mime_ParseMediaType head contentType = true ->
           mime_ParseMediaType contentType
           = inl "application/x-www-form-urlencoded")
    /\ (forall ws,
           insignificant ws = true ->
           mime_ParseMediaType contentType
           = inl "application/x-www-form-urlencoded" ->
           isForm mime_ParseMediaType ws contentType = true).
Proof.
  intros parse contentType. unfold isForm. split; [|split].
  - intros ws rest Hws.
    destruct (parse contentType) as [ct|]; [|now split].
    destruct (negb (ct =? "application/x-www-form-urlencoded")%string);
      [now split|].
    now rewrite !(isFormHead_skip ws) by exact Hws.
  - intros head. destruct (parse contentType) as [ct|]; [|discriminate].
    destruct (ct =? "application/x-www-form-urlencoded")%string eqn:Hct;
      cbn [negb]; [|discriminate].
    apply String.eqb_eq in Hct. now subst ct.
  - intros ws Hws ->. cbn.
    rewrite <- (append_nil_r ws), isFormHead_skip by exact Hws. reflexivity.
Qed.

(** *** The MFA header *)

Lemma Header_Values_Put (h : Header) (name : string) (values : list string) :
  Header_Values (Header_Put h name values) name = Some values.
Proof.
  induction h as [|[k v] h IH]; cbn [Header_Put Header_Values].
  - now rewrite String.eqb_refl.
  - destruct (k =? name)%string eqn:Hk; cbn [Header_Values].
    + now rewrite String.eqb_refl.
    + now rewrite Hk.
Qed.

Lemma Header_Values_Put_other (h : Header) (name name' : string)
      (values : list string) :
  name' <> name ->
  Header_Values (Header_Put h name values) name' = Header_Values h name'.
Proof.
  intros Hne. apply String.eqb_neq in Hne.
  induction h as [|[k v] h IH]; cbn [Header_Put Header_Values].
  - now rewrite String.eqb_sym, Hne.
  - destruct (k =? name)%string eqn:Hk; cbn [Header_Values].
    + apply String.eqb_eq in Hk. subst k.
      now rewrite !(String.eqb_sym name name'), Hne.
    + now rewrite IH.
Qed.

(** The method and the credential of a header value with a colon. *)
Definition methodOf (v : string) : string := nth 0 (SplitN2 v ":") "".
Definition credentialOf (v : string) : string := nth 1 (SplitN2 v ":") "".

(** The credentials that the values give for a method, in their order. *)
Definition credentialsOf (name : string) (values : list string) : list string :=
  flat_map (fun v => if negb (v =? "")%string && Contains v ":"
                        && (methodOf v =? name)%string
                     then [credentialOf v] else [])
           values.

(** Whether a value names the method, with or without a credential. *)
Definition mentions (name : string) (values : list string) : bool :=
  existsb (fun v => negb (v =? "")%string
                    && (if Contains v ":" then methodOf v =? name
                        else v =? name)%string)
          values.

(** A value with a colon has a method and a credential. *)
Definition wellFormed (v : string) : bool :=
  (v =? "")%string || negb (Contains v ":")
  || (negb (methodOf v =? "")%string && negb (credentialOf v =? "")%string).

Lemma credentialsOf_cons name v values :
  credentialsOf name (v :: values)
  = (if negb (v =? "")%string && Contains v ":" && (methodOf v =? name)%string
     then [credentialOf v] else [])
    ++ credentialsOf name values.
Proof. reflexivity. Qed.

Lemma mentions_cons name v values :
  mentions name (v :: values)
  = negb (v =? "")%string
    && (if Contains v ":" then methodOf v =? name else v =? name)%string
    || mentions name values.
Proof. reflexivity. Qed.

Lemma parseMFAHeaderValues_spec values :
  forall creds0 creds,
    parseMFAHeaderValues values creds0 = (creds, None) ->
    forallb wellFormed values = true
    /\ forall name,
         Header_Values creds name
         = match Header_Values creds0 name with
           | Some before => Some (before ++ credentialsOf name values)
           | None =>
               if mentions name values then Some (credentialsOf name values)
               else None
           end.
Proof.
  induction values as [|v values IH]; intros creds0 creds H;
    cbn [parseMFAHeaderValues] in H.
  - inversion H; subst. split; [reflexivity|].
    intros name. cbn. destruct (Header_Values creds name) as [before|];
      [now rewrite app_nil_r|reflexivity].
  - assert (Hgoal :
              forall c1,
                parseMFAHeaderValues values c1 = (creds, None) ->
                wellFormed v = true ->
                (forall name,
                    match Header_Values c1 name with
                    | Some before => Some (before ++ credentialsOf name values)
                    | None =>
                        if mentions name values
                        then Some (credentialsOf name values)
                        else None
                    end
                    = match Header_Values creds0 name with
                      | Some before =>
                          Some (before ++ credentialsOf name (v :: values))
                      | None =>
                          if mentions name (v :: values)
                          then Some (credentialsOf name (v :: values))
                          else None
                      end) ->
                forallb wellFormed (v :: values) = true
                /\ forall name,
                     Header_Values creds name
                     = match Header_Values creds0 name with
                       | Some before =>
                           Some (before ++ credentialsOf name (v :: values))
                       | None =>
                           if mentions name (v :: values)
                           then Some (credentialsOf name (v :: values))
                           else None
                       end).
    { intros c1 H1 Hv Hmatch. destruct (IH _ _ H1) as [Hwf Hvalues]. split.
      - cbn [forallb]. now rewrite Hv, Hwf.
      - intros name. rewrite Hvalues. apply Hmatch. }
    destruct (v =? "")%string eqn:Hv.
    { apply (Hgoal creds0 H); [unfold wellFormed; now rewrite Hv|].
      intros name. rewrite credentialsOf_cons, mentions_cons, Hv. reflexivity. }
    destruct (Contains v ":") eqn:Hc; cbn [negb] in H.
    + cbv zeta in H. fold (methodOf v) in H. fold (credentialOf v) in H.
      destruct (methodOf v =? "")%string eqn:Hm; [discriminate|].
      destruct (credentialOf v =? "")%string eqn:Hcred; [discriminate|].
      apply (Hgoal _ H); [unfold wellFormed; now rewrite Hv, Hc, Hm, Hcred|].
      intros name. rewrite credentialsOf_cons, mentions_cons, Hv, Hc.
      cbn [negb andb].
      destruct (methodOf v =? name)%string eqn:Hname.
      * apply String.eqb_eq in Hname. subst name.
        rewrite Header_Values_Put. cbn [orb].
        destruct (Header_Values creds0 (methodOf v)) as [before|];
          [now rewrite <- app_assoc|reflexivity].
      * apply String.eqb_neq in Hname.
        rewrite Header_Values_Put_other by (intros Heq; now apply Hname).
        reflexivity.
    + assert (Hwf : wellFormed v = true)
        by (unfold wellFormed; now rewrite Hv, Hc).
      destruct (Header_Values creds0 v) as [b|] eqn:Hold.
      * apply (Hgoal creds0 H Hwf).
        intros name. rewrite credentialsOf_cons, mentions_cons, Hv, Hc.
        cbn [negb andb app].
        destruct (v =? name)%string eqn:Hname; [|reflexivity].
        apply String.eqb_eq in Hname. subst name. now rewrite Hold.
      * apply (Hgoal _ H Hwf).
        intros name. rewrite credentialsOf_cons, mentions_cons, Hv, Hc.
        cbn [negb andb app].
        destruct (v =? name)%string eqn:Hname.
        -- apply String.eqb_eq in Hname. subst name.
           now rewrite Header_Values_Put, Hold.
        -- apply String.eqb_neq in Hname.
           rewrite Header_Values_Put_other by (intros Heq; now apply Hname).
           reflexivity.
Qed.

(** X20: when [parseMFAHeader] returns no error for a request with
    headers, every value of the MFA header that holds a colon has a method
    before its first colon and a credential after it, and the
    credentials of the request map each method that a value names to the
    credentials given for it, in the order of the header, whatever
    credentials the request held before; a method that no value names has
    no entry. *)
Theorem parseMFAHeader_credentials :
  forall req headers req',
    Headers req = Some headers ->
    parseMFAHeader (Some req) = (Some req', None) ->
    let values := match Header_Values headers canonicalMFAHeaderName with
                  | Some values => values
                  | None => []
                  end in
    forallb wellFormed values = true
    /\ forall name,
         Header_Values (MFACreds req') name
         = if mentions name values then Some (credentialsOf name values)
           else None.
Proof.
  intros req headers req' Hheaders H values.
  unfold parseMFAHeader in H. rewrite Hheaders in H. cbv zeta in H.
  fold values in H.
  destruct (parseMFAHeaderValues values []) as [creds err] eqn:Hparse.
  inversion H; subst. clear H.
  destruct (parseMFAHeaderValues_spec values [] creds Hparse) as [Hwf Hvalues].
  split; [exact Hwf|]. intros name. cbn [MFACreds]. now rewrite Hvalues.
Qed.

Definition mfaRequest : LogicalRequest :=
  {| ClientToken := ""; ClientTokenSource_ := NoClientToken;
     Headers := Some [("X-Vault-Mfa", ["totp:123456"; "duo"; "totp:654321"])];
     MFACreds := [("stale", ["1"])] |}.

Lemma parseMFAHeader_credentials_witness :
  exists req',
    parseMFAHeader (Some mfaRequest) = (Some req', None)
    /\ Header_Values (MFACreds req') "totp" = Some ["123456"; "654321"]
    /\ Header_Values (MFACreds req') "duo" = Some []
    /\ Header_Values (MFACreds req') "stale" = None.
Proof.
  eexists. split; [vm_compute; reflexivity|].
  destruct (parseMFAHeader_credentials mfaRequest
              [("X-Vault-Mfa", ["totp:123456"; "duo"; "totp:654321"])] _
              eq_refl eq_refl) as [_ Hcreds].
  split; [exact (Hcreds "totp")|]. split; [exact (Hcreds "duo")|].
  exact (Hcreds "stale").
Defined.

(** *** Tokens *)

Lemma bearerToken_empty TrimSpace headers :
  snd (bearerToken TrimSpace headers) = false ->
  fst (bearerToken TrimSpace headers) = "".
Proof.
  induction headers as [|v headers IH]; cbn [bearerToken]; [reflexivity|].
  destruct (negb (HasPrefix v "Bearer ")); [exact IH|discriminate].
Qed.

(** X21: the token of a request.  A value of the [X-Vault-Token] header
    that is not empty is the token, whatever the Authorization header
    holds, and its source is the Vault header.  Otherwise the first value
    of the Authorization header that starts with [Bearer ] gives the
    token, trimmed, with the Authorization header as its source, the
    values before it being skipped.  A request whose token is empty is
    left as it is. *)
Theorem requestAuth_token_source :
  forall (TrimSpace : string -> string) r req,
    let token := Header_Get (Request_Header r) AuthHeaderName in
    (token <> "" ->
     ClientToken (requestAuth TrimSpace r req) = token
     /\ ClientTokenSource_ (requestAuth TrimSpace r req)
        = ClientTokenFromVaultHeader)
    /\ (forall skipped v rest,
           token = "" ->
           Header_Values (Request_Header r) "Authorization"
           = Some (skipped ++ v :: rest) ->
           Forall (fun s => HasPrefix s "Bearer " = false) skipped ->
           HasPrefix v "Bearer " = true ->
           TrimSpace (slice_from 7 v) <> "" ->
           ClientToken (requestAuth TrimSpace r req) = TrimSpace (slice_from 7 v)
           /\ ClientTokenSource_ (requestAuth TrimSpace r req)
              = ClientTokenFromAuthzHeader)
    /\ (fst (getTokenFromReq TrimSpace r) = "" ->
        requestAuth TrimSpace r req = req).
Proof.
  intros TrimSpace r req token. unfold requestAuth, getTokenFromReq.
  fold token. split; [|split].
  - intros Htoken. apply String.eqb_neq in Htoken. rewrite Htoken. cbn.
    rewrite Htoken. now split.
  - intros skipped v rest Htoken Hauth Hskipped Hbearer Htrim.
    rewrite Htoken, Hauth. cbn [String.eqb negb].
    assert (Hfound : bearerToken TrimSpace (skipped ++ v :: rest)
                     = (TrimSpace (slice_from 7 v), true)).
    { clear Hauth. induction Hskipped as [|s skipped Hs _ IH];
        cbn [app bearerToken].
      - now rewrite Hbearer.
      - now rewrite Hs. }
    rewrite Hfound. apply String.eqb_neq in Htrim. rewrite Htrim. now split.
  - destruct (negb (token =? "")%string) eqn:Htoken.
    + cbn [fst]. intros ->. discriminate.
    + destruct (Header_Values (Request_Header r) "Authorization") as [headers|];
        [|reflexivity].
      destruct (bearerToken TrimSpace headers) as [t b]. cbn [fst].
      now intros ->.
Qed.

(** *** Forwarding *)

Section WithEnv.

Context {env : Env}.


Lemma fold_SetHeader (hs : Header) :
  forall w0,
    NoDup (map fst hs) ->
    let w1 := fold_left (fun w kv => SetHeader w (fst kv) (snd kv)) hs w0 in
    Body w1 = Body w0
    /\ StatusCode w1 = StatusCode w0
    /\ (forall name values,
           In (name, values) hs ->
           Header_Values (Response_Header w1) name = Some values)
    /\ (forall name,
           ~ In name (map fst hs) ->
           Header_Values (Response_Header w1) name
           = Header_Values (Response_Header w0) name).
Proof.
  induction hs as [|[k v] hs IH]; intros w0 Hnodup; cbn [fold_left fst snd map].
  - cbn. repeat split; auto. intros name values [].
  - inversion Hnodup as [|? ? Hk Hhs]; subst.
    destruct (IH (SetHeader w0 k v) Hhs) as [Hbody [Hstatus [Hin Hout]]].
    cbv zeta in *. split; [exact Hbody|]. split; [exact Hstatus|]. split.
    + intros name values [Heq|Hin'].
      * inversion Heq; subst. rewrite (Hout name Hk).
        cbn [SetHeader Response_Header]. apply Header_Values_Put.
      * now apply Hin.
    + intros name Hname. rewrite Hout by (intros H; apply Hname; now right).
      cbn [SetHeader Response_Header]. apply Header_Values_Put_other.
      intros ->. apply Hname. now left.
Qed.

(** X23: [forwardRequest] hands a request to [core.ForwardRequest] only
    when neither of the two headers against forwarding is set and its path
    is not one that is always redirected; and when the core forwards it
    without an error, the response is the forwarded one: its status, its
    headers set on the response beside the ones that were there, its body
    written. *)
Theorem forwardRequest_forwards :
  forall core w r w',
    forwardRequest core w r = Returned (w', true) ->
    Header_Get (Request_Header r) IntNoForwardingHeaderName = ""
    /\ Header_Get (Request_Header r) NoRequestForwardingHeaderName = ""
    /\ alwaysRedirectPaths_HasPath
         (slice_from (String.length "/v1/") (Path (Request_URL r))) = false
    /\ forall statusCode header retBytes,
         ForwardRequest core r = (statusCode, header, retBytes, None) ->
         NoDup (map fst header) ->
         StatusCode w' = Some statusCode
         /\ Body w' = (Body w ++ retBytes)%string
         /\ (forall name values,
                In (name, values) header ->
                Header_Values (Response_Header w') name = Some values)
         /\ (forall name,
                ~ In name (map fst header) ->
                Header_Values (Response_Header w') name
                = Header_Values (Response_Header w) name).
Proof.
  intros core w r w'. unfold forwardRequest.
  destruct (Header_Get (Request_Header r) IntNoForwardingHeaderName =? "")%string
    eqn:Hint; cbn [negb]; [|discriminate].
  destruct (Header_Get (Request_Header r) NoRequestForwardingHeaderName =? "")%string
    eqn:Hno; cbn [negb]; [|discriminate].
  destruct (String.length (Path (Request_URL r)) <? String.length "/v1/")%nat;
    [discriminate|].
  destruct (alwaysRedirectPaths_HasPath
              (slice_from (String.length "/v1/") (Path (Request_URL r))));
    [discriminate|].
  apply String.eqb_eq in Hint, Hno.
  intros H. split; [exact Hint|]. split; [exact Hno|]. split; [reflexivity|].
  intros statusCode header retBytes Hforward Hnodup. rewrite Hforward in H.
  inversion H; subst. clear H. cbn [StatusCode Body Write WriteHeader Response_Header].
  destruct (fold_SetHeader header w Hnodup) as [Hbody [_ [Hin Hout]]].
  cbv zeta in *. split; [reflexivity|]. split; [now rewrite Hbody|].
  split; [exact Hin|exact Hout].
Qed.

End WithEnv.

Import HttpFacts.


(** A request without a header against forwarding, and a core that
    forwards it. *)
Definition plainRequest : Request :=
  {| Request_Header := [("X-Vault-Token", ["s.abc"])];
     Request_URL := {| Scheme := ""; Host := ""; Path := "/v1/secret/data/k";
                       RawQuery := "" |} |}.

Definition forwardingStandby : Core :=
  {| Leader := (false, "//leader.example:8200", "", None);
     ForwardRequest :=
       fun _ => (200%Z, [("Content-Type", ["application/json"])], "{}", None) |}.

Lemma forwardRequest_forwards_witness :
  exists w',
    forwardRequest (env := exampleEnv) forwardingStandby emptyResponse plainRequest
    = Returned (w', true)
    /\ StatusCode w' = Some 200%Z
    /\ Body w' = "{}"
    /\ Header_Values (Response_Header w') "Content-Type"
       = Some ["application/json"].
Proof.
  eexists. split; [vm_compute; reflexivity|].
  destruct (@forwardRequest_forwards exampleEnv forwardingStandby emptyResponse
              plainRequest _ eq_refl) as [_ [_ [_ Hforwarded]]].
  destruct (Hforwarded 200%Z [("Content-Type", ["application/json"])] "{}" eq_refl)
    as [Hstatus [Hbody [Hin _]]].
  - repeat constructor. intros [].
  - split; [exact Hstatus|]. split; [exact Hbody|].
    apply Hin. now left.
Defined.

(** *** The X-Forwarded-For header *)

Section ForwardedFor.

Variable SplitHostPort : string -> (string * string) + error.
Variable JoinHostPort : string -> string -> string.
Variable NewIPAddr : string -> string + error.
Variable AddrContains : string -> string -> bool.
Variable TrimSpace : string -> string.

Lemma Header_Values_Del (h : Header) (name : string) :
  Header_Values (Header_Del h name) name = None.
Proof.
  unfold Header_Del. induction h as [|[k v] h IH]; [reflexivity|].
  cbn [filter fst]. destruct (k =? name)%string eqn:Hk; cbn [negb]; [exact IH|].
  cbn [Header_Values]. now rewrite Hk.
Qed.

Lemma Header_Values_Del_other (h : Header) (name name' : string) :
  name' <> name ->
  Header_Values (Header_Del h name) name' = Header_Values h name'.
Proof.
  intros Hne. unfold Header_Del. induction h as [|[k v] h IH]; [reflexivity|].
  cbn [filter fst Header_Values]. destruct (k =? name)%string eqn:Hk; cbn [negb].
  - apply String.eqb_eq in Hk. subst k.
    apply not_eq_sym, String.eqb_neq in Hne. now rewrite Hne.
  - cbn [Header_Values]. now rewrite IH.
Qed.

(** X24: a header X-Forwarded-For that comes from a client whose address
    no authorized address contains is never handed on.  When the listener
    rejects such clients the request is answered as a bad request;
    otherwise the wrapped handler gets the request with its remote address
    as it was and without the header, every other header being kept. *)
Theorem WrapForwardedForHandler_unauthorized :
  forall l remoteAddr header headers host port addr,
    Header_Values header XForwardedFor = Some headers ->
    headers <> [] ->
    SplitHostPort remoteAddr = inl (host, port) ->
    NewIPAddr host = inl addr ->
    Forall (fun authz => AddrContains authz addr = false)
           (XForwardedForAuthorizedAddrs l) ->
    let served :=
      WrapForwardedForHandler SplitHostPort JoinHostPort NewIPAddr AddrContains
                              TrimSpace l remoteAddr header in
    (XForwardedForRejectNotAuthorized l = true ->
     exists err, served = Returned (BadRequest err))
    /\ (XForwardedForRejectNotAuthorized l = false ->
        served = Returned (ServeHTTP remoteAddr (Header_Del header XForwardedFor))
        /\ Header_Values (Header_Del header XForwardedFor) XForwardedFor = None
        /\ forall name,
             name <> XForwardedFor ->
             Header_Values (Header_Del header XForwardedFor) name
             = Header_Values header name).
Proof.
  intros l remoteAddr header headers host port addr Hheaders Hne Hsplit Haddr
         Hunauthorized served.
  subst served. unfold WrapForwardedForHandler. cbv zeta.
  rewrite Hheaders, Hsplit, Haddr.
  destruct headers as [|h0 headers]; [contradiction|]. cbn [length Nat.eqb].
  assert (Hfound : existsb (fun authz => AddrContains authz addr)
                           (XForwardedForAuthorizedAddrs l) = false).
  { induction Hunauthorized as [|authz rest Hauthz _ IH]; [reflexivity|].
    cbn [existsb]. now rewrite Hauthz. }
  rewrite Hfound. cbn [negb]. split.
  - intros ->. cbn [negb]. eexists. reflexivity.
  - intros ->. cbn [negb]. split; [reflexivity|].
    split; [apply Header_Values_Del|].
    intros name Hname. now apply Header_Values_Del_other.
Qed.

(** X25: for a client whose address an authorized address contains, the
    remote address that the wrapped handler sees is made of the port of
    the connection and of the link of the chain that lies the configured
    number of hops before its end, the chain being the values of the
    header with the comma separated ones split and trimmed; more hops than
    the chain has links before its last one is a bad request. *)
Theorem WrapForwardedForHandler_hops :
  forall l remoteAddr header headers host port addr,
    Header_Values header XForwardedFor = Some headers ->
    headers <> [] ->
    SplitHostPort remoteAddr = inl (host, port) ->
    NewIPAddr host = inl addr ->
    Exists (fun authz => AddrContains authz addr = true)
           (XForwardedForAuthorizedAddrs l) ->
    let chain := forwardedChain TrimSpace headers in
    let hops := XForwardedForHopSkips l in
    (0 <= hops < 2 ^ 63)%Z ->
    (Z.of_nat (length chain) < 2 ^ 63)%Z ->
    let served :=
      WrapForwardedForHandler SplitHostPort JoinHostPort NewIPAddr AddrContains
                              TrimSpace l remoteAddr header in
    ((hops < Z.of_nat (length chain))%Z ->
     exists client,
       nth_error chain (length chain - 1 - Z.to_nat hops) = Some client
       /\ served = Returned (ServeHTTP (JoinHostPort client port) header))
    /\ ((Z.of_nat (length chain) <= hops)%Z ->
        exists err, served = Returned (BadRequest err)).
Proof.
  intros l remoteAddr header headers host port addr Hheaders Hne Hsplit Haddr
         Hauthorized chain hops Hhops Hlen served.
  subst served. unfold WrapForwardedForHandler. cbv zeta.
  rewrite Hheaders, Hsplit, Haddr.
  destruct headers as [|h0 headers]; [contradiction|].
  cbn [length Nat.eqb].
  assert (Hfound : existsb (fun authz => AddrContains authz addr)
                           (XForwardedForAuthorizedAddrs l) = true).
  { apply existsb_exists. apply Exists_exists in Hauthorized.
    destruct Hauthorized as [authz [Hin Hc]]. now exists authz. }
  rewrite Hfound. cbn [negb]. fold chain. fold hops.
  assert (Hwrap : int64 (Z.of_nat (length chain) - 1 - hops)
                  = (Z.of_nat (length chain) - 1 - hops)%Z).
  { unfold int64.
    rewrite Z.mod_small by lia. lia. }
  rewrite Hwrap. split.
  - intros Hin.
    replace (Z.of_nat (length chain) - 1 - hops <? 0)%Z with false
      by (symmetry; apply Z.ltb_ge; lia).
    replace (Z.to_nat (Z.of_nat (length chain) - 1 - hops))
      with (length chain - 1 - Z.to_nat hops) by lia.
    destruct (nth_error chain (length chain - 1 - Z.to_nat hops)) as [client|]
      eqn:Hnth.
    + now exists client.
    + apply nth_error_None in Hnth. lia.
  - intros Hout.
    replace (Z.of_nat (length chain) - 1 - hops <? 0)%Z with true
      by (symmetry; apply Z.ltb_lt; lia).
    eexists. reflexivity.
Qed.

End ForwardedFor.

(** The helpers of the examples: addresses are [host:port] with one colon,
    every host is an IP address, an authorized address contains itself
    only, and blanks are trimmed on both sides. *)
Definition splitHostPort (hostport : string) : (string * string) + error :=
  match strings.Index hostport ":" with
  | Some i => inl (strings.slice_to i hostport, strings.slice_from (i + 1) hostport)
  | None => inr (errors_New "missing port in address")
  end.

Definition joinHostPort (host port : string) : string :=
  (host ++ ":" ++ port)%string.

Definition newIPAddr (host : string) : string + error := inl host.

Definition addrContains (authz addr : string) : bool := (authz =? addr)%string.

Fixpoint trimLeft (s : string) : string :=
  match s with
  | String a s' => if Ascii.eqb a " " then trimLeft s' else s
  | EmptyString => EmptyString
  end.

Fixpoint trimRight (s : string) : string :=
  match s with
  | String a s' =>
      match trimRight s' with
      | EmptyString => if Ascii.eqb a " " then EmptyString else String a EmptyString
      | t => String a t
      end
  | EmptyString => EmptyString
  end.

Definition trimSpace (s : string) : string := trimRight (trimLeft s).

(** A listener behind the proxy 192.0.2.7 that skips one hop, and a request
    with a chain of three links in two header values. *)
Definition behindProxy : Listener :=
  {| XForwardedForRejectNotPresent := false;
     XForwardedForHopSkips := 1;
     XForwardedForAuthorizedAddrs := ["192.0.2.7"];
     XForwardedForRejectNotAuthorized := false |}.

Definition chained : Header :=
  [("Accept", ["*/*"]);
   ("X-Forwarded-For", ["203.0.113.9, 198.51.100.2"; "192.0.2.1"])].

Lemma WrapForwardedForHandler_unauthorized_witness :
  let served :=
    WrapForwardedForHandler splitHostPort joinHostPort newIPAddr addrContains
                            trimSpace behindProxy "198.51.100.66:4321" chained in
  (XForwardedForRejectNotAuthorized behindProxy = true ->
   exists err, served = Returned (BadRequest err))
  /\ (XForwardedForRejectNotAuthorized behindProxy = false ->
      served = Returned (ServeHTTP "198.51.100.66:4321"
                                   (Header_Del chained XForwardedFor))
      /\ Header_Values (Header_Del chained XForwardedFor) XForwardedFor = None
      /\ forall name,
           name <> XForwardedFor ->
           Header_Values (Header_Del chained XForwardedFor) name
           = Header_Values chained name).
Proof.
  apply (WrapForwardedForHandler_unauthorized
           splitHostPort joinHostPort newIPAddr addrContains trimSpace
           behindProxy "198.51.100.66:4321" chained
           ["203.0.113.9, 198.51.100.2"; "192.0.2.1"]
           "198.51.100.66" "4321" "198.51.100.66");
    [reflexivity|discriminate|reflexivity|reflexivity|].
  repeat constructor.
Defined.

Lemma WrapForwardedForHandler_hops_witness :
  WrapForwardedForHandler splitHostPort joinHostPort newIPAddr addrContains
                          trimSpace behindProxy "192.0.2.7:4321" chained
  = Returned (ServeHTTP "198.51.100.2:4321" chained)
  /\ exists client,
       nth_error (forwardedChain trimSpace
                    ["203.0.113.9, 198.51.100.2"; "192.0.2.1"]) 1
       = Some client
       /\ WrapForwardedForHandler splitHostPort joinHostPort newIPAddr
                                  addrContains trimSpace behindProxy
                                  "192.0.2.7:4321" chained
          = Returned (ServeHTTP (joinHostPort client "4321") chained).
Proof.
  split; [reflexivity|].
  apply (WrapForwardedForHandler_hops
           splitHostPort joinHostPort newIPAddr addrContains trimSpace
           behindProxy "192.0.2.7:4321" chained
           ["203.0.113.9, 198.51.100.2"; "192.0.2.1"]
           "192.0.2.7" "4321" "192.0.2.7");
    try reflexivity; try discriminate.
  - constructor. reflexivity.
  - cbn. lia.
Defined.

End HandlerFacts.

(** ** Initialization: locks, repeated initialization and stored keys *)

Module InitializationFacts.

Import vault.

(* Case analysis on the innermost scrutinees first, so that the result of
   a nested block is known when the code matches on it. *)
Ltac split_cases :=
  repeat match goal with
         | |- context [match ?x with _ => _ end] =>
             lazymatch x with
             | context [match _ with _ => _ end] => fail
             | _ => destruct x
             end
         end.

Ltac kept := cbn; repeat split; intros; auto; try congruence.

(** What the phases of the initialization that run under the locks leave
    alone: the locks, the flag of an initialization in progress and the
    Raft cluster of the bootstrap. *)
Definition sameLocks (c c' : Core) : Prop :=
  initInProgress c' = initInProgress c /\ stateLock c' = stateLock c
  /\ initLock c' = initLock c /\ raftCluster c' = raftCluster c.

Section WithEnv.

Variable env : Env.

Lemma initializeUnsealed_sameLocks c initParams barrierConfig recoverySupported
      barrierKey sealKey barrierKeyShares sealKeyShares :
  sameLocks c (fst (initializeUnsealed env c initParams barrierConfig
                      recoverySupported barrierKey sealKey barrierKeyShares
                      sealKeyShares)).
Proof.
  unfold initializeUnsealed, sameLocks. cbv zeta.
  split_cases; cbn; auto.
Qed.

Lemma initializeBarrier_sameLocks c initParams barrierConfig recoverySupported :
  sameLocks c (fst (initializeBarrier env c initParams barrierConfig
                                      recoverySupported)).
Proof.
  unfold initializeBarrier.
  destruct (seal_Init env); [repeat split|].
  destruct (generateShares env barrierConfig 0) as [[barrierKey shares]|];
    [|repeat split].
  match goal with
  | |- context [match ?seal with inl _ => _ | inr _ => _ end] =>
      destruct seal as [[sealKey sealShares]|]
  end; [|repeat split].
  unfold barrier_Initialize.
  destruct (barrier_Initialize_err env); [repeat split|].
  unfold barrier_Unseal; cbn [fst snd].
  destruct (barrier_Unseal_err env); [repeat split|].
  match goal with
  | |- context [initializeUnsealed env ?c0 ?p ?bc ?rs ?bk ?sk ?bks ?sks] =>
      pose proof (initializeUnsealed_sameLocks c0 p bc rs bk sk bks sks)
        as Hsame;
      destruct (initializeUnsealed env c0 p bc rs bk sk bks sks) as [c1 res]
  end.
  unfold sameLocks in *. cbn in *. exact Hsame.
Qed.

(** The second check found the core initialized, or failed. *)
Definition secondCheckStops : Prop :=
  InitializedLocally env 1 <> (false, None).

Lemma initializeLocked_locks c initParams barrierConfig recoverySupported :
  initLock c = false ->
  let c' := fst (initializeLocked env c initParams barrierConfig
                                  recoverySupported) in
  initInProgress c' = initInProgress c /\ stateLock c' = stateLock c
  /\ raftCluster c' = raftCluster c
  /\ (initLock c' = true ->
      ha env = true /\ lock_Lock env = None
      /\ (secondCheckStops \/ lock_Unlock env <> None)).
Proof.
  intros Hfree. cbv zeta. unfold initializeLocked, secondCheckStops.
  destruct (ha env) eqn:Hha.
  - destruct (GenerateUUID env); [kept|].
    destruct (LockWith env); [kept|].
    destruct (lock_Lock env) eqn:Hlock; [kept|].
    destruct (InitializedLocally env 1) as [[|] [err|]] eqn:Hsecond;
      try (kept; left; discriminate).
    pose proof (initializeBarrier_sameLocks (set_locks c (stateLock c) true)
                  initParams barrierConfig recoverySupported) as Hsame.
    destruct (initializeBarrier env (set_locks c (stateLock c) true) initParams
                                barrierConfig recoverySupported) as [c1 res].
    unfold sameLocks in Hsame. cbn in Hsame.
    destruct Hsame as [Hp [Hs [Hi Hr]]].
    destruct (lock_Unlock env) eqn:Hunlock; cbn.
    + kept. right. discriminate.
    + kept.
  - pose proof (initializeBarrier_sameLocks c initParams barrierConfig
                  recoverySupported) as Hsame.
    unfold sameLocks in Hsame. destruct Hsame as [Hp [Hs [Hi Hr]]].
    kept.
Qed.

Lemma initializeChecked_locks c initParams barrierConfig recoverySupported :
  initLock c = false ->
  raftCluster c = false ->
  let c' := fst (initializeChecked env c initParams barrierConfig
                                   recoverySupported) in
  initInProgress c' = initInProgress c /\ stateLock c' = stateLock c
  /\ (initLock c' = true ->
      ha env = true /\ lock_Lock env = None
      /\ (secondCheckStops \/ lock_Unlock env <> None))
  /\ (raftCluster c' = true ->
      raftBackend env = true /\ RaftBootstrap env = None
      /\ TeardownCluster env <> None).
Proof.
  intros Hfree Hdown. cbv zeta. unfold initializeChecked.
  destruct (Initialized env 0) as [[|] [err|]]; try (kept; fail).
  destruct (raftBackend env) eqn:Hraft.
  - destruct (RaftBootstrap env) eqn:Hboot; [kept|].
    pose proof (initializeLocked_locks (set_raftCluster c true) initParams
                  barrierConfig recoverySupported Hfree) as Hlocked.
    destruct (initializeLocked env (set_raftCluster c true) initParams
                               barrierConfig recoverySupported) as [c1 res].
    cbn in Hlocked. destruct Hlocked as [Hp [Hs [Hr Hi]]].
    destruct (TeardownCluster env) eqn:Hteardown; cbn;
      intuition congruence.
  - pose proof (initializeLocked_locks c initParams barrierConfig
                  recoverySupported Hfree) as Hlocked.
    cbv zeta in Hlocked. destruct Hlocked as [Hp [Hs [Hr Hi]]].
    intuition congruence.
Qed.

(** The seal configuration that [initializeInternal] validates: one stored
    share, and one share with a threshold of one when the seal stores the
    barrier key itself. *)
Definition validatedBarrierConfig (initParams : InitParams) : SealConfig.t :=
  let barrierConfig := BarrierConfig initParams in
  match StoredKeysSupported env with
  | StoredKeysSupportedGeneric =>
      SealConfig.mk 1 1 1 (SealConfig.PGPKeys barrierConfig)
  | _ =>
      SealConfig.mk (SealConfig.SecretShares barrierConfig)
                    (SealConfig.SecretThreshold barrierConfig) 1
                    (SealConfig.PGPKeys barrierConfig)
  end.

(** The checks of the parameters pass: no PGP keys with a seal that stores
    the barrier key itself, [Validate] accepts the seal configuration that
    is validated, and [ValidateRecovery] accepts the recovery configuration,
    which is there, where the seal supports recovery keys. *)
Definition validates (initParams : InitParams) : Prop :=
  (StoredKeysSupported env = StoredKeysSupportedGeneric ->
   SealConfig.PGPKeys (BarrierConfig initParams) = [])
  /\ Validate env (validatedBarrierConfig initParams) = None
  /\ (RecoveryKeySupported env = true ->
      exists recoveryConfig,
        RecoveryConfig initParams = Some recoveryConfig
        /\ ValidateRecovery env recoveryConfig = None).

Lemma initializeInternal_validated c initParams :
  validates initParams ->
  exists barrierConfig recoverySupported,
    initializeInternal env c initParams =
    (let '(c1, res) :=
       initializeChecked env
         (set_locks (set_initInProgress c true) true (initLock c))
         initParams barrierConfig recoverySupported in
     (set_initInProgress (set_locks c1 false (initLock c1)) false, res)).
Proof.
  intros [Hpgp [Hvalid Hrecovery]]. unfold initializeInternal. cbv zeta.
  unfold validatedBarrierConfig in Hvalid. cbv zeta in Hvalid.
  destruct (StoredKeysSupported env);
    try rewrite (Hpgp eq_refl) in Hvalid |- *;
    cbn [length Nat.ltb Nat.leb SealConfig.SecretShares
         SealConfig.SecretThreshold SealConfig.PGPKeys];
    rewrite Hvalid;
    (destruct (RecoveryKeySupported env);
     [destruct (Hrecovery eq_refl) as [rc [-> ->]]|]);
    eexists; eexists;
    match goal with
    | |- context [initializeChecked env ?c0 ?p ?bc ?rs] =>
        destruct (initializeChecked env c0 p bc rs) eqn:Hchecked
    end; cbn [initLock set_initInProgress] in *;
    rewrite Hchecked; reflexivity.
Qed.

(** X26: [initializeInternal] returns with the state lock released and no
    initialization in progress on every path.  The initialization lock of
    an HA backend is still held at the return only if it was acquired and
    either the second check stopped the initialization (the deferred
    [lock.Unlock] is registered after that check) or [Unlock] failed; the
    bootstrapped Raft cluster is still up only if [TeardownCluster]
    failed. *)
Theorem initializeInternal_releases :
  forall c initParams,
    stateLock c = false ->
    initLock c = false ->
    raftCluster c = false ->
    let c' := fst (initializeInternal env c initParams) in
    initInProgress c' = false
    /\ stateLock c' = false
    /\ (initLock c' = true ->
        ha env = true /\ lock_Lock env = None
        /\ (secondCheckStops \/ lock_Unlock env <> None))
    /\ (raftCluster c' = true ->
        raftBackend env = true /\ RaftBootstrap env = None
        /\ TeardownCluster env <> None).
Proof.
  intros c initParams Hstate Hfree Hdown. cbv zeta. unfold initializeInternal.
  cbv zeta.
  match goal with
  | |- context [match ?v with inl _ => _ | inr _ => _ end] =>
      destruct v as [[barrierConfig recoverySupported]|err]
  end; [|kept].
  pose proof (initializeChecked_locks
                (set_locks (set_initInProgress c true) true
                           (initLock (set_initInProgress c true)))
                initParams barrierConfig recoverySupported Hfree Hdown)
    as Hchecked.
  destruct (initializeChecked env _ initParams barrierConfig recoverySupported)
    as [c1 res].
  cbn in Hchecked |- *. destruct Hchecked as [Hp [Hs [Hi Hr]]].
  intuition congruence.
Qed.

(** X27: When the core is found initialized only at the second check, made
    under the initialization lock of the HA backend, [initializeInternal]
    fails with [ErrAlreadyInit] and returns with that lock still held: the
    deferred [lock.Unlock] is registered after the check. *)
Theorem initializeInternal_second_check_keeps_lock :
  forall c initParams,
    validates initParams ->
    Initialized env 0 = (false, None) ->
    (raftBackend env = true -> RaftBootstrap env = None) ->
    ha env = true ->
    GenerateUUID env = None ->
    LockWith env = None ->
    lock_Lock env = None ->
    InitializedLocally env 1 = (true, None) ->
    snd (initializeInternal env c initParams) = inr ErrAlreadyInit
    /\ initLock (fst (initializeInternal env c initParams)) = true
    /\ stateLock (fst (initializeInternal env c initParams)) = false.
Proof.
  intros c initParams Hvalid Hfirst Hboot Hha Huuid Hwith Hlock Hsecond.
  destruct (initializeInternal_validated c initParams Hvalid)
    as [barrierConfig [recoverySupported ->]].
  unfold initializeChecked. rewrite Hfirst.
  unfold initializeLocked. rewrite Hha, Huuid, Hwith, Hlock, Hsecond.
  destruct (raftBackend env); [rewrite (Hboot eq_refl)|].
  - destruct (TeardownCluster env); repeat split.
  - repeat split.
Qed.

(** X28: [Initialize] on a core that is already initialized, with
    parameters that pass the checks, fails with [ErrAlreadyInit] and leaves
    the core as it was: no Raft bootstrap, no lock of the HA backend, and
    the barrier, the seal configuration and the stored keys untouched. *)
Theorem Initialize_already_initialized :
  forall c initParams,
    initInProgress c = false ->
    stateLock c = false ->
    validates initParams ->
    Initialized env 0 = (true, None) ->
    Initialize env c initParams = (c, inr ErrAlreadyInit).
Proof.
  intros c initParams Hprogress Hstate Hvalid Hfirst. unfold Initialize.
  destruct (initializeInternal_validated c initParams Hvalid)
    as [barrierConfig [recoverySupported ->]].
  unfold initializeChecked. rewrite Hfirst.
  destruct c; cbn in *. subst. reflexivity.
Qed.

(** What a successful initialization with a seal that stores the barrier
    key leaves: no key shares for the caller, the generated barrier key as
    the one stored key and the seal configuration in place. *)
Definition storesBarrierKey (barrierConfig : SealConfig.t) (r : result)
  : Prop :=
  forall results,
    snd r = inl results ->
    SecretShares results = []
    /\ exists barrierKey,
         barrier_GenerateKey env 0 = inl barrierKey
         /\ storedKeys (fst r) = [barrierKey]
         /\ sealBarrierConfig (fst r) = Some barrierConfig.

Lemma generateShares_key sc n rootKey shares :
  generateShares env sc n = inl (rootKey, shares) ->
  barrier_GenerateKey env n = inl rootKey.
Proof.
  unfold generateShares. cbv zeta. split_cases; congruence.
Qed.

Lemma initializeUnsealed_stores c initParams barrierConfig recoverySupported
      barrierKey sealKey barrierKeyShares sealKeyShares results :
  StoredKeysSupported env = StoredKeysSupportedGeneric ->
  snd (initializeUnsealed env c initParams barrierConfig recoverySupported
         barrierKey sealKey barrierKeyShares sealKeyShares) = inl results ->
  SecretShares results = []
  /\ storedKeys (fst (initializeUnsealed env c initParams barrierConfig
                        recoverySupported barrierKey sealKey barrierKeyShares
                        sealKeyShares)) = [barrierKey]
  /\ sealBarrierConfig (fst (initializeUnsealed env c initParams barrierConfig
                               recoverySupported barrierKey sealKey
                               barrierKeyShares sealKeyShares))
     = Some barrierConfig.
Proof.
  intros Hgeneric. unfold initializeUnsealed. rewrite Hgeneric. cbv zeta.
  split_cases; cbn; intros Hres; inversion Hres; auto.
Qed.

Lemma initializeBarrier_stores c initParams barrierConfig recoverySupported :
  StoredKeysSupported env = StoredKeysSupportedGeneric ->
  storesBarrierKey barrierConfig
    (initializeBarrier env c initParams barrierConfig recoverySupported).
Proof.
  intros Hgeneric results. unfold initializeBarrier.
  destruct (seal_Init env); [discriminate|].
  destruct (generateShares env barrierConfig 0) as [[barrierKey shares]|]
    eqn:Hshares; [|discriminate].
  apply generateShares_key in Hshares.
  match goal with
  | |- context [match ?seal with inl _ => _ | inr _ => _ end] =>
      destruct seal as [[sealKey sealShares]|]
  end; [|discriminate].
  unfold barrier_Initialize.
  destruct (barrier_Initialize_err env); [discriminate|].
  unfold barrier_Unseal; cbn [fst snd].
  destruct (barrier_Unseal_err env); [discriminate|].
  match goal with
  | |- context [initializeUnsealed env ?c0 ?p ?bc ?rs ?bk ?sk ?bks ?sks] =>
      pose proof (initializeUnsealed_stores c0 p bc rs bk sk bks sks results
                    Hgeneric) as Hstores;
      destruct (initializeUnsealed env c0 p bc rs bk sk bks sks) as [c1 res]
  end.
  cbn in *. intros Hres. destruct (Hstores Hres) as [Hnone [Hkeys Hconfig]].
  split; [exact Hnone|]. now exists barrierKey.
Qed.

Lemma initializeLocked_stores c initParams barrierConfig recoverySupported :
  StoredKeysSupported env = StoredKeysSupportedGeneric ->
  storesBarrierKey barrierConfig
    (initializeLocked env c initParams barrierConfig recoverySupported).
Proof.
  intros Hgeneric. unfold initializeLocked.
  destruct (ha env); [|now apply initializeBarrier_stores].
  destruct (GenerateUUID env); [intros results; discriminate|].
  destruct (LockWith env); [intros results; discriminate|].
  destruct (lock_Lock env); [intros results; discriminate|].
  destruct (InitializedLocally env 1) as [[|] [err|]];
    try (intros results; discriminate).
  pose proof (initializeBarrier_stores (set_locks c (stateLock c) true)
                initParams barrierConfig recoverySupported Hgeneric)
    as Hstores.
  destruct (initializeBarrier env (set_locks c (stateLock c) true) initParams
                              barrierConfig recoverySupported) as [c1 res].
  unfold storesBarrierKey in *. cbn in *.
  destruct (lock_Unlock env); exact Hstores.
Qed.

Lemma initializeChecked_stores c initParams barrierConfig recoverySupported :
  StoredKeysSupported env = StoredKeysSupportedGeneric ->
  storesBarrierKey barrierConfig
    (initializeChecked env c initParams barrierConfig recoverySupported).
Proof.
  intros Hgeneric. unfold initializeChecked.
  destruct (Initialized env 0) as [[|] [err|]];
    try (intros results; discriminate).
  destruct (raftBackend env); [|now apply initializeLocked_stores].
  destruct (RaftBootstrap env); [intros results; discriminate|].
  pose proof (initializeLocked_stores (set_raftCluster c true) initParams
                barrierConfig recoverySupported Hgeneric) as Hstores.
  destruct (initializeLocked env (set_raftCluster c true) initParams
                             barrierConfig recoverySupported) as [c1 res].
  unfold storesBarrierKey in *. cbn in *.
  destruct (TeardownCluster env); exact Hstores.
Qed.

Lemma initializeInternal_stores c initParams :
  StoredKeysSupported env = StoredKeysSupportedGeneric ->
  storesBarrierKey (SealConfig.mk 1 1 1 [])
    (initializeInternal env c initParams).
Proof.
  intros Hgeneric. unfold initializeInternal. rewrite Hgeneric. cbv zeta.
  destruct (SealConfig.PGPKeys (BarrierConfig initParams)) eqn:Hpgp;
    [|intros results; discriminate].
  cbn [length Nat.ltb Nat.leb SealConfig.SecretShares
       SealConfig.SecretThreshold SealConfig.PGPKeys].
  destruct (Validate env _); [intros results; discriminate|].
  match goal with
  | |- context [match ?v with inl _ => _ | inr _ => _ end] =>
      destruct v as [[barrierConfig recoverySupported]|err] eqn:Hvalidated
  end; [|intros results; discriminate].
  assert (barrierConfig = SealConfig.mk 1 1 1 []) as ->.
  { revert Hvalidated. split_cases; congruence. }
  match goal with
  | |- context [initializeChecked env ?c0 ?p ?bc ?rs] =>
      pose proof (initializeChecked_stores c0 p bc rs Hgeneric) as Hstores;
      destruct (initializeChecked env c0 p bc rs) as [c1 res]
  end.
  unfold storesBarrierKey in *. cbn in *. exact Hstores.
Qed.

Lemma UnsealWithStoredKeys_stored c :
  storedKeys (fst (UnsealWithStoredKeys env c)) = storedKeys c
  /\ sealBarrierConfig (fst (UnsealWithStoredKeys env c)) = sealBarrierConfig c.
Proof.
  unfold UnsealWithStoredKeys, unsealInternal. split_cases; cbn; auto.
Qed.

(** X29: With a seal that stores the barrier key itself, a successful
    [Initialize] hands no key shares to the caller, leaves the generated
    barrier key as the one stored key, and has forced the seal
    configuration to one share with threshold one, whatever the caller
    asked for. *)
Theorem Initialize_stores_barrier_key :
  forall c initParams c' results,
    StoredKeysSupported env = StoredKeysSupportedGeneric ->
    Initialize env c initParams = (c', inl results) ->
    SecretShares results = []
    /\ exists barrierKey,
         barrier_GenerateKey env 0 = inl barrierKey
         /\ storedKeys c' = [barrierKey]
         /\ sealBarrierConfig c' = Some (SealConfig.mk 1 1 1 []).
Proof.
  intros c initParams c' results Hgeneric. unfold Initialize.
  pose proof (initializeInternal_stores c initParams Hgeneric) as Hstores.
  destruct (initializeInternal env c initParams) as [c1 [results1|err]];
    [|discriminate].
  specialize (Hstores results1 eq_refl). cbn in Hstores.
  pose proof (UnsealWithStoredKeys_stored c1) as [Hkeys Hconfig].
  destruct (UnsealWithStoredKeys env c1) as [c2 unsealed]. cbn in Hkeys, Hconfig.
  split_cases; intros Hres; inversion Hres; subst;
    rewrite ?Hkeys, ?Hconfig; exact Hstores.
Qed.

(** X30: [UnsealWithStoredKeys] reports no error exactly when the seal is
    a Shamir seal, or no seal migration is going on and either the core is
    already unsealed or exactly one key is stored and [unsealInternal]
    accepts it.  So a [nil] result does not tell that the core is unsealed:
    with a Shamir seal the core is returned as it was, sealed or not. *)
Theorem UnsealWithStoredKeys_nil :
  forall c,
    (snd (UnsealWithStoredKeys env c) = None <->
     BarrierType env = WrapperTypeShamir
     \/ (inSealMigration env = false
         /\ (sealed c = false
             \/ exists key,
                  seal_GetStoredKeys env = inl [key]
                  /\ fst (unsealInternal_result env key) = None)))
    /\ (BarrierType env = WrapperTypeShamir ->
        UnsealWithStoredKeys env c = (c, None)).
Proof.
  intros c. unfold UnsealWithStoredKeys, unsealInternal.
  destruct (BarrierType env) eqn:Htype;
    [split; [split; [intros _; now left|reflexivity]|reflexivity]|].
  split; [|discriminate].
  destruct (inSealMigration env);
    [split; [discriminate|intros [H|[H _]]; discriminate]|].
  destruct (sealed c) eqn:Hsealed; [|split; auto].
  cbn [negb].
  destruct (seal_GetStoredKeys env) as [[|key [|key' keys]]|err];
    try (split;
         [discriminate
         |intros [H|[_ [H|[k [H _]]]]]; discriminate]).
  destruct (unsealInternal_result env key) as [[err|] [|]] eqn:Hkey; cbn.
  1, 2: split;
    [discriminate
    |intros [H|[_ [H|[k [Hk H]]]]]; try discriminate;
     injection Hk as <-; rewrite Hkey in H; discriminate].
  all: split; auto; intros _; right; split; auto; right; exists key;
    rewrite Hkey; auto.
Qed.

End WithEnv.

Import InitFacts.

(** An auto-unseal seal on an HA backend, whose [Validate] refuses a
    configuration without shares, without a threshold or with a threshold
    above its shares: [first] and [second] tell what the barrier answers at
    the first and at the second check. *)
Definition onHABackend (first second : bool) : Env :=
  {| StoredKeysSupported := StoredKeysSupportedGeneric;
     RecoveryKeySupported := true;
     BarrierType := WrapperTypeOther "static";
     Validate := fun sc =>
       if (SealConfig.SecretShares sc <? 1)%Z
       then Some (errors_New "shares must be at least one")
       else if (SealConfig.SecretThreshold sc <? 1)%Z
       then Some (errors_New "threshold must be at least one")
       else if (SealConfig.SecretShares sc <? SealConfig.SecretThreshold sc)%Z
       then Some (errors_New "threshold cannot be larger than shares")
       else None;
     ValidateRecovery := fun sc =>
       if (SealConfig.SecretShares sc <? SealConfig.SecretThreshold sc)%Z
       then Some (errors_New "recovery threshold cannot be larger than shares")
       else None;
     barrier_Initialized :=
       fun n => (match n with O => first | _ => second end, None);
     seal_BarrierConfig := fun _ => (Some (SealConfig.mk 1 1 1 []), None);
     isRaftUnseal := false;
     raftBackend := false;
     raftBackend_Initialized := false;
     RaftBootstrap := None;
     TeardownCluster := None;
     ha := true;
     GenerateUUID := None;
     LockWith := None;
     lock_Lock := None;
     lock_Unlock := None;
     seal_Init := None;
     barrier_GenerateKey := fun _ => inl "root-key";
     shamir_Split := fun key _ _ => inl [key];
     hex_EncodeToString := fun b => b;
     pgpkeys_EncryptShares := fun shares _ => inl shares;
     base64_EncodeToString := fun b => b;
     barrier_Initialize_err := None;
     barrier_Unseal_err := None;
     seal_SetBarrierConfig := None;
     seal_GetShamirWrapper := None;
     SetAesGcmKeyBytes := None;
     seal_SetStoredKeys := None;
     setupCluster := None;
     postUnseal := None;
     seal_SetRecoveryConfig := None;
     seal_SetRecoveryKey := None;
     rootToken := inl "s.root";
     raftCreateTLSKeyring := None;
     preSeal := None;
     serviceRegistration := false;
     seal_RecoveryConfig := inl (SealConfig.mk 0 0 0 []);
     inSealMigration := false;
     seal_GetStoredKeys := inl ["root-key"];
     unsealInternal_result := fun _ => (None, true) |}.

Lemma validates_examples first second :
  validates (onHABackend first second) autoUnsealParams.
Proof.
  split; [reflexivity|]. split; [reflexivity|].
  intros _. now exists (SealConfig.mk 0 0 0 []).
Qed.

Lemma initializeInternal_releases_witness :
  let c' := fst (initializeInternal (onHABackend false false) uninitialized
                                    autoUnsealParams) in
  initInProgress c' = false
  /\ stateLock c' = false
  /\ (initLock c' = true ->
      ha (onHABackend false false) = true
      /\ lock_Lock (onHABackend false false) = None
      /\ (secondCheckStops (onHABackend false false)
          \/ lock_Unlock (onHABackend false false) <> None))
  /\ (raftCluster c' = true ->
      raftBackend (onHABackend false false) = true
      /\ RaftBootstrap (onHABackend false false) = None
      /\ TeardownCluster (onHABackend false false) <> None).
Proof.
  apply (initializeInternal_releases (onHABackend false false) uninitialized
           autoUnsealParams); reflexivity.
Defined.

Lemma initializeInternal_second_check_keeps_lock_witness :
  snd (initializeInternal (onHABackend false true) uninitialized
                          autoUnsealParams) = inr ErrAlreadyInit
  /\ initLock (fst (initializeInternal (onHABackend false true) uninitialized
                                       autoUnsealParams)) = true
  /\ stateLock (fst (initializeInternal (onHABackend false true) uninitialized
                                        autoUnsealParams)) = false.
Proof.
  apply (initializeInternal_second_check_keeps_lock (onHABackend false true)
           uninitialized autoUnsealParams);
    try reflexivity; try apply validates_examples.
Defined.

Lemma Initialize_already_initialized_witness :
  Initialize (onHABackend true true) uninitialized autoUnsealParams
  = (uninitialized, inr ErrAlreadyInit).
Proof.
  apply (Initialize_already_initialized (onHABackend true true) uninitialized
           autoUnsealParams);
    try reflexivity; try apply validates_examples.
Defined.

(** A caller asking for five shares with a threshold of three. *)
Definition fiveShares : InitParams :=
  {| BarrierConfig := SealConfig.mk 5 3 0 [];
     RecoveryConfig := Some (SealConfig.mk 0 0 0 []);
     RootTokenPGPKey := "" |}.

Lemma Initialize_stores_barrier_key_witness :
  exists c' results,
    Initialize autoUnseal uninitialized fiveShares = (c', inl results)
    /\ SecretShares results = []
    /\ exists barrierKey,
         barrier_GenerateKey autoUnseal 0 = inl barrierKey
         /\ storedKeys c' = [barrierKey]
         /\ sealBarrierConfig c' = Some (SealConfig.mk 1 1 1 []).
Proof.
  eexists. eexists. split; [vm_compute; reflexivity|].
  eapply (Initialize_stores_barrier_key autoUnseal uninitialized fiveShares);
    [reflexivity|vm_compute; reflexivity].
Defined.

End InitializationFacts.
